(** * pdf-parser: the field-extraction pipeline of [main.py], [main_config.py] and [pdf_utils.py]

    A shallow embedding of the resume field extractors (phone, experience
    duration, skills, designations, name, summary, work experience), of the
    reference-list synchronisation ([save_url_as_json_async],
    [remove_duplicates]), of record assembly
    ([check_titles_and_extract_info]), of the lines taken from a PDF
    ([extract_text_line_by_line]) and of the name an upload is filed under,
    together with the properties the specification states about them and
    further properties read off the code.

    Python values are modelled as the program has them: a [str] is a sequence
    of Unicode code points, [None] is [option]'s [None], an exception is the
    [Raise] case of [result], a JSON document is a [pyobj] tree.  The regular
    expressions of [main_config.py] are kept as syntax trees and run by a
    backtracking matcher that follows the order in which Python's [re] tries
    alternatives. *)

From Stdlib Require Import NArith ZArith QArith Ascii String Lia.
From stdpp Require Import base option list gmap sets sorting.

Open Scope nat_scope.
Set Warnings "-register-all".

(** ** Code points and strings *)

(** A Python [str] is a sequence of code points. *)
Abbreviation char := N.
Abbreviation str := (list N).

(** The code points of a literal written with ASCII characters only. *)
Definition py (s : string) : str := map N_of_ascii (list_ascii_of_string s).

Definition NL : char := 10%N.          (* "\n" *)
Definition SPACE : char := 32%N.
Definition HYPHEN : char := 45%N.
Definition PLUS : char := 43%N.
Definition BACKSLASH : char := 92%N.
Definition QUOTE : char := 34%N.
Definition EN_DASH : char := 8211%N.   (* U+2013 *)

Definition is_ascii (c : char) : bool := (c <? 128)%N.

Definition in_range (lo hi c : char) : bool := ((lo <=? c) && (c <=? hi))%N.
Arguments in_range (lo hi c)%_N.

(** What Python's Unicode database says about the code points from 128 on.
    The tables are data of the interpreter, not of this program; the program
    only consults them through [\d], [\s], [\w], [re.IGNORECASE],
    [str.strip], [str.title], [float] and the [unicode-escape] codec. *)
Class unicode_db := {
  ucd_decimal : char → bool;          (* category Nd: [\d] *)
  ucd_digit_value : char → N;         (* decimal value of an Nd code point *)
  ucd_space : char → bool;            (* [str.isspace]: [\s], [strip] *)
  ucd_alnum : char → bool;            (* [str.isalnum]: [\w], [\b] *)
  ucd_same_caseless : char → char → bool; (* IGNORECASE literal comparison *)
  ucd_cased : char → bool;
  ucd_lower : char → str;
  ucd_title : char → str;
  ucd_lookup_name : list char → option char  (* [\N{...}] *)
}.

Section Strings.
Context `{UD : unicode_db}.

Definition is_digit (c : char) : bool :=
  if is_ascii c then in_range 48 57 c else ucd_decimal c.

Definition digit_value (c : char) : N :=
  if is_ascii c then (c - 48)%N else ucd_digit_value c.

(** ASCII white space for Python is TAB, LF, VT, FF, CR, FS, GS, RS, US and
    the space. *)
Definition is_space (c : char) : bool :=
  if is_ascii c then in_range 9 13 c || in_range 28 32 c else ucd_space c.

Definition is_ascii_upper (c : char) : bool := in_range 65 90 c.
Definition is_ascii_lower (c : char) : bool := in_range 97 122 c.
Definition is_ascii_letter (c : char) : bool := is_ascii_upper c || is_ascii_lower c.

Definition is_alnum (c : char) : bool :=
  if is_ascii c then is_ascii_letter c || in_range 48 57 c else ucd_alnum c.

(** [\w]: alphanumeric or the underscore. *)
Definition is_word (c : char) : bool := is_alnum c || (c =? 95)%N.

Definition ascii_lower (c : char) : char := if is_ascii_upper c then (c + 32)%N else c.
Definition ascii_upper (c : char) : char := if is_ascii_lower c then (c - 32)%N else c.

(** Comparison of a pattern literal [c] with a subject character [ch] under
    [re.IGNORECASE]. *)
Definition same_caseless (c ch : char) : bool :=
  if is_ascii c && is_ascii ch then (ascii_lower c =? ascii_lower ch)%N
  else ucd_same_caseless c ch.

Definition str_eqb (a b : str) : bool := bool_decide (a = b).

(** Truthiness of a [str]. *)
Definition truthy (s : str) : bool := match s with [] => false | _ => true end.

Fixpoint is_prefix (p s : str) : bool :=
  match p, s with
  | [], _ => true
  | a :: p', b :: s' => (a =? b)%N && is_prefix p' s'
  | _ :: _, [] => false
  end.

(** [s.replace(old, new)] for a non-empty [old]: scan left to right, and
    after an occurrence skip the rest of it. *)
Fixpoint replace_go (old new s : str) (skip : nat) : str :=
  match s with
  | [] => []
  | c :: t =>
      match skip with
      | S k => replace_go old new t k
      | O => if is_prefix old s
             then new ++ replace_go old new t (length old - 1)
             else c :: replace_go old new t 0
      end
  end.

(** [s.replace(old, new)]; an empty [old] matches between any two
    characters and at both ends. *)
Definition str_replace (old new s : str) : str :=
  match old with
  | [] => new ++ flat_map (λ c, c :: new) s
  | _ => replace_go old new s 0
  end.

Fixpoint str_lstrip (s : str) : str :=
  match s with
  | c :: t => if is_space c then str_lstrip t else s
  | [] => []
  end.

Definition str_rstrip (s : str) : str := rev (str_lstrip (rev s)).

(** [s.strip()] *)
Definition str_strip (s : str) : str := str_rstrip (str_lstrip s).

(** [s.split(sep)] for a one-character separator. *)
Fixpoint str_split (sep : char) (s : str) : list str :=
  match s with
  | [] => [[]]
  | c :: t =>
      match str_split sep t with
      | l :: ls => if (c =? sep)%N then [] :: l :: ls else (c :: l) :: ls
      | [] => [[c]]
      end
  end.

(** [sep.join(parts)] *)
Fixpoint str_join (sep : str) (parts : list str) : str :=
  match parts with
  | [] => []
  | [p] => p
  | p :: ps => p ++ sep ++ str_join sep ps
  end.

(** [s[i:j]] for in-range, non-negative [i] and [j]. *)
Definition substr (s : str) (i j : nat) : str := drop i (take j s).

(** [s[:-n]] and [s[-n:]]. *)
Definition drop_last (n : nat) (s : str) : str := take (length s - n) s.
Definition take_last (n : nat) (s : str) : str := drop (length s - n) s.

Definition char_cased (c : char) : bool :=
  if is_ascii c then is_ascii_letter c else ucd_cased c.
Definition char_lower (c : char) : str :=
  if is_ascii c then [ascii_lower c] else ucd_lower c.
Definition char_title (c : char) : str :=
  if is_ascii c then [ascii_upper c] else ucd_title c.

(** [s.title()]: a character after a cased one is lowered, any other is
    title-cased. *)
Fixpoint title_go (prev_cased : bool) (s : str) : str :=
  match s with
  | [] => []
  | c :: t => (if prev_cased then char_lower c else char_title c)
                ++ title_go (char_cased c) t
  end.
Definition str_title (s : str) : str := title_go false s.

(** [x or d] on an optional string: [None] and the empty string are falsy. *)
Definition or_str (x : option str) (d : str) : str :=
  match x with
  | Some s => if truthy s then s else d
  | None => d
  end.

End Strings.

(** The database that knows no code point from 128 on; closed examples over
    ASCII text are stated with it, since no table is consulted there. *)
Definition ascii_only : unicode_db := {|
  ucd_decimal := λ _, false;
  ucd_digit_value := λ _, 0%N;
  ucd_space := λ _, false;
  ucd_alnum := λ _, false;
  ucd_same_caseless := λ c ch, (c =? ch)%N;
  ucd_cased := λ _, false;
  ucd_lower := λ c, [c];
  ucd_title := λ c, [c];
  ucd_lookup_name := λ _, None
|}.

(** ** Regular expressions

    The patterns of the program as syntax trees, named after the opcodes of
    Python's [re] compiler. *)
Module re.

Inductive category := DIGIT | SPACE_ | WORD.

(** The members of a bracketed set. *)
Inductive item :=
| IChar (c : char)
| IRange (lo hi : char)
| ICat (c : category)          (* [\s] inside a set *)
| INotCat (c : category).      (* [\S] inside a set *)
Arguments IRange (lo hi)%_N.

Inductive regex :=
| EMPTY
| LITERAL (c : char)
| ANY                                   (* [.] without DOTALL *)
| CATEGORY (c : category)               (* [\d], [\s], [\w] *)
| IN (negate : bool) (items : list item)
| AT_BEGINNING                          (* [^] without MULTILINE *)
| AT_END                                (* [$] without MULTILINE *)
| AT_BOUNDARY                           (* [\b] *)
| SEQ (r1 r2 : regex)
| BRANCH (r1 r2 : regex)
| REPEAT (greedy : bool) (lo : nat) (hi : option nat) (r : regex)
| SUBPATTERN (n : nat) (r : regex)      (* capturing group number [n] *)
| ASSERT (r : regex).                   (* [(?=...)] *)

(** A compiled pattern: the tree and the IGNORECASE flag. *)
Record pattern := Pattern { p_regex : regex; p_ignorecase : bool }.

(** The matcher's position in the subject: the offset, the character before
    it (for [\b] and [^]) and the characters from it on. *)
Record cursor := Cursor { pos : nat; prev : option char; rest : str }.

(** Group number to (start, end). *)
Abbreviation groups := (gmap nat (nat * nat)).

(** End offset and groups of a successful match. *)
Definition matched : Type := nat * groups.
Definition cont : Type := cursor → groups → option matched.

Notation "x 'orelse' y" :=
  (match x with Some m => Some m | None => y end)
  (at level 60, right associativity, only parsing).

Section Matcher.
Context `{UD : unicode_db}.

Definition in_category (c : category) (ch : char) : bool :=
  match c with
  | DIGIT => is_digit ch
  | SPACE_ => is_space ch
  | WORD => is_word ch
  end.

Definition in_item (i : item) (ch : char) : bool :=
  match i with
  | IChar c => (c =? ch)%N
  | IRange lo hi => in_range lo hi ch
  | ICat c => in_category c ch
  | INotCat c => negb (in_category c ch)
  end.

Definition in_set (negate : bool) (items : list item) (ch : char) : bool :=
  xorb negate (existsb (λ i, in_item i ch) items).

Definition literal_match (ic : bool) (c ch : char) : bool :=
  if ic then same_caseless c ch else (c =? ch)%N.

Definition word_at (o : option char) : bool :=
  match o with Some c => is_word c | None => false end.

(** [\b]: exactly one of the neighbours is a word character. *)
Definition at_boundary (cu : cursor) : bool :=
  xorb (word_at (prev cu)) (word_at (head (rest cu))).

(** [$]: at the end, or before a final newline. *)
Definition at_end (cu : cursor) : bool :=
  match rest cu with
  | [] => true
  | [c] => (c =? NL)%N
  | _ => false
  end.

Definition at_beginning (cu : cursor) : bool :=
  match prev cu with None => true | Some _ => false end.

(** Consume one character that satisfies [p]. *)
Definition one (p : char → bool) (cu : cursor) (gs : groups) (k : cont) : option matched :=
  match rest cu with
  | ch :: t => if p ch then k (Cursor (S (pos cu)) (Some ch) t) gs else None
  | [] => None
  end.

Definition test (b : bool) (cu : cursor) (gs : groups) (k : cont) : option matched :=
  if b then k cu gs else None.

Definition below (n : nat) (hi : option nat) : bool :=
  match hi with Some h => n <? h | None => true end.

(** The loop of a repetition whose body is run by [body]: [cnt] rounds are
    done; a greedy loop first tries one more round, a lazy one first tries
    to stop.  Another round is taken only if the last one consumed a
    character, so [fuel], the number of characters left, bounds the rounds. *)
Fixpoint repeat_loop (body : cursor → groups → cont → option matched)
    (greedy : bool) (lo : nat) (hi : option nat) (k : cont)
    (fuel cnt : nat) (cu : cursor) (gs : groups) : option matched :=
  if greedy then
    match fuel with
    | S f =>
        if below cnt hi then
          body cu gs (λ cu' gs',
            if decide (pos cu < pos cu')
            then repeat_loop body greedy lo hi k f (S cnt) cu' gs' else None)
        else None
    | O => None
    end
    orelse (if decide (lo ≤ cnt) then k cu gs else None)
  else
    (if decide (lo ≤ cnt) then k cu gs else None)
    orelse
    match fuel with
    | S f =>
        if below cnt hi then
          body cu gs (λ cu' gs',
            if decide (pos cu < pos cu')
            then repeat_loop body greedy lo hi k f (S cnt) cu' gs' else None)
        else None
    | O => None
    end.

(** Backtracking matcher in continuation-passing style: [run ic r cu gs k]
    tries the ways [r] can match at [cu] in Python's order and returns the
    first for which the rest of the pattern, [k], succeeds.  Groups set
    inside a lookahead are not kept (no pattern of the program has any). *)
Fixpoint run (ic : bool) (r : regex) (cu : cursor) (gs : groups) (k : cont)
  : option matched :=
  match r with
  | EMPTY => k cu gs
  | LITERAL c => one (literal_match ic c) cu gs k
  | ANY => one (λ ch, negb (ch =? NL)%N) cu gs k
  | CATEGORY c => one (in_category c) cu gs k
  | IN negate items => one (in_set negate items) cu gs k
  | AT_BEGINNING => test (at_beginning cu) cu gs k
  | AT_END => test (at_end cu) cu gs k
  | AT_BOUNDARY => test (at_boundary cu) cu gs k
  | SEQ r1 r2 => run ic r1 cu gs (λ cu' gs', run ic r2 cu' gs' k)
  | BRANCH r1 r2 => run ic r1 cu gs k orelse run ic r2 cu gs k
  | REPEAT greedy lo hi r' =>
      repeat_loop (run ic r') greedy lo hi k (length (rest cu)) 0 cu gs
  | SUBPATTERN n r' =>
      run ic r' cu gs (λ cu' gs', k cu' (<[n := (pos cu, pos cu')]> gs'))
  | ASSERT r' =>
      match run ic r' cu gs (λ cu' gs', Some (pos cu', gs')) with
      | Some _ => k cu gs
      | None => None
      end
  end.

(** A match object: the subject, the span of group 0 and the groups. *)
Record match_ := Match { m_string : str; m_start : nat; m_end : nat; m_groups : groups }.

(** [m[0]] *)
Definition group0 (m : match_) : str := substr (m_string m) (m_start m) (m_end m).

(** Try the pattern at the cursor; [must_advance] refuses the empty match
    there (set by [finditer] and [sub] after an empty match). *)
Definition match_at (p : pattern) (must_advance : bool) (cu : cursor) : option matched :=
  run (p_ignorecase p) (p_regex p) cu ∅
      (λ cu' gs', if must_advance && (pos cu' =? pos cu) then None else Some (pos cu', gs')).

(** Leftmost match from the cursor on: each start offset in turn. *)
Fixpoint scan (p : pattern) (subject : str) (must_advance : bool)
    (i : nat) (pv : option char) (s : str) : option match_ :=
  match match_at p must_advance (Cursor i pv s) with
  | Some (e, gs) => Some (Match subject i e gs)
  | None =>
      match s with
      | [] => None
      | c :: t => scan p subject false (S i) (Some c) t
      end
  end.

Definition last_char (s : str) : option char := last s.

(** The scan started at offset [i] of [subject]. *)
Definition scan_from (p : pattern) (subject : str) (must_advance : bool) (i : nat)
  : option match_ :=
  scan p subject must_advance i (last_char (take i subject)) (drop i subject).

(** [re.search(p, subject)] *)
Definition search (p : pattern) (subject : str) : option match_ :=
  scan_from p subject false 0.

(** [re.finditer(p, subject)]: successive non-overlapping matches; after an
    empty match the next one must not be empty at the same offset. *)
Fixpoint finditer_from (fuel : nat) (p : pattern) (subject : str)
    (must_advance : bool) (i : nat) : list match_ :=
  match fuel with
  | O => []
  | S f =>
      match scan_from p subject must_advance i with
      | Some m => m :: finditer_from f p subject (m_end m =? m_start m) (m_end m)
      | None => []
      end
  end.

Definition finditer (p : pattern) (subject : str) : list match_ :=
  finditer_from (2 * length subject + 2) p subject false 0.

(** [re.sub(p, repl, subject)] for a replacement without escapes: the text
    between the matches, with [repl] in place of each match. *)
Fixpoint sub_build (repl subject : str) (from : nat) (ms : list match_) : str :=
  match ms with
  | [] => drop from subject
  | m :: ms' => substr subject from (m_start m) ++ repl ++ sub_build repl subject (m_end m) ms'
  end.

Definition sub (p : pattern) (repl subject : str) : str :=
  sub_build repl subject 0 (finditer p subject).

End Matcher.

(** *** Pattern notation *)

Fixpoint seq (rs : list regex) : regex :=
  match rs with
  | [] => EMPTY
  | [r] => r
  | r :: rs' => SEQ r (seq rs')
  end.

Fixpoint alt (rs : list regex) : regex :=
  match rs with
  | [] => EMPTY
  | [r] => r
  | r :: rs' => BRANCH r (alt rs')
  end.

(** A run of literal characters. *)
Definition lit (s : str) : regex := seq (map LITERAL s).
Definition lits (s : string) : regex := lit (py s).

Definition star (r : regex) : regex := REPEAT true 0 None r.
Definition plus (r : regex) : regex := REPEAT true 1 None r.
Definition opt (r : regex) : regex := REPEAT true 0 (Some 1) r.
Definition lazy_star (r : regex) : regex := REPEAT false 0 None r.
Definition times (lo hi : nat) (r : regex) : regex := REPEAT true lo (Some hi) r.
Definition at_least (lo : nat) (r : regex) : regex := REPEAT true lo None r.

Definition chr (a : ascii) : regex := LITERAL (N_of_ascii a).
Definition range (a b : ascii) : item := IRange (N_of_ascii a) (N_of_ascii b).
Definition ichr (a : ascii) : item := IChar (N_of_ascii a).

(** [re.escape(s)] read back by the pattern compiler: each character of [s]
    as a literal. *)
Definition escape (s : str) : regex := lit s.

End re.

(** ** The patterns of [main_config.py] *)
Section Patterns.
Import re.

Definition digit : regex := CATEGORY DIGIT.
Definition space : regex := CATEGORY SPACE_.
Definition letters : regex := plus (IN false [range "A" "Z"; range "a" "z"]).

(** r"\b\d{6}\b" *)
Definition PINCODE_PATTERN : pattern :=
  Pattern (seq [AT_BOUNDARY; times 6 6 digit; AT_BOUNDARY]) false.

(** r"\b[A-Za-z0-9._%+-]+@[A-Za-z0-9.-]+\.[A-Z|a-z]{2,}\b" *)
Definition EMAIL_PATTERN : pattern :=
  Pattern (seq [AT_BOUNDARY;
                plus (IN false [range "A" "Z"; range "a" "z"; range "0" "9"; ichr ".";
                                ichr "_"; ichr "%"; ichr "+"; ichr "-"]);
                chr "@";
                plus (IN false [range "A" "Z"; range "a" "z"; range "0" "9"; ichr "."; ichr "-"]);
                chr ".";
                at_least 2 (IN false [range "A" "Z"; ichr "|"; range "a" "z"]);
                AT_BOUNDARY]) false.

(** r"(\+?\d{0,3}[-\s]?\d{10})" *)
Definition PHONE_PATTERN : pattern :=
  Pattern (SUBPATTERN 1 (seq [opt (chr "+"); times 0 3 digit;
                              opt (IN false [ichr "-"; ICat SPACE_]);
                              times 10 10 digit])) false.

(** r".*\.com.*\n?" *)
Definition LINK_PATTERN : pattern :=
  Pattern (seq [star ANY; lits ".com"; star ANY; opt (LITERAL NL)]) false.

(** r"(\d+(?:\.\d+)?)\s*(?:\+)?\s*(?:[yY]ears|[yY]ear|[mM]onths?)" *)
Definition EXPERIENCE_DURATION_PATTERN : pattern :=
  Pattern (seq [SUBPATTERN 1 (seq [plus digit; opt (seq [chr "."; plus digit])]);
                star space; opt (chr "+"); star space;
                alt [seq [IN false [ichr "y"; ichr "Y"]; lits "ears"];
                     seq [IN false [ichr "y"; ichr "Y"]; lits "ear"];
                     seq [IN false [ichr "m"; ichr "M"]; lits "onth"; opt (chr "s")]]]) false.

(** r"^(?:.*?(?:Name:\s{0,})?(?:Mrs\.|Mr\.|Miss|Ms\.)?\s*([A-Za-z]+)\s*([A-Za-z]+(?: [A-Za-z]+){0,}))\n?"
    (the source writes a star where a repetition before a closing
    parenthesis is written {0,} here) *)
Definition NAME_PATTERN : pattern :=
  Pattern (seq [AT_BEGINNING;
                lazy_star ANY;
                opt (seq [lits "Name:"; star space]);
                opt (alt [lits "Mrs."; lits "Mr."; lits "Miss"; lits "Ms."]);
                star space;
                SUBPATTERN 1 letters;
                star space;
                SUBPATTERN 2 (seq [letters; star (seq [chr " "; letters])]);
                opt (LITERAL NL)]) false.

(** The section headers of [EXPERIENCE_TEXT_PATTERN], in the order of the source. *)
Definition experience_headers : list regex :=
  [ lits "EXPERIENCE";
    lits "Experience";
    lits "Projects Undertaken:";
    lits "PROJECTS UNDERTAKEN";
    lits "Projects:";
    lits "PROJECTS";
    lits "PROJECTS:";
    lits "Work Experience:";
    lits "EMPLOYMENT HISTORY";
    lits "Projects";
    lits "Project Details:";
    lits "WORK EXPERIENCE :";
    lits "Projects :";
    lits "EXPERIENCE:";
    lits "Project";
    lits "Employment History";
    lits "PR O F E S SI O NA L   E X P E R I E N C E";
    lits "Work experience";
    SEQ (lits "PROFESSIONAL EXPERIENCE ") ANY;
    lits "P R O J E C T S";
    lits "JOBS";
    lits "W O R K E X P E R I E N C E";
    lits "Work History";
    lits "PROJECT" ].

(** The terminators of [EXPERIENCE_TEXT_PATTERN]. *)
Definition experience_terminators : list regex :=
  [ lits "SKILLS";
    lits "Skills";
    lits "Professional Skills";
    lits "Personal Qualities:";
    lits "PERSONAL QUALITIES:";
    lits "Personal Qualities";
    lits "PERSONAL QUALITIES";
    lits "Education";
    lits "EDUCATION";
    lits "EXTRACURRICULAR ACTIVITIES";
    lits "Languages";
    lits "Certification";
    lits "CERTIFICATE";
    lits "Additional Information:";
    lits "ACHIEVEMENTS";
    lits "E D U C A TI O N";
    lits "Interests";
    lits "TECHNICAL SKILLS";
    lits "SKILLS:";
    lits "TRAINING";
    lits "P R O J E C T S";
    lits "S K I L L S";
    lits "STRENGTHS";
    AT_END ].

(** r"(headers)\n([{L}\s\S]*?)(?=\n(?:terminators))" *)
Definition EXPERIENCE_TEXT_PATTERN : pattern :=
  Pattern (seq [SUBPATTERN 1 (alt experience_headers);
                LITERAL NL;
                SUBPATTERN 2 (lazy_star (IN false [ichr "{"; ichr "L"; ichr "}";
                                                   ICat SPACE_; INotCat SPACE_]));
                ASSERT (seq [LITERAL NL; alt experience_terminators])]) false.

(** The section headers of [SUMMARY_PATTERN], in the order of the source. *)
Definition summary_headers : list regex :=
  [ SEQ AT_BOUNDARY (lits "Summary");
    lits "ABOUT";
    lits "PROFILE";
    lits "SUMMARY";
    lits "INTRODUCTION";
    lits "HEADLINE";
    lits "PROFESSIONAL SUMMARY";
    lits "About Me";
    lits "PROFESSIONAL SUMMARY:";
    lits "Synopsis";
    lit (py "Pro" ++ [64257%N] ++ py "le Summary:");
    lits "Profile Summary:";
    lits "My Projects";
    lits "Summary";
    lits "SUMMARY";
    lits "Summary:";
    lits "CAREER OBJECTIVE :";
    lits "Objectives :";
    lits "Projects:";
    lits "Objectives";
    lits "Objective";
    lits "Profile";
    lits "SUMMARY OF EXPERIENCE";
    lits "OBJECTIVE";
    lits "CAREER SUMMARY:";
    lits "ABOUT ME";
    lits "Objective:";
    lits "P R O F E S S I O N A L   S U M M A R Y";
    lits "CAREER OBJECTIVE:";
    lits "P R O F I L E";
    lits "Profile Summary & Skills";
    lits "CAREER OBJECTIVE" ].

(** The terminators of [SUMMARY_PATTERN]. *)
Definition summary_terminators : list regex :=
  [ lits "CAREER OBJECTIVE";
    lits "OBJECTIVE";
    lits "GOAL";
    lits "Education";
    lits "EXPERIENCE SUMMARY";
    lits "Current Company Details";
    lits "Projects Undertaken";
    lits "Experience";
    lits "Skills";
    lits "Contact";
    lits "Technical Skills";
    lits "Technical Expertise:";
    lits "Professional Qualification";
    lits "EMPLOYMENT HISTORY";
    lits "Completed";
    lits "EDUCATION";
    lits "Projects";
    lits "SKILLS";
    lits "Languages";
    lits "Current";
    lits "PROFESSIONAL";
    lits "WORK EXPERIENCE";
    lits "PROFESSIONAL EXPERIENCE";
    lits "T E C H N I C A L   S K I L L S";
    lits "C O N T A C T M E";
    lits "Work Experience";
    lits "E D U C A T I O N";
    lits "Professional Experience";
    lits "Skills & Abilities";
    lits "QUALIFICATION DETAILS";
    AT_END ].

(** r"(headers)\n?([\s\S]*?)(?=\n(?:terminators)\b)", compiled with DOTALL
    (the pattern has no dot). *)
Definition SUMMARY_PATTERN : pattern :=
  Pattern (seq [SUBPATTERN 1 (alt summary_headers);
                opt (LITERAL NL);
                SUBPATTERN 2 (lazy_star (IN false [ICat SPACE_; INotCat SPACE_]));
                ASSERT (seq [LITERAL NL; alt summary_terminators; AT_BOUNDARY])]) false.

(** r"\b{}\b".format(re.escape(title)) with [re.IGNORECASE] *)
Definition title_pattern (title : str) : pattern :=
  Pattern (seq [AT_BOUNDARY; escape title; AT_BOUNDARY]) true.

(** r"\bLinkedIn\b" and r"\b\w+\.vercel\.app\b", both with [re.IGNORECASE] *)
Definition LINKEDIN_PATTERN : pattern :=
  Pattern (seq [AT_BOUNDARY; lits "LinkedIn"; AT_BOUNDARY]) true.
Definition VERCEL_PATTERN : pattern :=
  Pattern (seq [AT_BOUNDARY; plus (CATEGORY WORD); lits ".vercel.app"; AT_BOUNDARY]) true.

(** r"[^\x00-\x7F]+" *)
Definition NON_ASCII_RUN : pattern :=
  Pattern (plus (IN true [IRange 0 127])) false.

End Patterns.

(** ** Python values, exceptions *)

Inductive exn :=
| TypeError | KeyError | AttributeError | ValueError
| UnicodeDecodeError | UnicodeEncodeError | JSONDecodeError.

(** The outcome of a call: a value or a raised exception. *)
Inductive result (A : Type) :=
| Return (a : A)
| Raise (e : exn).
Arguments Return {A} a.
Arguments Raise {A} e.

#[global] Instance result_ret : MRet result := λ A a, Return a.
#[global] Instance result_bind : MBind result := λ A B f m,
  match m with Return a => f a | Raise e => Raise e end.
#[global] Instance result_fmap : FMap result := λ A B f m,
  match m with Return a => Return (f a) | Raise e => Raise e end.

(** [int] and [float].  A float is named by the exact rational it was read
    from: [Float q] stands for the double nearest to [q], which is what
    [float] returns for the digits of [q] (it is [inf] when [q] is beyond
    the range of the doubles).  The program never computes with a float;
    it only tests whether it is zero. *)
Inductive number :=
| Int (z : Z)
| Float (q : Q).

(** What [json.load] returns and [json.dump] accepts. *)
Inductive pyobj :=
| PyNone
| PyBool (b : bool)
| PyNum (n : number)
| PyStr (s : str)
| PyList (l : list pyobj)
| PyDict (kv : list (str * pyobj)).

Fixpoint dict_get (key : str) (kv : list (str * pyobj)) : option pyobj :=
  match kv with
  | [] => None
  | (k, v) :: kv' => if decide (k = key) then Some v else dict_get key kv'
  end.

(** [operator.itemgetter(key)(item)], and [item[key]], for a string key. *)
Definition itemgetter (key : str) (item : pyobj) : result pyobj :=
  match item with
  | PyDict kv => match dict_get key kv with Some v => Return v | None => Raise KeyError end
  | _ => Raise TypeError
  end.

(** [item.get(key, default)] *)
Definition dict_get_default (key : str) (dflt : pyobj) (item : pyobj) : result pyobj :=
  match item with
  | PyDict kv => Return (default dflt (dict_get key kv))
  | _ => Raise AttributeError
  end.

(** Where the program hands a value to [re.escape], it must be a [str]. *)
Definition as_str (v : pyobj) : result str :=
  match v with PyStr s => Return s | _ => Raise TypeError end.

(** [for x in v] *)
Definition iterate (v : pyobj) : result (list pyobj) :=
  match v with
  | PyList l => Return l
  | PyDict kv => Return (map (λ p, PyStr p.1) kv)
  | PyStr s => Return (map (λ c, PyStr [c]) s)
  | _ => Raise TypeError
  end.

(** [record[key]] on the dictionary a record is, [None] when the key is
    missing. *)
Definition field (key : string) (record : pyobj) : option pyobj :=
  match record with
  | PyDict kv => dict_get (py key) kv
  | _ => None
  end.

(** The double nearest to [q] is zero: [q] is at most [2^-1075] in absolute
    value, half the least positive double (at exactly the half, rounding to
    even gives zero). *)
Definition rounds_to_zero (q : Q) : bool :=
  (Z.abs (Qnum q) * 2 ^ 1075 <=? Z.pos (Qden q))%Z.

(** Truthiness of a number: zero is falsy, and so is a float that is zero
    as a double. *)
Definition number_truthy (n : number) : bool :=
  match n with
  | Int z => negb (z =? 0)%Z
  | Float q => negb (rounds_to_zero q)
  end.

Definition number_nonneg (n : number) : Prop :=
  match n with
  | Int z => (0 ≤ z)%Z
  | Float q => (0 <= q)%Q
  end.

(** ** Sorting

    [sorted] is stable; insertion from the right keeps an element before the
    later elements it is not greater than. *)
Section Sorted.
Context {A : Type} (le : A → A → bool).

Fixpoint insert_sorted (x : A) (l : list A) : list A :=
  match l with
  | [] => [x]
  | y :: l' => if le x y then x :: y :: l' else y :: insert_sorted x l'
  end.

Fixpoint sorted (l : list A) : list A :=
  match l with
  | [] => []
  | x :: l' => insert_sorted x (sorted l')
  end.

End Sorted.

(** Comparison of strings: by code point, the shorter first. *)
Fixpoint str_le (a b : str) : bool :=
  match a, b with
  | [], _ => true
  | _ :: _, [] => false
  | x :: a', y :: b' => if (x <? y)%N then true else if (y <? x)%N then false else str_le a' b'
  end.

(** A match offset, or [float("inf")]. *)
Inductive offset :=
| Finite (n : nat)
| Infinity.

Definition offset_le (a b : offset) : bool :=
  match a, b with
  | Finite n, Finite m => n <=? m
  | _, Infinity => true
  | Infinity, Finite _ => false
  end.

Definition offset_min (a b : offset) : offset := if offset_le a b then a else b.

(** [min(xs, default=float("inf"))] *)
Definition min_default (xs : list nat) : offset :=
  match xs with
  | [] => Infinity
  | x :: xs' => foldl (λ acc y, offset_min acc (Finite y)) (Finite x) xs'
  end.

(** ** The extractors of [main_config.py] *)
Section MainConfig.
Context `{UD : unicode_db}.

(** [m[n]] as a string.  Every group the program reads lies outside the
    optional parts of its pattern and so has taken part in any match
    ([program_groups_set]); for a group that has not, Python gives [None],
    which is the empty string here. *)
Definition group (m : re.match_) (n : nat) : str :=
  match n with
  | O => re.group0 m
  | _ => match re.m_groups m !! n with
         | Some (a, b) => substr (re.m_string m) a b
         | None => []
         end
  end.

Definition extract_email (text_content : str) : option str :=
  match re.search EMAIL_PATTERN text_content with
  | Some m => Some (group m 0)
  | None => None
  end.

(** The first lines of [extract_phone]: the text without the occurrences of
    the first pincode. *)
Definition remove_pincode (text_content : str) : str :=
  let pincode := re.search PINCODE_PATTERN text_content in
  match pincode with
  | Some m => str_replace (group m 0) [] text_content
  | None => text_content
  end.

Definition extract_phone (text_content : str) : option str :=
  let text_content := remove_pincode text_content in
  match re.search PHONE_PATTERN text_content with
  | Some m =>
      let phone_number :=
        str_replace [NL] [] (str_replace [SPACE] [] (str_replace [HYPHEN] [] (group m 1))) in
      if 10 <? length phone_number
      then Some (drop_last 10 phone_number ++ [SPACE] ++ take_last 10 phone_number)
      else Some phone_number
  | None => None
  end.

(** The masking shared by [extract_summary_text] and
    [extract_experience_text]. *)
Definition mask_contacts (email phone : option str) (text_content : str) : str :=
  let e := default [] email in
  let p := default [] phone in
  if truthy e && truthy p then
    str_replace e (py "<email masked>") (str_replace p (py "<phone no. masked>") text_content)
  else if truthy e then str_replace e (py "<email masked>") text_content
  else if truthy p then str_replace p (py "<phone no. masked>") text_content
  else text_content.

(** *** [codecs.decode(s, "unicode-escape")] *)

(** The UTF-8 bytes of a code point; a surrogate has none. *)
Definition utf8_encode_char (c : char) : option (list N) :=
  if (c <? 128)%N then Some [c]
  else if (c <? 2048)%N then Some [192 + c / 64; 128 + c mod 64]%N
  else if (c <? 65536)%N then
    if in_range 55296 57343 c then None
    else Some [224 + c / 4096; 128 + (c / 64) mod 64; 128 + c mod 64]%N
  else if (c <? 1114112)%N then
    Some [240 + c / 262144; 128 + (c / 4096) mod 64; 128 + (c / 64) mod 64; 128 + c mod 64]%N
  else None.

Fixpoint utf8_encode (s : str) : option (list N) :=
  match s with
  | [] => Some []
  | c :: t =>
      match utf8_encode_char c, utf8_encode t with
      | Some b, Some bs => Some (b ++ bs)
      | _, _ => None
      end
  end.

Definition hex_value (b : N) : option N :=
  if in_range 48 57 b then Some (b - 48)%N
  else if in_range 97 102 b then Some (b - 87)%N
  else if in_range 65 70 b then Some (b - 55)%N
  else None.

(** Read exactly [count] hexadecimal digits. *)
Fixpoint read_hex (count : nat) (acc : N) (s : list N) : option (N * list N) :=
  match count with
  | O => Some (acc, s)
  | S n =>
      match s with
      | b :: t => match hex_value b with
                  | Some v => read_hex n (16 * acc + v)%N t
                  | None => None
                  end
      | [] => None
      end
  end.

Definition is_octal (b : N) : bool := in_range 48 55 b.

(** An octal escape has one to three digits; [b] is the first. *)
Definition read_octal (b : N) (s : list N) : N * list N :=
  match s with
  | b2 :: t =>
      if is_octal b2 then
        match t with
        | b3 :: t' =>
            if is_octal b3 then (((b - 48) * 8 + (b2 - 48)) * 8 + (b3 - 48), t')%N
            else ((b - 48) * 8 + (b2 - 48), t)%N
        | [] => ((b - 48) * 8 + (b2 - 48), t)%N
        end
      else ((b - 48)%N, s)
  | [] => ((b - 48)%N, s)
  end.

Fixpoint span_until (stop : N) (s : list N) : list N * list N :=
  match s with
  | [] => ([], [])
  | b :: t => if (b =? stop)%N then ([], s)
              else let '(a, r) := span_until stop t in (b :: a, r)
  end.

(** The decoder, in strict mode: a byte other than the backslash stands for
    the code point of the same number; the fuel is the number of bytes. *)
Fixpoint unicode_escape_go (fuel : nat) (s : list N) : result str :=
  match fuel with
  | O => Return []
  | S f =>
      match s with
      | [] => Return []
      | c :: t =>
          if negb (c =? BACKSLASH)%N then cons c <$> unicode_escape_go f t
          else
            match t with
            | [] => Raise UnicodeDecodeError
            | e :: t' =>
                if (e =? NL)%N then unicode_escape_go f t'
                else if (e =? 92)%N || (e =? 39)%N || (e =? 34)%N
                     then cons e <$> unicode_escape_go f t'
                else if (e =? 98)%N then cons 8%N <$> unicode_escape_go f t'
                else if (e =? 102)%N then cons 12%N <$> unicode_escape_go f t'
                else if (e =? 116)%N then cons 9%N <$> unicode_escape_go f t'
                else if (e =? 110)%N then cons 10%N <$> unicode_escape_go f t'
                else if (e =? 114)%N then cons 13%N <$> unicode_escape_go f t'
                else if (e =? 118)%N then cons 11%N <$> unicode_escape_go f t'
                else if (e =? 97)%N then cons 7%N <$> unicode_escape_go f t'
                else if is_octal e then
                  let '(v, t'') := read_octal e t' in cons v <$> unicode_escape_go f t''
                else if (e =? 120)%N || (e =? 117)%N || (e =? 85)%N then
                  let count := if (e =? 120)%N then 2 else if (e =? 117)%N then 4 else 8 in
                  match read_hex count 0 t' with
                  | Some (v, t'') =>
                      if (v <? 1114112)%N then cons v <$> unicode_escape_go f t''
                      else Raise UnicodeDecodeError
                  | None => Raise UnicodeDecodeError
                  end
                else if (e =? 78)%N then
                  match t' with
                  | b :: t2 =>
                      if (b =? 123)%N then
                        match span_until 125 t2 with
                        | (name, _ :: t3) =>
                            match name with
                            | [] => Raise UnicodeDecodeError
                            | _ => match ucd_lookup_name name with
                                   | Some ch => cons ch <$> unicode_escape_go f t3
                                   | None => Raise UnicodeDecodeError
                                   end
                            end
                        | (_, []) => Raise UnicodeDecodeError
                        end
                      else Raise UnicodeDecodeError
                  | [] => Raise UnicodeDecodeError
                  end
                else (λ r, BACKSLASH :: e :: r) <$> unicode_escape_go f t'
            end
      end
  end.

Definition unicode_escape_decode (s : str) : result str :=
  match utf8_encode s with
  | Some bytes => unicode_escape_go (length bytes) bytes
  | None => Raise UnicodeEncodeError
  end.

Definition extract_summary_text (text_content : str) : result (option str) :=
  let email := extract_email text_content in
  let phone := extract_phone text_content in
  let links := map (λ i, group i 0) (re.finditer LINK_PATTERN text_content) in
  let text_content :=
    foldl (λ text link, str_replace link (py "<link masked>") text) text_content links in
  let text_content := mask_contacts email phone text_content in
  let match_ := re.search SUMMARY_PATTERN (str_strip text_content) in
  let summary := match match_ with Some m => Some (str_strip (group m 2)) | None => None end in
  match summary with
  | Some s =>
      if truthy s then
        summary ← unicode_escape_decode s;
        if truthy summary then
          Return (Some (str_replace (BACKSLASH :: QUOTE :: [QUOTE]) []
                          (str_replace (QUOTE :: BACKSLASH :: [QUOTE]) [] summary)))
        else Return None
      else Return None
  | None => Return None
  end.

(** *** [float] on the digits the duration pattern captures *)

Fixpoint split_at_dot (s : str) : str * str :=
  match s with
  | [] => ([], [])
  | c :: t => if (c =? 46)%N then ([], t)
              else let '(a, b) := split_at_dot t in (c :: a, b)
  end.

Definition digits_value (ds : str) : N :=
  foldl (λ acc c, 10 * acc + digit_value c)%N 0%N ds.

(** [float(s)] for [s] made of decimal digits with at most one point among
    them, named by the rational the digits denote: [float] returns the
    double nearest to it. *)
Definition float_of (s : str) : Q :=
  let '(ip, fp) := split_at_dot s in
  Qmake (Z.of_N (digits_value (ip ++ fp))) (Z.to_pos (10 ^ Z.of_nat (length fp))).

Definition extract_experience_duration (text : str) : number * str :=
  match re.search EXPERIENCE_DURATION_PATTERN text with
  | Some m =>
      let numeric_value := Float (float_of (group m 1)) in
      let duration_string := str_replace [NL] [SPACE] (group m 0) in
      (numeric_value, duration_string)
  | None => (Int 0, py "0")
  end.

Definition extract_experience_text (text_content : str) : option str :=
  let email := extract_email text_content in
  let phone := extract_phone text_content in
  let text_content := mask_contacts email phone text_content in
  match re.search EXPERIENCE_TEXT_PATTERN text_content with
  | Some m => Some (str_strip (group m 2))
  | None => None
  end.

End MainConfig.

(** ** The matchers and record assembly of [main.py] *)

(** Library functions the program calls and this development leaves open:
    the serialisers and parser of [json] and the [md5] digest. *)
Class python_lib := {
  json_dumps_sorted : pyobj → str;    (* [json.dumps(x, sort_keys=True)] *)
  json_dump_indent : pyobj → str;     (* [json.dump(x, f, indent=2)] *)
  json_dump_record : pyobj → str;     (* [json.dump(x, f, indent=2, sort_keys=True)] *)
  json_loads : str → option pyobj;    (* [json.load]; [None]: JSONDecodeError *)
  md5_hexdigest : str → str
}.

Section Main.
Context `{UD : unicode_db} `{PL : python_lib}.

(** [re.search(r"\b{}\b".format(re.escape(title)), text_content, re.IGNORECASE)]
    as a condition. *)
Definition title_occurs (text_content title : str) : bool :=
  match re.search (title_pattern title) text_content with
  | Some _ => true
  | None => false
  end.

(** The comprehension of [check_and_collect_skills], item by item. *)
Fixpoint collect_titles (key : str) (text_content : str) (items : list pyobj)
  : result (list str) :=
  match items with
  | [] => Return []
  | item :: items' =>
      v ← itemgetter key item;
      title ← as_str v;
      found ← collect_titles key text_content items';
      Return (if title_occurs text_content title then title :: found else found)
  end.

Definition check_and_collect_skills (text_content : str) (json_data : option (list pyobj))
  : result (option (list str)) :=
  match json_data with
  | Some (item :: items) => Some <$> collect_titles (py "title") text_content (item :: items)
  | Some [] | None => Return None
  end.

(** The sort key of a designation: the least start offset of its matches. *)
Definition first_offset (text_content designation : str) : offset :=
  min_default (map re.m_start (re.finditer (title_pattern designation) text_content)).

Fixpoint get_all (key : str) (items : list pyobj) : result (list pyobj) :=
  match items with
  | [] => Return []
  | item :: items' =>
      v ← itemgetter key item;
      vs ← get_all key items';
      Return (v :: vs)
  end.

Fixpoint keep_matching (text_content : str) (all_designations : list pyobj)
  : result (list str) :=
  match all_designations with
  | [] => Return []
  | d :: ds =>
      designation ← as_str d;
      found ← keep_matching text_content ds;
      Return (if title_occurs text_content designation then designation :: found else found)
  end.

Definition check_and_collect_designation_ids (text_content : str)
    (json_data : option (list pyobj)) : result (list str * str) :=
  match json_data with
  | None => Raise TypeError
  | Some items =>
      all_designations ← get_all (py "designation") items;
      matching_designations ← keep_matching text_content all_designations;
      let sorted_designations :=
        sorted (λ a b, offset_le (first_offset text_content a) (first_offset text_content b))
               matching_designations in
      let result_title := match sorted_designations with d :: _ => d | [] => [] end in
      Return (sorted_designations, result_title)
  end.

Definition item_hash (item : pyobj) : str := md5_hexdigest (json_dumps_sorted item).

(** The loop of [remove_duplicates] over the rest of [data], with the two
    variables it updates. *)
Fixpoint remove_duplicates_loop (data : list pyobj) (unique_items : gset str)
    (result_ : list pyobj) : list pyobj :=
  match data with
  | [] => result_
  | item :: data' =>
      if decide (item_hash item ∈ unique_items)
      then remove_duplicates_loop data' unique_items result_
      else remove_duplicates_loop data' ({[item_hash item]} ∪ unique_items) (result_ ++ [item])
  end.

Definition remove_duplicates (data : list pyobj) : list pyobj :=
  remove_duplicates_loop data ∅ [].

(** One round of the loop of [extract_name] over the designations. *)
Definition strip_designation (email : option str) (cleaned_text item_ : str) : str :=
  let cleaned_text := str_strip (str_replace [EN_DASH] [] (str_replace item_ [] cleaned_text)) in
  let cleaned_text :=
    if truthy (default [] email)
    then str_strip (str_replace (py ":") [] (str_replace (default [] email) [] cleaned_text))
    else cleaned_text in
  str_join [NL] (map str_strip (str_split NL cleaned_text)).

Definition extract_name (text_content : str) (json_data : option (list pyobj))
  : result (str * str) :=
  '(designations, _) ← check_and_collect_designation_ids text_content json_data;
  let email := extract_email text_content in
  let cleaned_text := foldl (strip_designation email) text_content designations in
  let cleaned_text := re.sub LINKEDIN_PATTERN [] cleaned_text in
  let cleaned_text := re.sub VERCEL_PATTERN [] cleaned_text in
  let cleaned_text := str_replace (py "Resume") [] (str_replace (py "|") (py " ") cleaned_text) in
  let phone := extract_phone cleaned_text in
  let cleaned_text :=
    if truthy (default [] phone)
    then str_strip (str_replace [PLUS] [] (str_replace (default [] phone) [] cleaned_text))
    else cleaned_text in
  match re.search NAME_PATTERN cleaned_text with
  | Some m =>
      let g1 := str_strip (group m 1) in
      let g2 := str_strip (group m 2) in
      if truthy (group m 1) && truthy (group m 2)
         && (2 <? length g1) && (length g1 <? 50) && (2 <? length g2)
      then Return (g1, if bool_decide (NL ∈ group m 2) then [] else g2)
      else if truthy (group m 1) && (length g2 <=? 2)
      then Return (g1 ++ (if truthy (group m 2) && (length g2 <=? 2) then g2 else []), [])
      else Return ([], [])
  | None => Return ([], [])
  end.

Definition remove_unrecognized_characters (text : option str) : option str :=
  match text with
  | Some s =>
      if truthy s
      then Some (str_strip (str_replace [NL] [SPACE] (re.sub NON_ASCII_RUN [SPACE] s)))
      else None
  | None => None
  end.

(** [sorted(list(set(skills)))]: the set of the titles, listed in some order
    and sorted; [set(None)] raises. *)
Definition sorted_set (skills : option (list str)) : result (list str) :=
  match skills with
  | Some l => Return (sorted str_le (elements (list_to_set l : gset str)))
  | None => Raise TypeError
  end.

(** [amount_of_experience or 0] *)
Definition or_zero (n : number) : number := if number_truthy n then n else Int 0.

(** The body of [check_titles_and_extract_info] on the content of the text
    file: the dictionary handed to [json.dump]. *)
Definition check_titles_and_extract_info (file_content : str)
    (json_skills json_designations : option (list pyobj)) : result pyobj :=
  '(firstName, lastName) ← extract_name file_content json_designations;
  let name := str_replace [NL] [SPACE] (str_strip (firstName ++ [SPACE] ++ lastName)) in
  let email := extract_email file_content in
  let phone := extract_phone file_content in
  summary ← extract_summary_text file_content;
  let '(amount_of_experience, duration_string) := extract_experience_duration file_content in
  skills ← check_and_collect_skills file_content json_skills;
  '(designations, designation_title) ←
     check_and_collect_designation_ids file_content json_designations;
  let work_experience := extract_experience_text file_content in
  skills_field ← sorted_set skills;
  Return (PyDict
    [ (py "name", PyStr (or_str (Some (str_title name)) []));
      (py "email", PyStr (or_str email []));
      (py "phone", PyStr (or_str phone []));
      (py "skills", PyList (map PyStr skills_field));
      (py "designation", PyList (map PyStr designations));
      (py "experience", PyList [ PyDict
         [ (py "title", PyStr (or_str (Some designation_title) []));
           (py "amount_of_experience", PyNum (or_zero amount_of_experience));
           (py "duration_string",
              PyStr (or_str (remove_unrecognized_characters (Some duration_string)) []));
           (py "summary", PyStr (or_str (remove_unrecognized_characters summary) [])) ] ]);
      (py "work_experience",
         PyStr (or_str (remove_unrecognized_characters work_experience) [])) ]).

(** *** Reference-list synchronisation *)

(** What [client.get(url)] gives: a response, or [httpx.RequestError]. *)
Inductive http_reply :=
| Response (status_code : nat) (content : str)
| RequestError.

(** The files on disk and the number of requests sent so far. *)
Record world := World { files : gmap str str; requests : nat }.

(** The network: the reply to the [n]-th request, by URL. *)
Variable net : nat → str → http_reply.

Definition URL_TO_FETCH_SKILL : str := py "https://api.npoint.io/81a5d37fea0d63fea458".
Definition URL_TO_FETCH_DESIGNATION : str := py "https://api.npoint.io/5bb9a9836361d1fc9396".

(** [json.load] of a file's content followed by [remove_duplicates]. *)
Definition load_and_deduplicate (content : str) : result (option (list pyobj)) :=
  match json_loads content with
  | Some data => items ← iterate data; Return (Some (remove_duplicates items))
  | None => Raise JSONDecodeError
  end.

Definition save_url_as_json_async (url output_file : str) (w : world)
  : result (option (list pyobj)) * world :=
  let w1 := World (files w) (S (requests w)) in
  match net (requests w) url with
  | RequestError => (Return None, w1)
  | Response status_code content =>
      if negb (status_code =? 200) then
        match files w !! output_file with
        | Some local => (load_and_deduplicate local, w1)
        | None => (Return None, w1)
        end
      else
        let w2 := World (<[output_file := content]> (files w)) (S (requests w)) in
        let downloaded_hash := Some (md5_hexdigest content) in
        let local_hash := md5_hexdigest <$> (files w2 !! output_file) in
        if decide (downloaded_hash = local_hash) then
          (load_and_deduplicate (default [] (files w2 !! output_file)), w2)
        else
          match json_loads content with
          | Some data =>
              let w3 := World (<[output_file := json_dump_indent data]> (files w2))
                              (requests w2) in
              (items ← iterate data; Return (Some (remove_duplicates items)), w3)
          | None => (Raise JSONDecodeError, w2)
          end
  end.

(** How a run that polls ends: with a result, or still polling when the
    attempts allowed to the model are used up. *)
Inductive outcome (A : Type) :=
| Done (r : result A) (w : world)
| Polling.
#[global] Arguments Done {A} r w.
#[global] Arguments Polling {A}.

(** The loop of [extract_text] that asks for the designations until the
    answer is not [None]. *)
Fixpoint acquire_designations (attempts : nat) (w : world) : outcome (list pyobj) :=
  match attempts with
  | O => Polling
  | S n =>
      match save_url_as_json_async URL_TO_FETCH_DESIGNATION (py "designations-collection.json") w with
      | (Return (Some data), w') => Done (Return data) w'
      | (Return None, w') => acquire_designations n w'
      | (Raise e, w') => Done (Raise e) w'
      end
  end.

(** The lines [extract_text] writes to the text file. *)
Definition written_line (line : str) : option str :=
  remove_unrecognized_characters (Some (str_replace [61607%N] [] line)).

Definition written_text (text : list str) : str :=
  flat_map (λ line, match written_line line with Some l => l ++ [NL] | None => [] end) text.

(** [text_file.read()] of a file opened in text mode: the three kinds of
    line end are read as a newline. *)
Definition read_text (content : str) : str :=
  str_replace [13%N] [NL] (str_replace [13%N; NL] [NL] content).

Definition text_path (file_name : str) : str :=
  py "resume-data/" ++ file_name ++ py "/" ++ file_name ++ py ".txt".

Definition record_path (text_file_path : str) : str :=
  text_file_path ++ py "_extracted_info.json".

Fixpoint get_all_default (key : str) (dflt : pyobj) (items : list pyobj) : result (list pyobj) :=
  match items with
  | [] => Return []
  | item :: items' =>
      v ← dict_get_default key dflt item;
      vs ← get_all_default key dflt items';
      Return (v :: vs)
  end.

(** [extract_text]: the text file is written, the two lists are fetched,
    the second until the answer is not [None] ([attempts] bounds the rounds
    of the model, not of the program), and the record is assembled when
    neither list of titles is empty.  The record file is opened before the
    dictionary is built; of the exceptions of
    [check_titles_and_extract_info] only the one of [set(None)] comes after
    that, and it needs an empty skill list, which the condition excludes. *)
Definition extract_text (attempts : nat) (file_name : str) (text : list str) (w : world)
  : outcome str :=
  let pdf_name := text_path file_name in
  let w := World (<[pdf_name := written_text text]> (files w)) (requests w) in
  let '(acquired_skill_data, w) :=
    save_url_as_json_async URL_TO_FETCH_SKILL (py "skills-collection.json") w in
  match acquired_skill_data with
  | Raise e => Done (Raise e) w
  | Return acquired_skill_data =>
      match (match acquired_skill_data with
             | Some (item :: items) => get_all (py "title") (item :: items)
             | _ => Return []
             end) with
      | Raise e => Done (Raise e) w
      | Return skill_titles =>
          match acquire_designations attempts w with
          | Polling => Polling
          | Done (Raise e) w => Done (Raise e) w
          | Done (Return acquired_designation_data) w =>
              match get_all_default (py "designation") (PyStr []) acquired_designation_data with
              | Raise e => Done (Raise e) w
              | Return designation_titles =>
                  match skill_titles, designation_titles with
                  | _ :: _, _ :: _ =>
                      match check_titles_and_extract_info
                              (read_text (default [] (files w !! pdf_name)))
                              acquired_skill_data (Some acquired_designation_data) with
                      | Return record =>
                          Done (Return pdf_name)
                               (World (<[record_path pdf_name := json_dump_record record]> (files w))
                                      (requests w))
                      | Raise e => Done (Raise e) w
                      end
                  | _, _ => Done (Return pdf_name) w
                  end
              end
          end
      end
  end.

End Main.

(** *** The name of an uploaded file, in [extract_data] *)

(** [s.lstrip(chars)] and [s.strip(chars)]: the characters of [chars] are
    removed from the ends, whatever their order. *)
Fixpoint str_lstrip_chars (chars s : str) : str :=
  match s with
  | c :: t => if bool_decide (c ∈ chars) then str_lstrip_chars chars t else s
  | [] => []
  end.

Definition str_strip_chars (chars s : str) : str :=
  rev (str_lstrip_chars chars (rev (str_lstrip_chars chars s))).

(** [file.filename.strip(".pdf") if file.filename else "no_file"]: the name
    of the directory and of the text file of an upload. *)
Definition upload_file_name (filename : option str) : str :=
  match filename with
  | Some f => if truthy f then str_strip_chars (py ".pdf") f else py "no_file"
  | None => py "no_file"
  end.

(** ** Lines of a PDF, [pdf_utils.py] *)

(** r"\s+" *)
Definition WHITESPACE_RUN `{UD : unicode_db} : re.pattern := re.Pattern (re.plus space) false.

Section PdfUtils.
Context `{UD : unicode_db}.

(** The list comprehension of [extract_text_line_by_line]:
    [[re.sub(r"\s+", " ", line).strip() for line in lines if line.strip()]]. *)
Definition normalised_lines (text : str) : list str :=
  map (λ line, str_strip (re.sub WHITESPACE_RUN [SPACE] line))
      (filter (λ line, truthy (str_strip line) = true) (str_split NL text)).

(** [extract_text_line_by_line], given what the two converters return for
    the file, [pdfminer]'s [extract_text] and [extract_with_unstructured]:
    the second is asked only when the first finds nothing but white space,
    and any exception gives [None]. *)
Definition extract_text_line_by_line (pdfminer unstructured : result str) : option (list str) :=
  match pdfminer with
  | Return text =>
      if truthy (str_strip text) then Some (normalised_lines text)
      else match unstructured with
           | Return text' => Some (normalised_lines text')
           | Raise _ => None
           end
  | Raise _ => None
  end.

End PdfUtils.

(** ** What a pattern matches

    The relation the matcher searches: [matches ic r cu gs cu' gs'] when [r]
    can take the cursor from [cu] to [cu'] and the groups from [gs] to
    [gs'].  It has no order of preference; [run] returns the first such way
    whose continuation succeeds. *)
Abbreviation transition := (re.cursor → re.groups → re.cursor → re.groups → Prop).

Section Semantics.
Context `{UD : unicode_db}.
Import re.

(** [n] rounds of [R], each consuming at least one character. *)
Fixpoint rounds (R : transition) (n : nat) : transition :=
  λ cu gs cu' gs',
  match n with
  | O => cu' = cu ∧ gs' = gs
  | S n' => ∃ cu1 gs1, R cu gs cu1 gs1 ∧ pos cu < pos cu1 ∧ rounds R n' cu1 gs1 cu' gs'
  end.

Definition consume (p : char → bool) : transition :=
  λ cu gs cu' gs',
  ∃ ch t, rest cu = ch :: t ∧ p ch = true ∧ cu' = Cursor (S (pos cu)) (Some ch) t ∧ gs' = gs.

Definition check (b : cursor → bool) : transition :=
  λ cu gs cu' gs', b cu = true ∧ cu' = cu ∧ gs' = gs.

Definition within (n : nat) (hi : option nat) : Prop :=
  match hi with Some h => n ≤ h | None => True end.

Fixpoint matches (ic : bool) (r : regex) : transition :=
  match r with
  | EMPTY => λ cu gs cu' gs', cu' = cu ∧ gs' = gs
  | LITERAL c => consume (literal_match ic c)
  | ANY => consume (λ ch, negb (ch =? NL)%N)
  | CATEGORY c => consume (in_category c)
  | IN negate items => consume (in_set negate items)
  | AT_BEGINNING => check at_beginning
  | AT_END => check at_end
  | AT_BOUNDARY => check at_boundary
  | SEQ r1 r2 => λ cu gs cu' gs',
      ∃ cu1 gs1, matches ic r1 cu gs cu1 gs1 ∧ matches ic r2 cu1 gs1 cu' gs'
  | BRANCH r1 r2 => λ cu gs cu' gs',
      matches ic r1 cu gs cu' gs' ∨ matches ic r2 cu gs cu' gs'
  | REPEAT _ lo hi r' => λ cu gs cu' gs',
      ∃ n, lo ≤ n ∧ within n hi ∧ rounds (matches ic r') n cu gs cu' gs'
  | SUBPATTERN n r' => λ cu gs cu' gs',
      ∃ gs1, matches ic r' cu gs cu' gs1 ∧ gs' = <[n := (pos cu, pos cu')]> gs1
  | ASSERT r' => λ cu gs cu' gs',
      (∃ cu1 gs1, matches ic r' cu gs cu1 gs1) ∧ cu' = cu ∧ gs' = gs
  end.

(** The cursor at offset [i] of [subject]. *)
Definition cursor_at (subject : str) (i : nat) : cursor :=
  Cursor i (last (take i subject)) (drop i subject).

(** The pattern has a match from offset [i] to offset [j] of the subject,
    setting the groups [gs]. *)
Definition matches_span (p : pattern) (subject : str) (i j : nat) (gs : groups) : Prop :=
  matches (p_ignorecase p) (p_regex p) (cursor_at subject i) ∅ (cursor_at subject j) gs.

End Semantics.

(** * Vocabulary of the statements *)

(** The definitions below are not code of the program: they are the notions
    in which its properties are stated, and the small inputs of the closed
    examples. *)

(** ** The repetition loop, one step at a time *)
Section LoopSteps.
Import re.
Variables (body : cursor → groups → cont → option matched) (R : transition).
Variables (greedy : bool) (lo : nat) (hi : option nat) (k : cont).

(** One more round of the body, then the loop again, if the bound allows. *)
Definition more_rounds (f cnt : nat) (cu : cursor) (gs : groups) : option matched :=
  if below cnt hi then
    body cu gs (λ cu' gs',
      if decide (pos cu < pos cu')
      then repeat_loop body greedy lo hi k f (S cnt) cu' gs' else None)
  else None.

(** Leave the loop, if there have been enough rounds. *)
Definition stop_here (cnt : nat) (cu : cursor) (gs : groups) : option matched :=
  if decide (lo ≤ cnt) then k cu gs else None.

(** Some number of further rounds, within the bounds, after which the
    continuation succeeds with [m]. *)
Definition reaches (cnt : nat) (cu : cursor) (gs : groups) (m : matched) : Prop :=
  ∃ n cu' gs', rounds R n cu gs cu' gs' ∧ lo ≤ cnt + n ∧ (0 < n → within (cnt + n) hi)
               ∧ k cu' gs' = Some m.

End LoopSteps.

Section Vocabulary.
Context `{UD : unicode_db} `{PL : python_lib}.
Import re.

(** ** Matching *)

(** Every way to match moves the cursor along the subject. *)
Definition advances (R : transition) : Prop :=
  ∀ cu gs cu' gs', R cu gs cu' gs' →
    ∃ w, rest cu = w ++ rest cu' ∧ pos cu' = pos cu + length w
         ∧ prev cu' = last (option_list (prev cu) ++ w).

(** The continuation at the end of a pattern. *)
Definition accept : cont := λ cu gs, Some (pos cu, gs).

(** The cursor after reading [w], with [r] left. *)
Definition after (cu : cursor) (w r : str) : cursor :=
  Cursor (pos cu + length w) (last (option_list (prev cu) ++ w)) r.

(** Does every match of [r] set group [n]?  A sufficient syntactic test. *)
Fixpoint sets_group (n : nat) (r : re.regex) : bool :=
  match r with
  | re.SUBPATTERN n' r' => (n =? n') || sets_group n r'
  | re.SEQ r1 r2 => sets_group n r1 || sets_group n r2
  | re.BRANCH r1 r2 => sets_group n r1 && sets_group n r2
  | re.REPEAT _ lo _ r' => (0 <? lo) && sets_group n r'
  | _ => false
  end.

(** ** Phone numbers *)

(** A phone span: an optional plus sign, up to three digits, an optional
    hyphen or white-space character, ten digits. *)
Definition phone_span (sign code sep ten : str) : Prop :=
  (sign = [] ∨ sign = [PLUS])
  ∧ length code ≤ 3 ∧ Forall (λ c, is_digit c = true) code
  ∧ (sep = [] ∨ ∃ c, sep = [c] ∧ (c = HYPHEN ∨ is_space c = true))
  ∧ length ten = 10 ∧ Forall (λ c, is_digit c = true) ten.

(** A phone span starts at offset [i] of the text. *)
Definition phone_at (text : str) (i : nat) : Prop :=
  ∃ sign code sep ten rst,
    phone_span sign code sep ten ∧ drop i text = sign ++ code ++ sep ++ ten ++ rst.

(** The three replacements [extract_phone] makes in group 1. *)
Definition strip_phone (s : str) : str :=
  str_replace [NL] [] (str_replace [SPACE] [] (str_replace [HYPHEN] [] s)).

(** ** Reference lists *)

(** The title an entry carries under [key], when it is a dictionary with a
    string there. *)
Definition title_of (key : str) (item : pyobj) : option str :=
  match item with
  | PyDict kv => match dict_get key kv with Some (PyStr s) => Some s | _ => None end
  | _ => None
  end.

(** A reference list as the data model has it: every entry carries a title. *)
Definition well_formed (key : str) (items : list pyobj) : Prop :=
  Forall (λ item, is_Some (title_of key item)) items.

(** The titles of the entries that carry one, in the order of the list. *)
Definition titles (key : str) (items : list pyobj) : list str :=
  omap (title_of key) items.

(** The entry [{key: title}]. *)
Definition entry (key title : string) : pyobj := PyDict [(py key, PyStr (py title))].

(** The designations kept by the matcher, before they are sorted. *)
Definition matching_designations (text : str) (items : list pyobj) : list str :=
  filter (λ t, title_occurs text t = true) (titles (py "designation") items).

(** ** Whole-word occurrences *)

(** [\b] at offset [i] of the text: of the characters before and after it,
    exactly one is a word character. *)
Definition word_boundary (text : str) (i : nat) : bool :=
  xorb (word_at (last (take i text))) (word_at (head (drop i text))).

(** A case-insensitive whole-word occurrence of [title] at offset [i]: the
    characters of the text from [i] on equal those of the title up to case,
    and there is a word boundary on either side. *)
Definition whole_word_at (text title : str) (i : nat) : Prop :=
  i + length title ≤ length text
  ∧ Forall2 (λ c ch, same_caseless c ch = true) title (substr text i (i + length title))
  ∧ word_boundary text i = true
  ∧ word_boundary text (i + length title) = true.

(** The least offset at which the title occurs as a whole word. *)
Definition earliest_occurrence (text title : str) (i : nat) : Prop :=
  whole_word_at text title i ∧ ∀ i', i' < i → ¬ whole_word_at text title i'.

#[global] Instance offset_eq_dec : EqDecision offset.
Proof. solve_decision. Defined.

(** The order of [check_and_collect_designation_ids]: by first offset, an
    absent title last. *)
Definition by_first_offset (text : str) (a b : str) : bool :=
  offset_le (first_offset text a) (first_offset text b).

(** ** Skills *)

(** Strictly before, in the order of [sorted] on strings. *)
Definition str_lt (a b : str) : Prop := str_le a b = true ∧ a ≠ b.

(** What [check_titles_and_extract_info] stores under "skills". *)
Definition stored_skills (text : str) (json_skills : option (list pyobj)) : result (list str) :=
  skills ← check_and_collect_skills text json_skills; sorted_set skills.

(** ** Experience durations *)

(** A non-empty run of decimal digits. *)
Definition digits (w : str) : Prop := w ≠ [] ∧ Forall (λ c, is_digit c = true) w.

(** The numbers of the duration pattern: digits, and possibly a point and
    digits after them. *)
Definition decimal_number (num : str) : Prop :=
  ∃ ip frac, digits ip ∧ num = ip ++ frac
             ∧ (frac = [] ∨ ∃ fp, digits fp ∧ frac = 46%N :: fp).

(** The unit words of the duration pattern: only the first letter may be a
    capital. *)
Definition unit_words : list str :=
  [py "years"; py "Years"; py "year"; py "Year";
   py "months"; py "Months"; py "month"; py "Month"].

(** A duration phrase with number [num]: the number, white space, possibly
    a plus sign, white space, a unit word. *)
Definition duration_phrase (num w : str) : Prop :=
  ∃ ws1 sign ws2 unit,
    w = num ++ ws1 ++ sign ++ ws2 ++ unit
    ∧ decimal_number num
    ∧ Forall (λ c, is_space c = true) ws1
    ∧ (sign = [] ∨ sign = [PLUS])
    ∧ Forall (λ c, is_space c = true) ws2
    ∧ unit ∈ unit_words.

(** The two parts of [EXPERIENCE_DURATION_PATTERN] that carry words. *)
Definition UNIT : regex :=
  alt [seq [IN false [ichr "y"; ichr "Y"]; lits "ears"];
       seq [IN false [ichr "y"; ichr "Y"]; lits "ear"];
       seq [IN false [ichr "m"; ichr "M"]; lits "onth"; opt (chr "s")]].

Definition NUMBER : regex := seq [plus digit; opt (seq [chr "."; plus digit])].

(** The letters a unit word can start with. *)
Definition unit_initial (c : char) : Prop := c ∈ [121; 89; 109; 77]%N.

(** A duration phrase starts at offset [i] of the text. *)
Definition duration_at (text : str) (i : nat) : Prop :=
  ∃ num w rst, duration_phrase num w ∧ drop i text = w ++ rst.

(** ** Long fields *)

(** In the words of the specification: every maximal run of non-ASCII
    characters becomes one space.  [in_run] tells that the character before
    was part of a run. *)
Fixpoint collapse (in_run : bool) (s : str) : str :=
  match s with
  | [] => []
  | c :: t =>
      if is_ascii c then c :: collapse false t
      else if in_run then collapse true t
      else SPACE :: collapse true t
  end.

(** The same from the start of a string. *)
Definition collapse_non_ascii (s : str) : str := collapse false s.

(** The length of the longest prefix whose characters pass [p]. *)
Fixpoint span_length (p : char → bool) (s : str) : nat :=
  match s with
  | c :: t => if p c then S (span_length p t) else 0
  | [] => 0
  end.

(** The class of [NON_ASCII_RUN] as a test. *)
Definition non_ascii (c : char) : bool := negb (is_ascii c).

(** The first run of non-ASCII characters of [s], whose first character has
    offset [i]: where it starts and where it ends. *)
Fixpoint first_run (i : nat) (s : str) : option (nat * nat) :=
  match s with
  | [] => None
  | c :: t => if is_ascii c then first_run (S i) t
              else Some (i, S i + span_length non_ascii t)
  end.

(** A string without non-ASCII characters and without newlines. *)
Definition clean (s : str) : Prop := Forall (λ c, is_ascii c = true ∧ c ≠ NL) s.

(** A character the [unicode-escape] codec passes through: a code point
    that has a UTF-8 encoding and is not the backslash. *)
Definition plain_char (c : char) : Prop :=
  c ≠ BACKSLASH ∧ (c < 1114112)%N ∧ ¬ (55296 ≤ c ≤ 57343)%N.

(** ** The record *)

(** The shape of an assembled record: the seven keys in the order of the
    source, strings under name, email, phone and work_experience, lists of
    strings under skills and designation, and under experience a list of one
    entry with a title, a number that is not negative, and two strings. *)
Definition record_shape (record : pyobj) : Prop :=
  ∃ name email phone skills designation title amount duration summary work,
    record = PyDict
      [ (py "name", PyStr name); (py "email", PyStr email); (py "phone", PyStr phone);
        (py "skills", PyList (PyStr <$> skills));
        (py "designation", PyList (PyStr <$> designation));
        (py "experience", PyList [ PyDict
           [ (py "title", PyStr title); (py "amount_of_experience", PyNum amount);
             (py "duration_string", PyStr duration); (py "summary", PyStr summary) ] ]);
        (py "work_experience", PyStr work) ]
    ∧ number_nonneg amount.

(** ** Entries of a reference list *)

(** The exception an entry without a usable title raises: [KeyError] when a
    dictionary lacks the key, [TypeError] when the entry is no dictionary or
    the title is no string. *)
Definition entry_error (key : str) (item : pyobj) : exn :=
  match item with
  | PyDict kv => match dict_get key kv with None => KeyError | Some _ => TypeError end
  | _ => TypeError
  end.

(** What an entry holds under [key], when it is a dictionary that has the
    key. *)
Definition value_of (key : str) (item : pyobj) : option pyobj :=
  match item with PyDict kv => dict_get key kv | _ => None end.

(** ** Addresses *)

(** The three character classes of [EMAIL_PATTERN]. *)
Definition local_char (c : char) : bool :=
  in_set false [range "A" "Z"; range "a" "z"; range "0" "9"; ichr ".";
                ichr "_"; ichr "%"; ichr "+"; ichr "-"] c.
Definition domain_char (c : char) : bool :=
  in_set false [range "A" "Z"; range "a" "z"; range "0" "9"; ichr "."; ichr "-"] c.
Definition tld_char (c : char) : bool :=
  in_set false [range "A" "Z"; ichr "|"; range "a" "z"] c.

(** An address as the pattern has it: local part, at sign, domain, point
    and at least two characters of the last class. *)
Definition email_address (e : str) : Prop :=
  ∃ loc dom tld,
    e = loc ++ [64%N] ++ dom ++ [46%N] ++ tld
    ∧ loc ≠ [] ∧ Forall (λ c, local_char c = true) loc
    ∧ dom ≠ [] ∧ Forall (λ c, domain_char c = true) dom
    ∧ 2 ≤ length tld ∧ Forall (λ c, tld_char c = true) tld.

(** An address stands at offset [i] of the text, between two word
    boundaries. *)
Definition email_at (text : str) (i : nat) : Prop :=
  ∃ e rst, email_address e ∧ drop i text = e ++ rst
           ∧ word_boundary text i = true ∧ word_boundary text (i + length e) = true.

(** [e] occurs in [s] as a run of consecutive characters. *)
Definition occurs_in (e s : str) : Prop := ∃ a b, s = a ++ e ++ b.

(** A character of an address: printable ASCII, no white space, neither of
    the angle brackets. *)
Definition address_char (c : char) : Prop :=
  is_ascii c = true ∧ is_space c = false ∧ c ≠ 60%N ∧ c ≠ 62%N.

(** A class item that holds such characters only. *)
Definition plain_item (i : item) : bool :=
  match i with
  | IChar a => (32 <? a)%N && (a <? 127)%N && negb (a =? 60)%N && negb (a =? 62)%N
  | IRange lo hi =>
      (32 <? lo)%N && (hi <? 127)%N && negb (in_range lo hi 60) && negb (in_range lo hi 62)
  | _ => false
  end.

(** ** Names *)

(** A pattern without groups. *)
Fixpoint group_free (r : re.regex) : bool :=
  match r with
  | re.SUBPATTERN _ _ => false
  | re.SEQ r1 r2 | re.BRANCH r1 r2 => group_free r1 && group_free r2
  | re.REPEAT _ _ _ r' | re.ASSERT r' => group_free r'
  | _ => true
  end.

(** A name as [NAME_PATTERN] captures it in its second group: words of
    ASCII letters with one space between them. *)
Definition name_words (first : str) (others : list str) : str :=
  first ++ flat_map (λ w, SPACE :: w) others.
Definition letters_only (w : str) : Prop := w ≠ [] ∧ Forall (λ c, is_ascii_letter c = true) w.

(** ** Runs of a character class *)

(** Every maximal run of characters that pass [q] becomes [repl]; [in_run]
    tells that the character before was part of a run. *)
Fixpoint collapse_class (q : char → bool) (repl : str) (in_run : bool) (s : str) : str :=
  match s with
  | [] => []
  | c :: t =>
      if q c then (if in_run then [] else repl) ++ collapse_class q repl true t
      else c :: collapse_class q repl false t
  end.

(** The first run of such characters in [s], whose first character has
    offset [i]. *)
Fixpoint first_class_run (q : char → bool) (i : nat) (s : str) : option (nat * nat) :=
  match s with
  | [] => None
  | c :: t => if q c then Some (i, S i + span_length q t) else first_class_run q (S i) t
  end.

(** ** Lines *)

(** Nothing but white space. *)
Definition blank (s : str) : Prop := Forall (λ c, is_space c = true) s.

#[global] Instance blank_dec s : Decision (blank s).
Proof. unfold blank. apply _. Defined.

(** A word: at least one character, none of them white space. *)
Definition solid (w : str) : Prop := w ≠ [] ∧ Forall (λ c, is_space c = false) w.

(** [out] is [line] without the white space at its two ends and with one
    space in the place of every stretch of white space between two words. *)
Definition squeezed (line out : str) : Prop :=
  ∃ lead first (rest : list (str * str)) trail,
    line = lead ++ first ++ flat_map (λ gw, gw.1 ++ gw.2) rest ++ trail
    ∧ out = first ++ flat_map (λ gw, SPACE :: gw.2) rest
    ∧ blank lead ∧ blank trail ∧ solid first
    ∧ Forall (λ gw, gw.1 ≠ [] ∧ blank gw.1 ∧ solid gw.2) rest.

(** ** Capitals *)

(** A capitalised word: an upper-case ASCII letter and lower-case ASCII
    letters after it. *)
Definition capitalised (w : str) : Prop :=
  ∃ c t, w = c :: t ∧ is_ascii_upper c = true ∧ Forall (λ x, is_ascii_lower x = true) t.

(** A word with its first character in upper case and the others in lower
    case. *)
Definition cap (w : str) : str :=
  match w with c :: t => ascii_upper c :: map ascii_lower t | [] => [] end.

(** ** Sections of a document *)

(** The words a pattern of literal characters and dots reads. *)
Fixpoint reads (r : re.regex) (w : str) : Prop :=
  match r with
  | re.EMPTY => w = []
  | re.LITERAL c => w = [c]
  | re.ANY => ∃ c, w = [c] ∧ c ≠ NL
  | re.SEQ r1 r2 => ∃ w1 w2, w = w1 ++ w2 ∧ reads r1 w1 ∧ reads r2 w2
  | _ => False
  end.

(** Such a pattern, none of whose literals is the newline. *)
Fixpoint wordy (r : re.regex) : bool :=
  match r with
  | re.EMPTY | re.ANY => true
  | re.LITERAL c => negb (c =? NL)%N
  | re.SEQ r1 r2 => wordy r1 && wordy r2
  | _ => false
  end.

Definition wordy_or_end (r : re.regex) : bool :=
  match r with re.AT_END => true | _ => wordy r end.

(** A heading that opens the experience section, and what closes the
    section: a newline and then a closing heading, or the end of the text,
    at most one newline before it. *)
Definition experience_header (h : str) : Prop :=
  ∃ r, r ∈ experience_headers ∧ reads r h.

Definition experience_end (post : str) : Prop :=
  ∃ post', post = NL :: post'
    ∧ (post' = [] ∨ post' = [NL]
       ∨ ∃ r t, r ∈ experience_terminators ∧ reads r t ∧ t `prefix_of` post').

(** [text] holds an experience section: a heading, a newline, the body and
    what closes it. *)
Definition experience_section (text pre header body post : str) : Prop :=
  text = pre ++ header ++ [NL] ++ body ++ post
  ∧ experience_header header ∧ experience_end post.

(** The lookahead of [EXPERIENCE_TEXT_PATTERN]. *)
Definition experience_lookahead : re.regex :=
  re.seq [re.LITERAL NL; re.alt experience_terminators].

(** The text in which [extract_experience_text] looks for the section. *)
Definition masked_text (text : str) : str :=
  mask_contacts (extract_email text) (extract_phone text) text.

(** ** Fetches that fail *)




End Vocabulary.

(** ** Closed examples *)

(** A small library for the closed examples: the parser knows two files, the
    digest is the identity. *)
Definition toy_lib : python_lib := {|
  json_dumps_sorted := λ v, match v with
                            | PyDict [(k, PyStr s)] => k ++ [58%N] ++ s
                            | _ => []
                            end;
  json_dump_indent := λ _, py "{}";
  json_dump_record := λ _, py "{}";
  json_loads := λ s,
    if decide (s = py "[skills]")
    then Some (PyList [entry "title" "React"; entry "title" "React"; entry "title" "Node"])
    else if decide (s = py "[designations]")
    then Some (PyList [entry "designation" "Engineer"])
    else None;
  md5_hexdigest := λ s, s
|}.

(** A network on which every request fails. *)
Definition net_down : nat → str → http_reply := λ _ _, RequestError.

(** A network that answers every request with status 500. *)
Definition net_500 : nat → str → http_reply := λ _ _, Response 500 [].


(** A file system that holds a cache file for the skills. *)
Definition cached_skills : world :=
  World {[ py "skills-collection.json" := py "[skills]" ]} 0.

(** A network that serves the skills once and answers 500 from then on. *)
Definition net_once : nat → str → http_reply := λ n _,
  if n =? 0 then Response 200 (py "[skills]") else Response 500 [].

(** A network that serves both lists. *)
Definition net_up : nat → str → http_reply := λ _ url,
  if decide (url = URL_TO_FETCH_DESIGNATION) then Response 200 (py "[designations]")
  else Response 200 (py "[skills]").

(** The elements of a short document, and the disk after each of the two
    fetches of [extract_text] for it. *)
Definition cv_lines : list str := [py "john smith"; py "Engineer, 2 years of React"].

Definition cv_skills_fetched : world :=
  (@save_url_as_json_async toy_lib net_up URL_TO_FETCH_SKILL (py "skills-collection.json")
     (World (<[text_path (py "cv") := @written_text ascii_only cv_lines]> ∅) 0)).2.

Definition cv_both_fetched : world :=
  (@save_url_as_json_async toy_lib net_up URL_TO_FETCH_DESIGNATION
     (py "designations-collection.json") cv_skills_fetched).2.

(** A network that is down for the first two requests and serves the
    designations from then on. *)
Definition net_late : nat → str → http_reply := λ n _,
  if n <? 2 then RequestError else Response 200 (py "[designations]").

(** A network that answers the first request with a page that is no JSON,
    and every later one with status 500. *)
Definition net_garbled : nat → str → http_reply := λ n _,
  if n =? 0 then Response 200 (py "<html>") else Response 500 [].


(** * Properties *)

(** ** The matcher finds what the pattern matches *)
Section MatcherFacts.
Context `{UD : unicode_db}.
Import re.

Lemma one_sound p cu gs k m :
  one p cu gs k = Some m → ∃ cu' gs', consume p cu gs cu' gs' ∧ k cu' gs' = Some m.
Proof.
  unfold one, consume. destruct (rest cu) as [|ch t] eqn:E; [done|].
  destruct (p ch) eqn:P; [|done]. intros H. eauto 10.
Qed.

Lemma one_complete p cu gs k :
  one p cu gs k = None → ∀ cu' gs', consume p cu gs cu' gs' → k cu' gs' = None.
Proof.
  unfold one, consume. intros H cu' gs' (ch & t & E & P & -> & ->).
  rewrite E, P in H. done.
Qed.

Lemma test_sound b cu gs k m :
  test (b cu) cu gs k = Some m → ∃ cu' gs', check b cu gs cu' gs' ∧ k cu' gs' = Some m.
Proof. unfold test, check. destruct (b cu) eqn:E; [|done]. eauto 10. Qed.

Lemma test_complete b cu gs k :
  test (b cu) cu gs k = None → ∀ cu' gs', check b cu gs cu' gs' → k cu' gs' = None.
Proof. unfold test, check. intros H cu' gs' (E & -> & ->). by rewrite E in H. Qed.

Lemma below_within cnt hi : below cnt hi = true → within (S cnt) hi.
Proof. destruct hi; simpl; [|done]. intros ?%Nat.ltb_lt. lia. Qed.

Lemma within_below cnt n hi : within (cnt + S n) hi → below cnt hi = true.
Proof. destruct hi; simpl; [|done]. intros. apply Nat.ltb_lt. lia. Qed.

Section Loop.
Variables (body : cursor → groups → cont → option matched) (R : transition).
Variables (greedy : bool) (lo : nat) (hi : option nat) (k : cont).
Local Abbreviation more_rounds := (more_rounds body greedy lo hi k).
Local Abbreviation stop_here := (stop_here lo k).
Local Abbreviation reaches := (reaches R lo hi k).

Lemma repeat_loop_zero cnt cu gs :
  repeat_loop body greedy lo hi k 0 cnt cu gs = stop_here cnt cu gs.
Proof. unfold stop_here. simpl. destruct greedy; [done|]. by destruct (if decide _ then _ else _). Qed.

Lemma repeat_loop_succ f cnt cu gs :
  repeat_loop body greedy lo hi k (S f) cnt cu gs =
  if greedy then
    match more_rounds f cnt cu gs with Some m => Some m | None => stop_here cnt cu gs end
  else
    match stop_here cnt cu gs with Some m => Some m | None => more_rounds f cnt cu gs end.
Proof. reflexivity. Qed.

Lemma stop_here_reaches cnt cu gs m : stop_here cnt cu gs = Some m → reaches cnt cu gs m.
Proof.
  unfold stop_here. case_decide; [|done]. intros Hk.
  exists 0, cu, gs. split_and!; [done|lia|lia|done].
Qed.

Lemma repeat_loop_sound :
  (∀ cu gs k' m, body cu gs k' = Some m → ∃ cu' gs', R cu gs cu' gs' ∧ k' cu' gs' = Some m) →
  ∀ fuel cnt cu gs m,
    repeat_loop body greedy lo hi k fuel cnt cu gs = Some m → reaches cnt cu gs m.
Proof.
  intros Hbody. induction fuel as [|f IH]; intros cnt cu gs m H.
  - rewrite repeat_loop_zero in H. by apply stop_here_reaches.
  - assert (Hmore : ∀ m', more_rounds f cnt cu gs = Some m' → reaches cnt cu gs m').
    { unfold more_rounds. intros m' Hm. destruct (below cnt hi) eqn:Hb; [|done].
      apply Hbody in Hm as (cu1 & gs1 & HR & Hk). case_decide; [|done].
      apply IH in Hk as (n & cu' & gs' & Hn & Hlo & Hhi & Hk).
      exists (S n), cu', gs'. split; [simpl; eauto 10|]. split; [lia|]. split; [|done].
      intros _. destruct n.
      - replace (cnt + 1) with (S cnt) by lia. by apply below_within.
      - replace (cnt + S (S n)) with (S cnt + S n) by lia. apply Hhi. lia. }
    rewrite repeat_loop_succ in H.
    remember (more_rounds f cnt cu gs) as more eqn:Emore. clear Emore.
    destruct greedy.
    + destruct more as [m0|].
      * inversion H; subst. by apply Hmore.
      * by apply stop_here_reaches.
    + destruct (stop_here cnt cu gs) eqn:E.
      * inversion H; subst. by apply stop_here_reaches.
      * by apply Hmore.
Qed.

Lemma repeat_loop_complete :
  (∀ cu gs k', body cu gs k' = None → ∀ cu' gs', R cu gs cu' gs' → k' cu' gs' = None) →
  (∀ cu gs cu' gs', R cu gs cu' gs' → pos cu < pos cu' → length (rest cu') < length (rest cu)) →
  ∀ fuel cnt cu gs,
    repeat_loop body greedy lo hi k fuel cnt cu gs = None →
    length (rest cu) ≤ fuel →
    ∀ n cu' gs', rounds R n cu gs cu' gs' → lo ≤ cnt + n → (0 < n → within (cnt + n) hi) →
                 k cu' gs' = None.
Proof.
  intros Hbody Hadv. induction fuel as [|f IH]; intros cnt cu gs H Hfuel n cu' gs' Hn Hlo Hhi.
  - rewrite repeat_loop_zero in H. destruct n as [|n].
    + destruct Hn as [-> ->]. unfold stop_here in H. case_decide; [done|lia].
    + destruct Hn as (cu1 & gs1 & HR & Hlt & _). apply Hadv in HR; [lia|done].
  - rewrite repeat_loop_succ in H.
    assert (Hboth : stop_here cnt cu gs = None ∧ more_rounds f cnt cu gs = None).
    { remember (more_rounds f cnt cu gs) as more eqn:Emore. clear Emore.
      destruct greedy.
      - destruct more; [done|]. done.
      - destruct (stop_here cnt cu gs); [done|]. done. }
    destruct Hboth as [Hs Hm]. destruct n as [|n].
    + destruct Hn as [-> ->]. unfold stop_here in Hs. case_decide; [done|lia].
    + destruct Hn as (cu1 & gs1 & HR & Hlt & Hn). unfold more_rounds in Hm.
      rewrite (within_below cnt n hi) in Hm by (apply Hhi; lia).
      pose proof (Hbody _ _ _ Hm _ _ HR) as Hk. simpl in Hk.
      case_decide; [|done].
      eapply (IH (S cnt)); [exact Hk| |exact Hn| |].
      * apply Hadv in HR; [lia|done].
      * lia.
      * intros ?. replace (S cnt + n) with (cnt + S n) by lia. apply Hhi. lia.
Qed.

End Loop.

Lemma advances_refl cu : ∃ w, rest cu = w ++ rest cu ∧ pos cu = pos cu + length w
         ∧ prev cu = last (option_list (prev cu) ++ w).
Proof. exists []. rewrite app_nil_r. split_and!; [done|simpl; lia|]. by destruct (prev cu). Qed.

Lemma consume_advances p : advances (consume p).
Proof.
  intros cu gs cu' gs' (ch & t & E & _ & -> & _). exists [ch]. simpl.
  split_and!; [done|lia|]. by rewrite last_snoc.
Qed.

Lemma advances_trans cu cu1 cu' :
  (∃ w, rest cu = w ++ rest cu1 ∧ pos cu1 = pos cu + length w
         ∧ prev cu1 = last (option_list (prev cu) ++ w)) →
  (∃ w, rest cu1 = w ++ rest cu' ∧ pos cu' = pos cu1 + length w
         ∧ prev cu' = last (option_list (prev cu1) ++ w)) →
  ∃ w, rest cu = w ++ rest cu' ∧ pos cu' = pos cu + length w
         ∧ prev cu' = last (option_list (prev cu) ++ w).
Proof.
  intros (w1 & E1 & P1 & L1) (w2 & E2 & P2 & L2). exists (w1 ++ w2).
  rewrite E1, E2, P2, P1, length_app, <- app_assoc. split_and!; [done|lia|].
  rewrite L2, L1, app_assoc. destruct w2 as [|c w2 _] using rev_ind.
  - rewrite !app_nil_r. by destruct (last _).
  - rewrite !app_assoc, !last_snoc. done.
Qed.

Lemma rounds_advances R n : advances R → advances (rounds R n).
Proof.
  intros HR. induction n as [|n IH]; intros cu gs cu' gs' H.
  - destruct H as [-> ->]. apply advances_refl.
  - destruct H as (cu1 & gs1 & H1 & _ & H2).
    eapply advances_trans; [by eapply HR|by eapply IH].
Qed.

Lemma matches_advances ic r : advances (matches ic r).
Proof.
  induction r; simpl; try apply consume_advances;
    try (intros cu gs cu' gs' (_ & -> & _); apply advances_refl).
  - intros cu gs cu' gs' [-> _]. apply advances_refl.
  - intros cu gs cu' gs' (cu1 & gs1 & H1 & H2).
    eapply advances_trans; [by eapply IHr1|by eapply IHr2].
  - intros cu gs cu' gs' [H|H]; [by eapply IHr1|by eapply IHr2].
  - intros cu gs cu' gs' (n & _ & _ & H). by eapply rounds_advances.
  - intros cu gs cu' gs' (gs1 & H & _). by eapply IHr.
Qed.

Lemma matches_shrinks ic r cu gs cu' gs' :
  matches ic r cu gs cu' gs' → pos cu < pos cu' → length (rest cu') < length (rest cu).
Proof.
  intros (w & E & P & _)%matches_advances Hlt. rewrite E, length_app. lia.
Qed.

Theorem run_sound ic r : ∀ cu gs k m,
  run ic r cu gs k = Some m → ∃ cu' gs', matches ic r cu gs cu' gs' ∧ k cu' gs' = Some m.
Proof.
  induction r; intros cu gs k m H; simpl in *;
    try (by apply one_sound); try (by apply (test_sound _ _ _ _ _ H)).
  - by exists cu, gs.
  - apply IHr1 in H as (cu1 & gs1 & H1 & H). apply IHr2 in H as (cu' & gs' & H2 & H).
    eauto 10.
  - destruct (run ic r1 cu gs k) eqn:E.
    + inversion H; subst. apply IHr1 in E as (cu' & gs' & ? & ?). eauto.
    + apply IHr2 in H as (cu' & gs' & ? & ?). eauto.
  - apply (repeat_loop_sound _ (matches ic r)) in H as (n & cu' & gs' & Hn & Hlo & Hhi & Hk);
      [|done].
    exists cu', gs'. split; [|done]. exists n. split; [lia|]. split; [|done].
    destruct n; [destruct hi; simpl; [lia|done]|]. apply Hhi. lia.
  - apply IHr in H as (cu' & gs' & ? & ?). eauto 10.
  - destruct (run ic r cu gs _) eqn:E; [|done].
    apply IHr in E as (cu1 & gs1 & ? & _). exists cu, gs. eauto 10.
Qed.

Theorem run_complete ic r : ∀ cu gs k,
  run ic r cu gs k = None → ∀ cu' gs', matches ic r cu gs cu' gs' → k cu' gs' = None.
Proof.
  induction r; intros cu gs k H cu' gs' M; simpl in *;
    try (by eapply one_complete); try (by eapply (test_complete _ _ _ _ H)).
  - by destruct M as [-> ->].
  - destruct M as (cu1 & gs1 & M1 & M2).
    by apply (IHr2 _ _ _ (IHr1 _ _ _ H _ _ M1)).
  - destruct (run ic r1 cu gs k) eqn:E; [done|]. destruct M as [M|M]; eauto.
  - destruct M as (n & Hlo & Hhi & M).
    eapply (repeat_loop_complete _ (matches ic r)); try exact H; try exact M; eauto.
    apply matches_shrinks.
  - destruct M as (gs1 & M & ->). by apply (IHr _ _ _ H _ _ M).
  - destruct M as ((cu1 & gs1 & M) & -> & ->).
    destruct (run ic r cu gs _) eqn:E; [done|]. by apply (IHr _ _ _ E) in M.
Qed.

End MatcherFacts.

(** ** [re.search] finds the leftmost match *)
Section SearchFacts.
Context `{UD : unicode_db}.
Import re.

Lemma last_take_S (s : str) i c t : drop i s = c :: t → last (take (S i) s) = Some c.
Proof.
  intros E. rewrite <- (take_drop i s) at 1. rewrite E.
  assert (Hi : i ≤ length s).
  { destruct (decide (i ≤ length s)); [done|]. rewrite drop_ge in E by lia. done. }
  rewrite take_app_ge by (rewrite length_take; lia). rewrite length_take.
  replace (S i - i `min` length s) with 1 by lia. change (take 1 (c :: t)) with [c]. by rewrite last_snoc.
Qed.

Lemma drop_S_tail (s : str) i c t : drop i s = c :: t → drop (S i) s = t.
Proof. intros E. replace (S i) with (i + 1) by lia. rewrite <- drop_drop, E. done. Qed.

Lemma last_app_option (l w : str) : last (option_list (last l) ++ w) = last (l ++ w).
Proof.
  destruct w as [|c w _] using rev_ind.
  - rewrite !app_nil_r. by destruct (last l).
  - by rewrite !app_assoc, !last_snoc.
Qed.

(** A cursor reached from offset [i] of the subject is the cursor at the
    offset it stands at. *)
Lemma cursor_at_reached subject i cu' w :
  i ≤ length subject →
  rest (cursor_at subject i) = w ++ rest cu' →
  pos cu' = i + length w →
  prev cu' = last (option_list (prev (cursor_at subject i)) ++ w) →
  cu' = cursor_at subject (i + length w) ∧ i + length w ≤ length subject
  ∧ substr subject i (i + length w) = w.
Proof.
  destruct cu' as [p pv r]. simpl. intros Hi E -> ->.
  assert (Hs : subject = take i subject ++ w ++ r) by (by rewrite <- E, take_drop).
  assert (Hlen : i + length w ≤ length subject).
  { apply (f_equal length) in E. rewrite length_drop, length_app in E. lia. }
  assert (Ht : take (i + length w) subject = take i subject ++ w).
  { rewrite Hs at 1. rewrite take_app_ge by (rewrite length_take; lia).
    rewrite length_take. replace (i + length w - i `min` length subject) with (length w) by lia.
    by rewrite take_app_length. }
  split_and!; [|done|].
  - unfold cursor_at. f_equal.
    + by rewrite Ht, last_app_option.
    + rewrite <- drop_drop, E. by rewrite drop_app_length.
  - unfold substr. rewrite Ht. rewrite drop_app_length'; [done|]. rewrite length_take. lia.
Qed.

Lemma matches_cursor_at ic r subject i gs cu' gs' :
  i ≤ length subject →
  matches ic r (cursor_at subject i) gs cu' gs' →
  ∃ j, cu' = cursor_at subject j ∧ i ≤ j ≤ length subject
       ∧ drop i subject = substr subject i j ++ drop j subject.
Proof.
  intros Hi (w & E & P & L)%matches_advances.
  destruct (cursor_at_reached subject i cu' w Hi E P L) as (-> & Hj & Hw).
  exists (i + length w). split_and!; [done|lia|done|]. by rewrite Hw.
Qed.

Lemma match_at_Some p ma cu e gs :
  match_at p ma cu = Some (e, gs) →
  ∃ cu', matches (p_ignorecase p) (p_regex p) cu ∅ cu' gs ∧ pos cu' = e
         ∧ (ma = true → e ≠ pos cu).
Proof.
  unfold match_at. intros (cu' & gs' & M & Hk)%run_sound.
  destruct (ma && (pos cu' =? pos cu)) eqn:E; [done|]. inversion Hk; subst.
  exists cu'. split_and!; [done..|]. intros ->. simpl in E. by apply Nat.eqb_neq in E.
Qed.

Lemma match_at_None p ma cu :
  match_at p ma cu = None →
  ∀ cu' gs, matches (p_ignorecase p) (p_regex p) cu ∅ cu' gs → ma = true ∧ pos cu' = pos cu.
Proof.
  unfold match_at. intros H cu' gs M. apply (run_complete _ _ _ _ _ H) in M.
  destruct ma; simpl in M; [|done]. destruct (pos cu' =? pos cu) eqn:E; [|done].
  by apply Nat.eqb_eq in E.
Qed.

Lemma scan_spec p subject : ∀ s ma i,
  i ≤ length subject → s = drop i subject →
  match scan p subject ma i (last (take i subject)) s with
  | Some m =>
      m_string m = subject ∧ i ≤ m_start m ≤ length subject
      ∧ match_at p (ma && (m_start m =? i)) (cursor_at subject (m_start m))
        = Some (m_end m, m_groups m)
      ∧ ∀ j, i ≤ j < m_start m → match_at p (ma && (j =? i)) (cursor_at subject j) = None
  | None =>
      ∀ j, i ≤ j ≤ length subject → match_at p (ma && (j =? i)) (cursor_at subject j) = None
  end.
Proof.
  induction s as [|c t IH]; intros ma i Hi Hs; simpl.
  - assert (i = length subject) as ->.
    { apply (f_equal length) in Hs. rewrite length_drop in Hs. simpl in Hs. lia. }
    fold (cursor_at subject (length subject)). rewrite Hs. fold (cursor_at subject (length subject)).
    destruct (match_at p ma _) as [[e gs]|] eqn:E; simpl.
    + rewrite Nat.eqb_refl, andb_true_r. split_and!; [done|lia|lia|done|lia].
    + intros j Hj. assert (j = length subject) as -> by lia.
      by rewrite Nat.eqb_refl, andb_true_r.
  - rewrite Hs. fold (cursor_at subject i).
    destruct (match_at p ma _) as [[e gs]|] eqn:E; simpl.
    + rewrite Nat.eqb_refl, andb_true_r. split_and!; [done|lia|lia|done|lia].
    + symmetry in Hs. pose proof (last_take_S _ _ _ _ Hs) as HL.
      pose proof (drop_S_tail _ _ _ _ Hs) as HD.
      assert (HSi : S i ≤ length subject).
      { apply (f_equal length) in Hs. rewrite length_drop in Hs. simpl in Hs. lia. }
      specialize (IH false (S i) HSi (eq_sym HD)). rewrite HL in IH.
      destruct (scan p subject false (S i) (Some c) t) as [m|].
      * destruct IH as (? & ? & Hm & Hbefore). split_and!; [done|lia|lia| |].
        -- replace (m_start m =? i) with false by (symmetry; apply Nat.eqb_neq; lia).
           by rewrite andb_false_r.
        -- intros j Hj. destruct (decide (j = i)) as [->|].
           ++ by rewrite Nat.eqb_refl, andb_true_r.
           ++ replace (j =? i) with false by (symmetry; apply Nat.eqb_neq; lia).
              rewrite andb_false_r. apply (Hbefore j). lia.
      * intros j Hj. destruct (decide (j = i)) as [->|].
        -- by rewrite Nat.eqb_refl, andb_true_r.
        -- replace (j =? i) with false by (symmetry; apply Nat.eqb_neq; lia).
           rewrite andb_false_r. apply (IH j). lia.
Qed.

Lemma scan_from_spec p subject ma i :
  i ≤ length subject →
  match scan_from p subject ma i with
  | Some m =>
      m_string m = subject ∧ i ≤ m_start m ≤ length subject
      ∧ match_at p (ma && (m_start m =? i)) (cursor_at subject (m_start m))
        = Some (m_end m, m_groups m)
      ∧ ∀ j, i ≤ j < m_start m → match_at p (ma && (j =? i)) (cursor_at subject j) = None
  | None =>
      ∀ j, i ≤ j ≤ length subject → match_at p (ma && (j =? i)) (cursor_at subject j) = None
  end.
Proof. intros Hi. by apply scan_spec. Qed.

(** What [re.search] finds: the leftmost offset at which the pattern
    matches, with the span and groups of a match there. *)
Lemma search_Some p subject m :
  search p subject = Some m →
  m_string m = subject ∧ m_start m ≤ m_end m ∧ m_end m ≤ length subject
  ∧ matches_span p subject (m_start m) (m_end m) (m_groups m)
  ∧ ∀ j e gs, j < m_start m → ¬ matches_span p subject j e gs.
Proof.
  unfold search. pose proof (scan_from_spec p subject false 0 ltac:(lia)) as H.
  intros E. rewrite E in H. destruct H as (Hs & Hr & Hm & Hb). simpl in Hm.
  apply match_at_Some in Hm as (cu' & M & He & _).
  destruct (matches_cursor_at _ _ _ _ _ _ _ (proj2 Hr) M) as (j & -> & Hj & _).
  simpl in He. subst j. split_and!; [done|lia|lia|done|].
  intros j e gs Hj' M'. specialize (Hb j ltac:(lia)). simpl in Hb.
  by destruct (match_at_None _ _ _ Hb _ _ M').
Qed.

Lemma search_None p subject :
  search p subject = None →
  ∀ j e gs, j ≤ length subject → ¬ matches_span p subject j e gs.
Proof.
  unfold search. pose proof (scan_from_spec p subject false 0 ltac:(lia)) as H.
  intros E. rewrite E in H. intros j e gs Hj M. specialize (H j ltac:(lia)). simpl in H.
  by destruct (match_at_None _ _ _ H _ _ M).
Qed.

(** The match found is the first way the matcher finds at its start. *)
Lemma search_match_at p subject m :
  search p subject = Some m →
  run (p_ignorecase p) (p_regex p) (cursor_at subject (m_start m)) ∅ accept
  = Some (m_end m, m_groups m).
Proof.
  unfold search. intros H. pose proof (scan_from_spec p subject false 0 (Nat.le_0_l _)) as S.
  rewrite H in S. by destruct S as (_ & _ & S & _).
Qed.

End SearchFacts.

(** ** Replacing and filtering *)
Section StringFacts.
Context `{UD : unicode_db}.

Lemma is_prefix_single c x t : is_prefix [c] (x :: t) = (c =? x)%N.
Proof. simpl. by rewrite andb_true_r. Qed.

(** Replacing a character by nothing removes it. *)
Lemma str_replace_remove c s :
  str_replace [c] [] s = filter (λ x, x ≠ c) s.
Proof.
  unfold str_replace. induction s as [|x t IH]; [done|].
  cbn [replace_go]. rewrite is_prefix_single. cbn [length Nat.sub].
  destruct (N.eqb_spec c x) as [->|Hne].
  - rewrite filter_cons_False by (intros ?; done). by rewrite app_nil_l.
  - rewrite filter_cons_True by (intros ?; done). by rewrite IH.
Qed.

(** Replacing a character by another maps it. *)
Lemma str_replace_map c d s :
  str_replace [c] [d] s = map (λ x, if (x =? c)%N then d else x) s.
Proof.
  unfold str_replace. induction s as [|x t IH]; [done|].
  cbn [replace_go]. rewrite is_prefix_single. cbn [length Nat.sub]. simpl map.
  rewrite N.eqb_sym. destruct (N.eqb_spec x c) as [->|Hne]; simpl; by rewrite IH.
Qed.

Lemma digit_not_separator c :
  is_digit c = true → c ≠ HYPHEN ∧ c ≠ SPACE ∧ c ≠ NL ∧ c ≠ PLUS.
Proof.
  unfold is_digit, is_ascii, in_range, HYPHEN, SPACE, NL, PLUS.
  destruct (N.ltb_spec c 128).
  - intros [?%N.leb_le ?%N.leb_le]%andb_true_iff. lia.
  - intros _. lia.
Qed.

Lemma filter_digits (c : char) ds :
  Forall (λ x, is_digit x = true) ds → (c = HYPHEN ∨ c = SPACE ∨ c = NL) →
  filter (λ x, x ≠ c) ds = ds.
Proof.
  intros Hd Hc. induction Hd as [|x ds Hx _ IH]; [done|].
  rewrite filter_cons_True; [by rewrite IH|].
  apply digit_not_separator in Hx as (? & ? & ? & ?). by destruct Hc as [->|[->| ->]].
Qed.

End StringFacts.

(** ** Words of one-character steps *)
Section ClassFacts.
Context `{UD : unicode_db}.
Import re.

(** Rounds of a one-character step read a word of that many characters. *)
Lemma rounds_consume p n cu gs cu' gs' :
  rounds (consume p) n cu gs cu' gs' →
  ∃ w, length w = n ∧ Forall (λ c, p c = true) w ∧ rest cu = w ++ rest cu' ∧ gs' = gs.
Proof.
  revert cu. induction n as [|n IH]; intros cu.
  - intros [-> ->]. by exists [].
  - intros (cu1 & gs1 & (ch & t & E & P & -> & ->) & _ & H).
    apply IH in H as (w & Hl & Hw & Hr & ->). simpl in Hr.
    exists (ch :: w). split_and!; [simpl; lia|by constructor|by rewrite E, Hr|done].
Qed.

Lemma consume_word p cu gs cu' gs' :
  consume p cu gs cu' gs' → ∃ c, p c = true ∧ rest cu = c :: rest cu' ∧ gs' = gs.
Proof. intros (ch & t & E & P & -> & ->). by exists ch. Qed.

(** The words the phone pattern matches. *)
Lemma phone_pattern_word cu cu' gs :
  matches false (p_regex PHONE_PATTERN) cu ∅ cu' gs →
  ∃ sign code sep ten,
    rest cu = sign ++ code ++ sep ++ ten ++ rest cu'
    ∧ (sign = [] ∨ sign = [PLUS])
    ∧ length code ≤ 3 ∧ Forall (λ c, is_digit c = true) code
    ∧ (sep = [] ∨ ∃ c, sep = [c] ∧ (c = HYPHEN ∨ is_space c = true))
    ∧ length ten = 10 ∧ Forall (λ c, is_digit c = true) ten
    ∧ gs = {[1 := (pos cu, pos cu')]}.
Proof.
  simpl. intros (gs1 & (cu1 & g1 & (n1 & _ & Hn1 & H1) & cu2 & g2 & (n2 & _ & Hn2 & H2)
                    & cu3 & g3 & (n3 & _ & Hn3 & H3) & (n4 & Hlo4 & Hhi4 & H4)) & ->).
  apply rounds_consume in H1 as (w1 & L1 & F1 & R1 & ->).
  apply rounds_consume in H2 as (w2 & L2 & F2 & R2 & ->).
  apply rounds_consume in H3 as (w3 & L3 & F3 & R3 & ->).
  apply rounds_consume in H4 as (w4 & L4 & F4 & R4 & ->).
  subst. unfold within in *. exists w1, w2, w3, w4. split_and!.
  - by rewrite R1, R2, R3, R4.
  - destruct w1 as [|c [|]]; cbn [length] in *; [by left| |lia].
    right. inversion F1 as [|? ? Hc]; subst. by apply N.eqb_eq in Hc as <-.
  - lia.
  - done.
  - destruct w3 as [|c [|]]; cbn [length] in *; [by left| |lia].
    right. exists c. split; [done|]. inversion F3 as [|? ? Hc]; subst.
    unfold in_set in Hc. cbn [existsb in_item xorb in_category] in Hc.
    rewrite orb_false_r in Hc.
    apply orb_true_iff in Hc as [Hc%N.eqb_eq|Hc]; [left|right]; done.
  - lia.
  - done.
  - done.
Qed.

End ClassFacts.

(** ** Phone numbers *)
Section PhoneFacts.
Context `{UD : unicode_db}.
Import re.

(** The word between the two offsets of a match. *)
Lemma matches_span_word p subject i j gs :
  i ≤ length subject →
  matches_span p subject i j gs →
  i ≤ j ∧ j ≤ length subject
  ∧ subject = take i subject ++ substr subject i j ++ drop j subject.
Proof.
  intros Hi M. destruct (matches_cursor_at _ _ _ _ _ _ _ Hi M) as (j' & E & Hj & Hd).
  assert (j' = j) as -> by (by apply (f_equal pos) in E).
  split_and!; [lia..|]. by rewrite <- Hd, take_drop.
Qed.

Lemma strip_phone_app a b : strip_phone (a ++ b) = strip_phone a ++ strip_phone b.
Proof. unfold strip_phone. by rewrite !str_replace_remove, !filter_app. Qed.

Lemma strip_phone_digits ds :
  Forall (λ x, is_digit x = true) ds → strip_phone ds = ds.
Proof.
  intros H. unfold strip_phone. rewrite !str_replace_remove.
  rewrite (filter_digits HYPHEN), (filter_digits SPACE), (filter_digits NL); auto.
Qed.

Lemma strip_phone_single c :
  strip_phone [c] = filter (λ x, x ∉ [HYPHEN; SPACE; NL]) [c].
Proof.
  unfold strip_phone. rewrite !str_replace_remove.
  rewrite (filter_cons (λ x, x ∉ [HYPHEN; SPACE; NL])), (filter_cons (λ x, x ≠ HYPHEN)), !filter_nil.
  destruct (decide (c ≠ HYPHEN)) as [H1|H1].
  - rewrite (filter_cons (λ x, x ≠ SPACE)), filter_nil.
    destruct (decide (c ≠ SPACE)) as [H2|H2].
    + rewrite (filter_cons (λ x, x ≠ NL)), filter_nil.
      destruct (decide (c ≠ NL)) as [H3|H3].
      * rewrite decide_True; [done|]. rewrite !not_elem_of_cons. split_and!; [done..|apply not_elem_of_nil].
      * rewrite decide_False; [done|]. intros H. apply H. apply dec_stable in H3 as ->.
        rewrite !elem_of_cons. auto.
    + rewrite !filter_nil. rewrite decide_False; [done|]. intros H. apply H.
      apply dec_stable in H2 as ->. rewrite !elem_of_cons. auto.
  - rewrite !filter_nil. rewrite decide_False; [done|]. intros H. apply H.
    apply dec_stable in H1 as ->. rewrite !elem_of_cons. auto.
Qed.

End PhoneFacts.

(** ** Removal of duplicates *)
Section DedupFacts.
Context `{UD : unicode_db} `{PL : python_lib}.

(** The loop keeps what it has and appends, of the rest, the first item of
    each hash not seen. *)
Lemma remove_duplicates_loop_acc data seen acc :
  remove_duplicates_loop data seen acc = acc ++ remove_duplicates_loop data seen [].
Proof.
  revert seen acc. induction data as [|item data IH]; intros seen acc; simpl.
  - by rewrite app_nil_r.
  - case_decide; [apply IH|].
    rewrite (IH _ (acc ++ [item])), (IH _ ([] ++ [item])). by rewrite <- app_assoc.
Qed.

(** Every hash of the result is a hash of the input that was not seen. *)
Lemma remove_duplicates_loop_hashes data seen item :
  item ∈ remove_duplicates_loop data seen [] → (item_hash item ∉ seen) ∧ (item ∈ data).
Proof.
  revert seen. induction data as [|x data IH]; intros seen; simpl.
  - by intros ?%elem_of_nil.
  - case_decide as Hx.
    + intros [? ?]%IH. split; [done|by right].
    + rewrite remove_duplicates_loop_acc. intros [Hi|Hi]%elem_of_app.
      * apply list_elem_of_singleton in Hi as ->. split; [done|by left].
      * apply IH in Hi as [Hn ?]. split; [|by right].
        intros Hs. apply Hn. apply elem_of_union. by right.
Qed.

(** A list that the loop leaves alone: no hash seen, no hash twice. *)
Lemma remove_duplicates_loop_fixed data seen :
  NoDup (item_hash <$> data) → (∀ item, item ∈ data → item_hash item ∉ seen) →
  remove_duplicates_loop data seen [] = data.
Proof.
  revert seen. induction data as [|x data IH]; intros seen Hnd Hseen; [done|].
  simpl. apply NoDup_cons in Hnd as [Hx Hnd].
  rewrite decide_False by (apply Hseen; by left).
  rewrite remove_duplicates_loop_acc. simpl. f_equal. apply IH; [done|].
  intros item Hi [Hs%elem_of_singleton|Hs]%elem_of_union.
  - apply Hx. rewrite <- Hs. by apply list_elem_of_fmap_2.
  - apply (Hseen item); [by right|done].
Qed.

(** The hashes of the result are pairwise different. *)
Lemma remove_duplicates_loop_NoDup data seen :
  NoDup (item_hash <$> remove_duplicates_loop data seen []).
Proof.
  revert seen. induction data as [|x data IH]; intros seen; simpl.
  - constructor.
  - case_decide as Hx; [apply IH|].
    rewrite remove_duplicates_loop_acc. simpl. apply NoDup_cons. split; [|apply IH].
    intros (y & Hy & Hin)%list_elem_of_fmap.
    apply remove_duplicates_loop_hashes in Hin as [Hn _]. rewrite <- Hy in Hn.
    apply Hn. apply elem_of_union. left. by apply elem_of_singleton.
Qed.

(** C8.  Removing the duplicates of a list from which the duplicates were
    removed changes nothing: [remove_duplicates] is idempotent, whatever the
    serialiser and the digest are. *)
Theorem remove_duplicates_idempotent (data : list pyobj) :
  remove_duplicates (remove_duplicates data) = remove_duplicates data.
Proof.
  unfold remove_duplicates. apply remove_duplicates_loop_fixed.
  - apply remove_duplicates_loop_NoDup.
  - intros item _. apply not_elem_of_empty.
Qed.

End DedupFacts.

(** ** Reference lists *)

Section ReferenceFacts.
Context `{UD : unicode_db} `{PL : python_lib}.

Lemma title_of_getter key item title :
  title_of key item = Some title →
  itemgetter key item = Return (PyStr title).
Proof.
  unfold title_of, itemgetter. destruct item as [| | | |?|kv]; try done.
  destruct (dict_get key kv) as [[]|]; try done. by intros [= ->].
Qed.

Lemma collect_titles_well_formed key text items :
  well_formed key items →
  collect_titles key text items
  = Return (filter (λ t, title_occurs text t = true) (titles key items)).
Proof.
  unfold titles. induction 1 as [|item items [title Ht] _ IH]; [done|].
  cbn [collect_titles omap list_omap]. rewrite Ht, (title_of_getter _ _ _ Ht).
  cbn [mbind result_bind as_str]. rewrite IH. cbn [mbind result_bind].
  rewrite filter_cons. by destruct (title_occurs text title).
Qed.

Lemma get_all_well_formed key items :
  well_formed key items → get_all key items = Return (PyStr <$> titles key items).
Proof.
  unfold titles. induction 1 as [|item items [title Ht] _ IH]; [done|].
  cbn [get_all omap list_omap]. rewrite Ht, (title_of_getter _ _ _ Ht).
  cbn [mbind result_bind]. by rewrite IH.
Qed.

Lemma keep_matching_strings text (ts : list str) :
  keep_matching text (PyStr <$> ts)
  = Return (filter (λ t, title_occurs text t = true) ts).
Proof.
  induction ts as [|t ts IH]; [done|]. cbn [keep_matching fmap list_fmap mbind result_bind as_str].
  rewrite IH. cbn [mbind result_bind]. rewrite filter_cons. by destruct (title_occurs text t).
Qed.

Lemma check_and_collect_designation_ids_well_formed text items :
  well_formed (py "designation") items →
  check_and_collect_designation_ids text (Some items)
  = let ds := sorted (λ a b, offset_le (first_offset text a) (first_offset text b))
                     (matching_designations text items) in
    Return (ds, match ds with d :: _ => d | [] => [] end).
Proof.
  intros Hwf. unfold check_and_collect_designation_ids.
  rewrite (get_all_well_formed _ _ Hwf). cbn [mbind result_bind].
  by rewrite keep_matching_strings.
Qed.

(** C10.  Without a reference list the two matchers differ:
    [check_and_collect_skills] returns [None] for an absent and for an empty
    skill list, whereas [check_and_collect_designation_ids] raises
    [TypeError] for an absent designation list, and so does [extract_name],
    which calls it first; with a designation list whose entries carry their
    title neither of the two raises. *)
Theorem absent_reference_list_asymmetry (text : str) :
  check_and_collect_skills text None = Return None
  ∧ check_and_collect_skills text (Some []) = Return None
  ∧ check_and_collect_designation_ids text None = Raise TypeError
  ∧ extract_name text None = Raise TypeError
  ∧ ∀ items, well_formed (py "designation") items →
      (∃ r, check_and_collect_designation_ids text (Some items) = Return r)
      ∧ (∃ r, extract_name text (Some items) = Return r).
Proof.
  split_and!; try reflexivity. intros items Hwf.
  pose proof (check_and_collect_designation_ids_well_formed text items Hwf) as E.
  split; [eauto|]. unfold extract_name. rewrite E. cbn [mbind result_bind].
  destruct (re.search NAME_PATTERN _); [|eauto].
  repeat (match goal with |- context [if ?b then _ else _] => destruct b end); eauto.
Qed.

End ReferenceFacts.

(** ** Reference-list synchronisation *)
Section SyncFacts.
Context `{UD : unicode_db} `{PL : python_lib}.
Variable net : nat → str → http_reply.

(** The two ways a fetch fails.  When the response has a status other than
    200 (so in particular a non-2xx one), [save_url_as_json_async] loads the
    cache file if there is one and removes its duplicates, and returns
    [None] if there is none; the files stay as they are.  On a transport
    error it returns [None] whether or not a cache file exists. *)
Theorem stale_fallback (url output_file : str) (w : world) :
  (∀ status content,
     net (requests w) url = Response status content → status ≠ 200 →
     (∀ cached items,
        files w !! output_file = Some cached → json_loads cached = Some (PyList items) →
        save_url_as_json_async net url output_file w
        = (Return (Some (remove_duplicates items)), World (files w) (S (requests w))))
     ∧ (files w !! output_file = None →
        save_url_as_json_async net url output_file w
        = (Return None, World (files w) (S (requests w)))))
  ∧ (net (requests w) url = RequestError →
     save_url_as_json_async net url output_file w
     = (Return None, World (files w) (S (requests w)))).
Proof.
  unfold save_url_as_json_async. split.
  - intros status content -> Hs. apply Nat.eqb_neq in Hs. rewrite Hs. cbn [negb].
    split.
    + intros cached items -> Hl. unfold load_and_deduplicate. by rewrite Hl.
    + by intros ->.
  - by intros ->.
Qed.

(** A fetch touches no file but its cache file. *)
Lemma save_url_as_json_async_other url output_file w path :
  path ≠ output_file →
  files (save_url_as_json_async net url output_file w).2 !! path = files w !! path.
Proof.
  intros Hp. unfold save_url_as_json_async.
  destruct (net (requests w) url) as [status content|]; [|done].
  destruct (negb (status =? 200)).
  { by destruct (files w !! output_file). }
  cbn zeta. cbn [files]. case_decide.
  { cbn [snd files]. by rewrite lookup_insert_ne. }
  destruct (json_loads content); cbn [snd files]; by rewrite ?lookup_insert_ne.
Qed.


Lemma get_all_default_dicts key dflt items :
  Forall (λ item, ∃ kv, item = PyDict kv) items →
  ∃ vs, get_all_default key dflt items = Return vs.
Proof.
  induction 1 as [|item items [kv ->] _ [vs IH]]; [by exists []|].
  cbn [get_all_default dict_get_default mbind result_bind]. rewrite IH. by eexists.
Qed.









End SyncFacts.

(** ** Closed runs of the synchronisation *)
Section Examples.

(** The fallback at work: status 500 with a cache file. *)
Lemma stale_fallback_witness :
  @save_url_as_json_async toy_lib net_500 URL_TO_FETCH_SKILL (py "skills-collection.json")
    cached_skills
  = (Return (Some (@remove_duplicates toy_lib
               [entry "title" "React"; entry "title" "React"; entry "title" "Node"])),
     World (files cached_skills) 1).
Proof.
  apply (proj1 (proj1 (@stale_fallback toy_lib net_500 URL_TO_FETCH_SKILL
                         (py "skills-collection.json") cached_skills)
                      500 [] eq_refl ltac:(lia)) (py "[skills]")); reflexivity.
Defined.

(** C3.  The stale fallback is missing for transport errors: with a cache
    file on disk, a request that fails with [httpx.RequestError] gives
    [None] and the cache is not read, whereas a response of status 500 on
    the same files gives the list of the cache without its duplicates. *)
Lemma transport_error_ignores_cache :
  files cached_skills !! py "skills-collection.json" = Some (py "[skills]")
  ∧ @save_url_as_json_async toy_lib net_down URL_TO_FETCH_SKILL (py "skills-collection.json")
      cached_skills
    = (Return None, World (files cached_skills) 1)
  ∧ @save_url_as_json_async toy_lib net_500 URL_TO_FETCH_SKILL (py "skills-collection.json")
      cached_skills
    = (Return (Some [entry "title" "React"; entry "title" "Node"]),
       World (files cached_skills) 1).
Proof. split_and!; vm_compute; reflexivity. Qed.



End Examples.

(** ** Title patterns match whole words *)
Section WholeWord.
Context `{UD : unicode_db}.
Import re.

Lemma matches_seq_cons ic r rs cu gs cu' gs' :
  matches ic (seq (r :: rs)) cu gs cu' gs' ↔
  ∃ cu1 gs1, matches ic r cu gs cu1 gs1 ∧ matches ic (seq rs) cu1 gs1 cu' gs'.
Proof.
  destruct rs as [|r' rs]; [|done]. simpl. split.
  - intros H. by exists cu', gs'.
  - by intros (cu1 & gs1 & H & -> & ->).
Qed.

Lemma after_nil cu : after cu [] (rest cu) = cu.
Proof.
  destruct cu as [p pv r]. unfold after. simpl. rewrite app_nil_r. f_equal; [lia|].
  by destruct pv.
Qed.

Lemma after_cons cu c w r :
  after (Cursor (S (pos cu)) (Some c) (w ++ r)) w r = after cu (c :: w) r.
Proof.
  unfold after. cbn [pos prev length option_list app]. f_equal; [lia|].
  by rewrite last_app_cons.
Qed.

(** A run of literals matches the words equal to it, character by
    character. *)
Lemma matches_lit_inv ic s : ∀ cu gs cu' gs',
  matches ic (lit s) cu gs cu' gs' →
  ∃ w, Forall2 (λ c ch, literal_match ic c ch = true) s w
       ∧ rest cu = w ++ rest cu' ∧ gs' = gs.
Proof.
  unfold lit. induction s as [|c s IH]; intros cu gs cu' gs'.
  - simpl. intros [-> ->]. by exists [].
  - cbn [map]. rewrite matches_seq_cons.
    intros (cu1 & gs1 & (ch & t & E & P & -> & ->) & H).
    apply IH in H as (w & Hw & Hr & ->). cbn [rest] in Hr.
    exists (ch :: w). split_and!; [by constructor|by rewrite E, Hr|done].
Qed.

Lemma matches_lit_intro ic s w : ∀ cu gs r,
  Forall2 (λ c ch, literal_match ic c ch = true) s w →
  rest cu = w ++ r →
  matches ic (lit s) cu gs (after cu w r) gs.
Proof.
  unfold lit. intros cu gs r H. revert cu. induction H as [|c ch s w P _ IH]; intros cu E.
  - simpl in *. by rewrite <- E, after_nil.
  - cbn [map]. rewrite matches_seq_cons.
    exists (Cursor (S (pos cu)) (Some ch) (w ++ r)), gs. split.
    + exists ch, (w ++ r). by rewrite E.
    + rewrite <- after_cons. by apply IH.
Qed.

Lemma cursor_at_after text i w :
  i ≤ length text → drop i text = w ++ drop (i + length w) text →
  after (cursor_at text i) w (drop (i + length w) text) = cursor_at text (i + length w).
Proof.
  intros Hi E.
  by destruct (cursor_at_reached text i (after (cursor_at text i) w (drop (i + length w) text)) w
                 Hi E eq_refl eq_refl) as (-> & _).
Qed.

Lemma at_boundary_cursor_at text i : at_boundary (cursor_at text i) = word_boundary text i.
Proof. done. Qed.

(** The title pattern matches exactly at the whole-word occurrences. *)
Lemma title_pattern_matches text title i j gs :
  i ≤ length text →
  matches_span (title_pattern title) text i j gs ↔
  j = i + length title ∧ gs = ∅ ∧ whole_word_at text title i.
Proof.
  intros Hi. unfold matches_span, title_pattern, escape, whole_word_at.
  cbn [p_regex p_ignorecase seq matches]. unfold check. split.
  - intros (cu1 & gs1 & (B1 & -> & ->) & cu2 & gs2 & L & B2 & E & ->).
    pose proof L as L'. apply matches_lit_inv in L as (w & Hw & Hr & ->).
    apply matches_advances in L' as (w' & Hr' & P & Pv).
    assert (w' = w) as -> by (rewrite Hr in Hr'; by apply app_inv_tail in Hr').
    destruct (cursor_at_reached text i cu2 w Hi Hr P Pv) as (-> & Hle & Hsub).
    apply (f_equal pos) in E. cbn [pos cursor_at] in E. subst j.
    rewrite <- (Forall2_length _ _ _ Hw) in *.
    split_and!; try done. by rewrite Hsub.
  - intros (-> & -> & Hle & Hw & B1 & B2).
    set (w := substr text i (i + length title)) in *.
    assert (Hlw : length w = length title) by (symmetry; by eapply Forall2_length).
    assert (Hd : drop i text = w ++ drop (i + length w) text).
    { unfold w, substr. rewrite length_drop, length_take.
      replace (i + ((i + length title) `min` length text - i)) with (i + length title) by lia.
      rewrite <- (take_drop (length title) (drop i text)) at 1.
      rewrite drop_drop. f_equal. rewrite take_drop_commute. by rewrite Nat.add_comm. }
    exists (cursor_at text i), ∅. split; [done|].
    exists (cursor_at text (i + length title)), ∅. split; [|done].
    rewrite <- Hlw, <- cursor_at_after by done. by apply matches_lit_intro.
Qed.

(** [title_occurs] decides whether the title has a whole-word occurrence. *)
Lemma title_occurs_spec text title :
  title_occurs text title = true ↔ ∃ i, whole_word_at text title i.
Proof.
  unfold title_occurs. destruct (search (title_pattern title) text) as [m|] eqn:E.
  - apply search_Some in E as (_ & Hse & He & M & _).
    apply title_pattern_matches in M as (_ & _ & W); [|lia]. split; eauto.
  - split; [done|]. intros (i & W). exfalso.
    assert (Hi : i ≤ length text) by (destruct W; lia).
    eapply (search_None _ _ E i _ _ Hi). apply title_pattern_matches; eauto.
Qed.

End WholeWord.

(** ** [sorted] *)
Section SortedFacts.
Context {A : Type} (le : A → A → bool).
Hypothesis le_total : ∀ a b, le a b = true ∨ le b a = true.
Hypothesis le_trans : ∀ a b c, le a b = true → le b c = true → le a c = true.

Lemma insert_sorted_perm x l : insert_sorted le x l ≡ₚ x :: l.
Proof.
  induction l as [|y l IH]; [done|]. simpl. destruct (le x y); [done|].
  by rewrite IH, Permutation_swap.
Qed.

Lemma sorted_perm l : sorted le l ≡ₚ l.
Proof. induction l as [|x l IH]; [done|]. simpl. by rewrite insert_sorted_perm, IH. Qed.

Lemma insert_sorted_sorted x l :
  StronglySorted (λ a b, le a b = true) l →
  StronglySorted (λ a b, le a b = true) (insert_sorted le x l).
Proof.
  induction 1 as [|y l Hs IH Hy]; simpl; [by repeat constructor|].
  destruct (le x y) eqn:E.
  - constructor; [by constructor|]. constructor; [done|].
    eapply Forall_impl; [exact Hy|]. intros z Hz. by eapply le_trans.
  - constructor; [done|]. rewrite insert_sorted_perm. constructor; [|done].
    destruct (le_total x y); congruence.
Qed.

Lemma sorted_sorted l : StronglySorted (λ a b, le a b = true) (sorted le l).
Proof. induction l; simpl; [constructor|by apply insert_sorted_sorted]. Qed.

(** Stability: among elements that compare equal both ways, the order of
    the input is kept. *)
Lemma insert_sorted_stable (P : A → Prop) `{∀ a, Decision (P a)} x l :
  (∀ y, P x → P y → le x y = true) →
  filter P (insert_sorted le x l) = filter P (x :: l).
Proof.
  intros HP. induction l as [|y l IH]; [done|]. simpl. destruct (le x y) eqn:E; [done|].
  rewrite (filter_cons P x (y :: l)), (filter_cons P y), IH, (filter_cons P x l), (filter_cons P y l).
  destruct (decide (P x)) as [Px|]; [|done]. destruct (decide (P y)) as [Py|]; [|done].
  rewrite HP in E; done.
Qed.

Lemma sorted_stable (P : A → Prop) `{∀ a, Decision (P a)} l :
  (∀ x y, P x → P y → le x y = true) →
  filter P (sorted le l) = filter P l.
Proof.
  intros HP. induction l as [|x l IH]; [done|]. simpl.
  rewrite insert_sorted_stable by auto. by rewrite !filter_cons, IH.
Qed.

End SortedFacts.

(** ** Offsets *)
Section OffsetFacts.

Lemma offset_le_total a b : offset_le a b = true ∨ offset_le b a = true.
Proof.
  destruct a as [n|], b as [m|]; simpl; auto.
  destruct (Nat.leb_spec n m); [by left|right]. apply Nat.leb_le. lia.
Qed.

Lemma offset_le_trans a b c :
  offset_le a b = true → offset_le b c = true → offset_le a c = true.
Proof.
  destruct a as [n|], b as [m|], c as [k|]; simpl; try done.
  intros ?%Nat.leb_le ?%Nat.leb_le. apply Nat.leb_le. lia.
Qed.

Lemma min_default_first x xs :
  Forall (λ y, x ≤ y) xs → min_default (x :: xs) = Finite x.
Proof.
  simpl. induction 1 as [|y xs Hy _ IH]; [done|]. simpl.
  unfold offset_min at 2. simpl. by apply Nat.leb_le in Hy as ->.
Qed.

End OffsetFacts.

(** ** The first offset of a title *)
Section FinditerFacts.
Context `{UD : unicode_db}.
Import re.

(** A match found by a scan from [i] lies between [i] and the end of the
    subject. *)
Lemma scan_from_bounds p subject ma i m :
  i ≤ length subject → scan_from p subject ma i = Some m →
  i ≤ m_start m ∧ m_start m ≤ m_end m ∧ m_end m ≤ length subject.
Proof.
  intros Hi E. pose proof (scan_from_spec p subject ma i Hi) as H. rewrite E in H.
  destruct H as (_ & Hr & Hm & _).
  apply match_at_Some in Hm as (cu' & M & He & _).
  destruct (matches_cursor_at _ _ _ _ _ _ _ (proj2 Hr) M) as (j & -> & Hj & _).
  cbn [pos cursor_at] in He. lia.
Qed.

Lemma finditer_from_starts fuel p subject : ∀ ma i,
  i ≤ length subject →
  Forall (λ m, i ≤ m_start m) (finditer_from fuel p subject ma i).
Proof.
  induction fuel as [|f IH]; intros ma i Hi; [constructor|]. simpl.
  destruct (scan_from p subject ma i) as [m|] eqn:E; [|constructor].
  destruct (scan_from_bounds _ _ _ _ _ Hi E) as (H1 & H2 & H3).
  constructor; [done|]. eapply Forall_impl; [by apply IH|]. simpl. lia.
Qed.

(** The first match of [finditer] is the match of [search], and no later
    one starts before it. *)
Lemma finditer_search p subject :
  match search p subject with
  | Some m => ∃ ms, finditer p subject = m :: ms ∧ Forall (λ m', m_start m ≤ m_start m') ms
  | None => finditer p subject = []
  end.
Proof.
  unfold finditer, search. replace (2 * length subject + 2) with (S (2 * length subject + 1)) by lia.
  cbn [finditer_from]. destruct (scan_from p subject false 0) as [m|] eqn:E; [|done].
  destruct (scan_from_bounds _ _ _ _ _ (Nat.le_0_l _) E) as (H1 & H2 & H3).
  eexists. split; [done|]. eapply Forall_impl; [by apply finditer_from_starts|]. simpl. lia.
Qed.

Lemma earliest_occurrence_unique text title i j :
  earliest_occurrence text title i → earliest_occurrence text title j → i = j.
Proof.
  intros [Wi Li] [Wj Lj]. destruct (Nat.lt_trichotomy i j) as [?|[?|?]]; [|done|].
  - by destruct (Lj i).
  - by destruct (Li j).
Qed.

(** The sort key of a title that occurs is its earliest offset. *)
Lemma first_offset_spec text title :
  title_occurs text title = true →
  ∃ i, first_offset text title = Finite i ∧ earliest_occurrence text title i.
Proof.
  unfold title_occurs, first_offset. pose proof (finditer_search (title_pattern title) text) as F.
  destruct (search (title_pattern title) text) as [m|] eqn:E; [|done]. intros _.
  destruct F as (ms & -> & Hms). exists (m_start m). split.
  - cbn [map]. apply min_default_first. by apply Forall_fmap.
  - apply search_Some in E as (_ & Hse & He & M & Hleft). split.
    + apply title_pattern_matches in M as (_ & _ & W); [done|lia].
    + intros i' Hi' W. apply (Hleft i' (i' + length title) ∅ Hi').
      apply title_pattern_matches; [lia|done].
Qed.

(** The sort key is the earliest offset, and [float("inf")] for a title
    that does not occur. *)
Lemma first_offset_earliest text title i :
  first_offset text title = Finite i ↔ earliest_occurrence text title i.
Proof.
  destruct (title_occurs text title) eqn:O.
  - destruct (first_offset_spec _ _ O) as (j & E & Hj). rewrite E. split.
    + by intros [= <-].
    + intros Hi. f_equal. by eapply earliest_occurrence_unique.
  - split.
    + unfold first_offset. pose proof (finditer_search (title_pattern title) text) as F.
      unfold title_occurs in O. destruct (search (title_pattern title) text); [done|].
      by rewrite F.
    + intros [W _]. assert (title_occurs text title = true) by (apply title_occurs_spec; eauto).
      congruence.
Qed.

#[global] Instance earliest_occurrence_dec text title i :
  Decision (earliest_occurrence text title i).
Proof.
  destruct (decide (first_offset text title = Finite i)) as [E|E].
  - left. by apply first_offset_earliest.
  - right. intros H. by apply E, first_offset_earliest.
Defined.

End FinditerFacts.

(** ** Designations *)
Section DesignationFacts.
Context `{UD : unicode_db} `{PL : python_lib}.

(** C5.  For a designation list whose entries carry their title,
    [check_and_collect_designation_ids] returns the titles that have a
    case-insensitive whole-word occurrence in the text (each as often as the
    list has it), in ascending order of the offset of their earliest
    occurrence, titles of equal offset in the order of the list; the primary
    title is the first of them, or the empty string when there is none. *)
Theorem designations_by_first_occurrence (text : str) (items : list pyobj) :
  well_formed (py "designation") items →
  ∃ ds,
    check_and_collect_designation_ids text (Some items)
    = Return (ds, match ds with d :: _ => d | [] => [] end)
    ∧ ds ≡ₚ filter (λ t, title_occurs text t = true) (titles (py "designation") items)
    ∧ (∀ t, title_occurs text t = true ↔ ∃ i, whole_word_at text t i)
    ∧ (∃ offsets, Forall2 (earliest_occurrence text) ds offsets ∧ Sorted le offsets)
    ∧ (∀ i, filter (λ d, earliest_occurrence text d i) ds
            = filter (λ d, earliest_occurrence text d i)
                (filter (λ t, title_occurs text t = true) (titles (py "designation") items))).
Proof.
  intros Hwf. set (matching := filter (λ t, title_occurs text t = true) _).
  exists (sorted (by_first_offset text) matching).
  assert (Htot : ∀ a b, by_first_offset text a b = true ∨ by_first_offset text b a = true)
    by (intros; apply offset_le_total).
  assert (Htr : ∀ a b c, by_first_offset text a b = true → by_first_offset text b c = true →
                         by_first_offset text a c = true)
    by (intros a b c; apply offset_le_trans).
  split_and!.
  - by rewrite check_and_collect_designation_ids_well_formed.
  - apply sorted_perm.
  - apply title_occurs_spec.
  - pose proof (sorted_sorted _ Htot Htr matching) as Hs.
    assert (Hocc : Forall (λ d, title_occurs text d = true) (sorted (by_first_offset text) matching)).
    { rewrite sorted_perm. apply Forall_forall. intros d Hd.
      by apply list_elem_of_filter in Hd as [? _]. }
    induction Hs as [|d ds Hs IH Hd].
    + exists []. split; constructor.
    + apply Forall_cons in Hocc as [Od Hocc]. destruct (IH Hocc) as (offs & Hf & Hso).
      destruct (first_offset_spec _ _ Od) as (i & Ei & Hi).
      exists (i :: offs). split; [by constructor|]. constructor; [done|].
      destruct Hf as [|d' j ds offs Hj Hf]; constructor.
      apply Forall_cons in Hd as [Hd _]. unfold by_first_offset in Hd.
      apply first_offset_earliest in Hj. rewrite Ei, Hj in Hd. by apply Nat.leb_le.
  - intros i. apply sorted_stable. intros x y Hx%first_offset_earliest Hy%first_offset_earliest.
    unfold by_first_offset. rewrite Hx, Hy. simpl. by apply Nat.leb_le.
Qed.

End DesignationFacts.

(** ** The order of strings *)
Section StrOrder.

Lemma str_le_total a b : str_le a b = true ∨ str_le b a = true.
Proof.
  revert b. induction a as [|x a IH]; intros [|y b]; simpl; auto.
  destruct (N.ltb_spec x y); [by left|]. destruct (N.ltb_spec y x); [by right|]. apply IH.
Qed.

Lemma str_le_trans a b c : str_le a b = true → str_le b c = true → str_le a c = true.
Proof.
  revert b c. induction a as [|x a IH]; intros [|y b] [|z c]; simpl; try done.
  destruct (N.ltb_spec x y), (N.ltb_spec y x), (N.ltb_spec y z), (N.ltb_spec z y),
    (N.ltb_spec x z), (N.ltb_spec z x); try done; try lia. apply IH.
Qed.

Lemma str_le_antisym a b : str_le a b = true → str_le b a = true → a = b.
Proof.
  revert b. induction a as [|x a IH]; intros [|y b]; simpl; try done.
  destruct (N.ltb_spec x y), (N.ltb_spec y x); try done; try lia.
  intros. f_equal; [lia|by apply IH].
Qed.

Lemma strictly_sorted l :
  StronglySorted (λ a b, str_le a b = true) l → NoDup l → StronglySorted str_lt l.
Proof.
  induction 1 as [|x xs Hs IH Hx]; intros Hnd; [constructor|].
  apply NoDup_cons in Hnd as [Hn Hnd]. constructor; [by apply IH|].
  apply Forall_forall. intros y Hy. split.
  - by apply (proj1 (Forall_forall _ _) Hx).
  - by intros ->.
Qed.

End StrOrder.

(** ** Skills *)
Section SkillFacts.
Context `{UD : unicode_db} `{PL : python_lib}.

(** The sorted set of a list: its elements, each once, in ascending order. *)
Lemma sorted_set_spec (l : list str) :
  ∃ ss, sorted_set (Some l) = Return ss
        ∧ (∀ t, t ∈ ss ↔ t ∈ l)
        ∧ StronglySorted str_lt ss.
Proof.
  eexists. split; [done|]. set (es := elements (list_to_set l : gset str)).
  assert (Hp : sorted str_le es ≡ₚ es) by apply sorted_perm.
  split.
  - intros t. rewrite Hp. unfold es. by rewrite elem_of_elements, elem_of_list_to_set.
  - apply strictly_sorted.
    + apply sorted_sorted; [apply str_le_total|apply str_le_trans].
    + rewrite Hp. apply NoDup_elements.
Qed.

(** The record assembled from the parts carries them under their keys. *)
Lemma record_fields name email phone skills designation title amount duration summary work :
  let record :=
    PyDict
      [ (py "name", name); (py "email", email); (py "phone", phone);
        (py "skills", skills); (py "designation", designation);
        (py "experience", PyList [ PyDict
           [ (py "title", title); (py "amount_of_experience", amount);
             (py "duration_string", duration); (py "summary", summary) ] ]);
        (py "work_experience", work) ] in
  field "name" record = Some name ∧ field "email" record = Some email
  ∧ field "phone" record = Some phone ∧ field "skills" record = Some skills
  ∧ field "designation" record = Some designation
  ∧ field "work_experience" record = Some work
  ∧ ∃ experience, field "experience" record = Some (PyList [experience])
      ∧ field "title" experience = Some title
      ∧ field "amount_of_experience" experience = Some amount
      ∧ field "duration_string" experience = Some duration
      ∧ field "summary" experience = Some summary.
Proof. cbn zeta. split_and!; try reflexivity. eexists. split_and!; reflexivity. Qed.

Lemma record_skills text json_skills json_designations record :
  check_titles_and_extract_info text json_skills json_designations = Return record →
  ∃ ss, stored_skills text json_skills = Return ss
        ∧ field "skills" record = Some (PyList (PyStr <$> ss)).
Proof.
  unfold check_titles_and_extract_info, stored_skills.
  destruct (extract_name text json_designations) as [[firstName lastName]|e]; [|done].
  cbn [mbind result_bind].
  destruct (extract_summary_text text) as [summary|e]; [|done].
  destruct (extract_experience_duration text) as [amount duration].
  destruct (check_and_collect_skills text json_skills) as [skills|e]; [|done].
  cbn [mbind result_bind].
  destruct (check_and_collect_designation_ids text json_designations)
    as [[designations title]|e]; [|done].
  cbn [mbind result_bind].
  destruct (sorted_set skills) as [ss|e]; [|done].
  intros [= <-]. exists ss. split; [done|]. apply record_fields.
Qed.

(** C4 (as amended).  For a non-empty skill list whose entries carry their
    title, the skills stored in the record are the titles of the list that
    have a case-insensitive whole-word occurrence in the text, each string
    once, in ascending order of their code points.  Titles that differ in
    case only are different strings: "React", "react" and "Node" against a
    text with "React" and "Node" give "Node", "React", "react". *)
Theorem skills_sorted_set :
  (∀ text items,
     items ≠ [] → well_formed (py "title") items →
     ∃ ss, stored_skills text (Some items) = Return ss
       ∧ (∀ t, t ∈ ss ↔ t ∈ titles (py "title") items ∧ ∃ i, whole_word_at text t i)
       ∧ StronglySorted str_lt ss
       ∧ ∀ json_designations record,
           check_titles_and_extract_info text (Some items) json_designations = Return record →
           field "skills" record = Some (PyList (PyStr <$> ss)))
  ∧ stored_skills (py "React and Node")
      (Some [entry "title" "React"; entry "title" "react"; entry "title" "Node"])
    = Return [py "Node"; py "React"; py "react"].
Proof.
  split; [|vm_compute; reflexivity].
  intros text items Hne Hwf. unfold stored_skills.
  assert (Hc : check_and_collect_skills text (Some items)
               = Return (Some (filter (λ t, title_occurs text t = true) (titles (py "title") items)))).
  { destruct items as [|item items]; [done|]. unfold check_and_collect_skills.
    by rewrite (collect_titles_well_formed _ _ _ Hwf). }
  rewrite Hc. cbn [mbind result_bind].
  destruct (sorted_set_spec (filter (λ t, title_occurs text t = true) (titles (py "title") items)))
    as (ss & E & Hin & Hs).
  exists ss. split_and!; [done| |done|].
  - intros t. rewrite Hin, list_elem_of_filter, title_occurs_spec. tauto.
  - intros ds record Hr. apply record_skills in Hr as (ss' & E' & F).
    unfold stored_skills in E'. rewrite Hc in E'. cbn [mbind result_bind] in E'.
    rewrite E in E'. by injection E' as <-.
Qed.

End SkillFacts.

(** C4, counterexample: the stored skills for the list "React", "react",
    "Node" and a text with "React" and "Node" are three, not two. *)
Lemma skills_case_variants_kept :
  @stored_skills ascii_only (py "React and Node")
    (Some [entry "title" "React"; entry "title" "react"; entry "title" "Node"])
  = Return [py "Node"; py "React"; py "react"]
  ∧ [py "Node"; py "React"; py "react"] ≠ [py "Node"; py "React"].
Proof. split; [vm_compute; reflexivity|discriminate]. Qed.

(** ** Cursors after a word *)
Section WordFacts.
Context `{UD : unicode_db}.
Import re.

Lemma after_rest cu w r : rest (after cu w r) = r.
Proof. done. Qed.

Lemma after_pos cu w r : pos (after cu w r) = pos cu + length w.
Proof. done. Qed.

Lemma after_app cu w1 w2 r :
  after (after cu w1 (w2 ++ r)) w2 r = after cu (w1 ++ w2) r.
Proof.
  unfold after. cbn [pos prev]. rewrite length_app. f_equal; [lia|].
  rewrite last_app_option. by rewrite app_assoc.
Qed.

Lemma after_eq cu cu' w :
  rest cu = w ++ rest cu' → pos cu' = pos cu + length w →
  prev cu' = last (option_list (prev cu) ++ w) → cu' = after cu w (rest cu').
Proof. destruct cu'. unfold after. simpl. by intros _ -> ->. Qed.

(** Every way to match leads to the cursor after the word read. *)
Lemma matches_after ic r cu gs cu' gs' :
  matches ic r cu gs cu' gs' → ∃ w, rest cu = w ++ rest cu' ∧ cu' = after cu w (rest cu').
Proof.
  intros (w & E & P & L)%matches_advances. exists w. split; [done|]. by apply after_eq.
Qed.

Lemma rounds_consume_intro p w : ∀ cu gs r,
  Forall (λ c, p c = true) w → rest cu = w ++ r →
  rounds (consume p) (length w) cu gs (after cu w r) gs.
Proof.
  induction w as [|c w IH]; intros cu gs r Hw E.
  - simpl in *. by rewrite <- E, after_nil.
  - apply Forall_cons in Hw as [Hc Hw]. cbn [length rounds].
    exists (Cursor (S (pos cu)) (Some c) (w ++ r)), gs. split_and!.
    + exists c, (w ++ r). by rewrite E.
    + simpl. lia.
    + rewrite <- after_cons. by apply IH.
Qed.

(** A run of literals compared exactly matches the run itself only. *)
Lemma literal_word s w :
  Forall2 (λ c ch, literal_match false c ch = true) s w ↔ w = s.
Proof.
  split.
  - induction 1 as [|c ch s w Hc _ IH]; [done|]. apply N.eqb_eq in Hc. by subst.
  - intros ->. induction s; constructor; [apply N.eqb_refl|done].
Qed.

Lemma matches_lits_inv s cu gs cu' gs' :
  matches false (lits s) cu gs cu' gs' → rest cu = py s ++ rest cu' ∧ gs' = gs.
Proof. intros (w & ->%literal_word & E & ->)%matches_lit_inv. done. Qed.

Lemma matches_lits_intro s cu gs r :
  rest cu = py s ++ r → matches false (lits s) cu gs (after cu (py s) r) gs.
Proof. intros E. apply matches_lit_intro; [by apply literal_word|done]. Qed.

End WordFacts.

(** ** Experience durations *)
Section DurationWords.
Context `{UD : unicode_db}.
Import re.

(** A repetition of a one-character step matches the words of an allowed
    length whose characters all pass. *)
Lemma matches_repeat_consume ic g lo hi r p cu gs cu' gs' :
  matches ic r = consume p →
  matches ic (REPEAT g lo hi r) cu gs cu' gs' ↔
  ∃ w, lo ≤ length w ∧ within (length w) hi ∧ Forall (λ c, p c = true) w
       ∧ rest cu = w ++ rest cu' ∧ cu' = after cu w (rest cu') ∧ gs' = gs.
Proof.
  intros Hr. cbn [matches]. rewrite Hr. split.
  - intros (n & Hlo & Hhi & H). pose proof H as H'.
    apply rounds_consume in H as (w & <- & Hw & E & ->).
    exists w. split_and!; try done.
    assert (M : matches ic (REPEAT g (length w) hi r) cu gs cu' gs).
    { cbn [matches]. rewrite Hr. exists (length w). split_and!; [lia|done|done]. }
    apply matches_after in M as (w' & E' & ->). cbn [rest] in *.
    rewrite E in E'. apply app_inv_tail in E'. by subst w'.
  - intros (w & Hlo & Hhi & Hw & E & -> & ->). exists (length w). split_and!; try done.
    by apply rounds_consume_intro.
Qed.

Lemma duration_pattern_parts :
  p_regex EXPERIENCE_DURATION_PATTERN
  = SEQ (SUBPATTERN 1 NUMBER) (SEQ (star space) (SEQ (opt (chr "+")) (SEQ (star space) UNIT))).
Proof. reflexivity. Qed.

Lemma in_set_two a b c :
  in_set false [ichr a; ichr b] c = true → c = N_of_ascii a ∨ c = N_of_ascii b.
Proof.
  unfold in_set. cbn [existsb in_item ichr xorb]. rewrite orb_false_r.
  intros [?%N.eqb_eq|?%N.eqb_eq]%orb_true_iff; auto.
Qed.

Lemma unit_inv cu gs cu' gs' :
  matches false UNIT cu gs cu' gs' →
  ∃ u, u ∈ unit_words ∧ rest cu = u ++ rest cu' ∧ gs' = gs.
Proof.
  unfold UNIT. cbn [alt seq matches].
  intros [(cu1 & gs1 & (c & Hc & E1 & ->)%consume_word & [E2 ->]%matches_lits_inv)
         |[(cu1 & gs1 & (c & Hc & E1 & ->)%consume_word & [E2 ->]%matches_lits_inv)
          |(cu1 & gs1 & (c & Hc & E1 & ->)%consume_word & cu2 & gs2
            & [E2 ->]%matches_lits_inv & H3)]].
  - exists (c :: py "ears"). rewrite E1, E2. split_and!; [|done..].
    apply in_set_two in Hc as [-> | ->]; unfold unit_words; set_solver.
  - exists (c :: py "ear"). rewrite E1, E2. split_and!; [|done..].
    apply in_set_two in Hc as [-> | ->]; unfold unit_words; set_solver.
  - apply (matches_repeat_consume false true 0 (Some 1) (chr "s") _ _ _ _ _ eq_refl) in H3
      as (w & _ & Hw1 & Hw & E3 & _ & ->).
    exists (c :: py "onth" ++ w). rewrite E1, E2, E3. split_and!; [|done..].
    destruct w as [|s [|]]; cbn [within length] in Hw1; [| |lia].
    + apply in_set_two in Hc as [-> | ->]; unfold unit_words; set_solver.
    + apply Forall_cons in Hw as [Hs%N.eqb_eq _]. subst s.
      apply in_set_two in Hc as [-> | ->]; unfold unit_words; set_solver.
Qed.

Lemma repeat_consume_intro ic g lo hi r p w cu gs rst :
  matches ic r = consume p →
  lo ≤ length w → within (length w) hi → Forall (λ c, p c = true) w →
  rest cu = w ++ rst →
  matches ic (REPEAT g lo hi r) cu gs (after cu w rst) gs.
Proof.
  intros Hr Hlo Hhi Hw E. apply (matches_repeat_consume _ _ _ _ _ _ _ _ _ _ Hr).
  exists w. by split_and!.
Qed.

Lemma one_char_intro ic r p c cu gs rst :
  matches ic r = consume p → p c = true → rest cu = c :: rst →
  matches ic r cu gs (after cu [c] rst) gs.
Proof.
  intros -> Hc E. exists c, rst. split_and!; try done.
  unfold after. cbn [length]. f_equal; [lia|]. by rewrite last_snoc.
Qed.

Lemma consume_intro p c cu gs rst :
  rest cu = c :: rst → p c = true → consume p cu gs (after cu [c] rst) gs.
Proof.
  intros E Hc. exists c, rst. split_and!; try done.
  unfold after. cbn [length]. f_equal; [lia|]. by rewrite last_snoc.
Qed.

Lemma opt_char_intro c w cu gs rst :
  w = [] ∨ w = [N_of_ascii c] → rest cu = w ++ rst →
  matches false (opt (chr c)) cu gs (after cu w rst) gs.
Proof.
  intros Hw E. apply (repeat_consume_intro false true 0 (Some 1) (chr c)
           (literal_match false (N_of_ascii c)) w cu gs rst eq_refl);
    destruct Hw as [-> | ->]; cbn; auto using N.eqb_refl.
Qed.

Lemma seq_intro ic r1 r2 cu gs cu1 gs1 cu' gs' :
  matches ic r1 cu gs cu1 gs1 → matches ic r2 cu1 gs1 cu' gs' →
  matches ic (SEQ r1 r2) cu gs cu' gs'.
Proof. intros. by exists cu1, gs1. Qed.

Lemma class_lits_intro items c s cu gs rst :
  in_set false items c = true → rest cu = (c :: py s) ++ rst →
  matches false (SEQ (IN false items) (lits s)) cu gs (after cu (c :: py s) rst) gs.
Proof.
  intros Hc E. apply (seq_intro _ _ _ _ _ (after cu [c] (py s ++ rst)) gs).
  - by apply consume_intro.
  - change (c :: py s) with ([c] ++ py s). rewrite <- after_app.
    by apply matches_lits_intro.
Qed.

Lemma class_lits_opt_intro items c s o w cu gs rst :
  in_set false items c = true → w = [] ∨ w = [N_of_ascii o] →
  rest cu = (c :: py s ++ w) ++ rst →
  matches false (SEQ (IN false items) (SEQ (lits s) (opt (chr o)))) cu gs
    (after cu (c :: py s ++ w) rst) gs.
Proof.
  intros Hc Hw E. apply (seq_intro _ _ _ _ _ (after cu [c] ((py s ++ w) ++ rst)) gs).
  - by apply consume_intro.
  - change (c :: py s ++ w) with ([c] ++ (py s ++ w)). rewrite <- after_app.
    apply (seq_intro _ _ _ _ _ (after (after cu [c] ((py s ++ w) ++ rst)) (py s) (w ++ rst)) gs).
    + apply matches_lits_intro. by rewrite <- app_assoc.
    + rewrite <- after_app. by apply opt_char_intro.
Qed.

Lemma unit_intro u cu gs rst :
  u ∈ unit_words → rest cu = u ++ rst → matches false UNIT cu gs (after cu u rst) gs.
Proof.
  unfold unit_words, UNIT. rewrite !elem_of_cons, elem_of_nil. cbn [alt seq].
  intros [->|[->|[->|[->|[->|[->|[->|[->|[]]]]]]]]] E.
  - left. by apply (class_lits_intro _ 121%N "ears").
  - left. by apply (class_lits_intro _ 89%N "ears").
  - right; left. by apply (class_lits_intro _ 121%N "ear").
  - right; left. by apply (class_lits_intro _ 89%N "ear").
  - right; right. by apply (class_lits_opt_intro _ 109%N "onth" "s" (py "s")); auto.
  - right; right. by apply (class_lits_opt_intro _ 77%N "onth" "s" (py "s")); auto.
  - right; right. by apply (class_lits_opt_intro _ 109%N "onth" "s" []); auto.
  - right; right. by apply (class_lits_opt_intro _ 77%N "onth" "s" []); auto.
Qed.

Lemma digits_inv cu gs cu' gs' :
  matches false (plus digit) cu gs cu' gs' →
  ∃ w, digits w ∧ rest cu = w ++ rest cu' ∧ gs' = gs.
Proof.
  intros H.
  apply (matches_repeat_consume false true 1 None digit (in_category DIGIT) _ _ _ _ eq_refl) in H
    as (w & Hlo & _ & Hw & E & _ & ->).
  exists w. split_and!; [split|..]; try done. intros ->. simpl in Hlo. lia.
Qed.

Lemma digits_intro w cu gs rst :
  digits w → rest cu = w ++ rst → matches false (plus digit) cu gs (after cu w rst) gs.
Proof.
  intros [Hne Hw] E.
  apply (repeat_consume_intro false true 1 None digit (in_category DIGIT) w cu gs rst eq_refl);
    try done. destruct w; [done|simpl; lia].
Qed.

Lemma spaces_inv cu gs cu' gs' :
  matches false (star space) cu gs cu' gs' →
  ∃ w, Forall (λ c, is_space c = true) w ∧ rest cu = w ++ rest cu' ∧ gs' = gs.
Proof.
  intros H.
  apply (matches_repeat_consume false true 0 None space (in_category SPACE_) _ _ _ _ eq_refl) in H
    as (w & _ & _ & Hw & E & _ & ->).
  by exists w.
Qed.

Lemma spaces_intro w cu gs rst :
  Forall (λ c, is_space c = true) w → rest cu = w ++ rst →
  matches false (star space) cu gs (after cu w rst) gs.
Proof.
  intros Hw E.
  apply (repeat_consume_intro false true 0 None space (in_category SPACE_) w cu gs rst eq_refl);
    try done. lia.
Qed.

Lemma opt_char_inv c cu gs cu' gs' :
  matches false (opt (chr c)) cu gs cu' gs' →
  ∃ w, (w = [] ∨ w = [N_of_ascii c]) ∧ rest cu = w ++ rest cu' ∧ gs' = gs.
Proof.
  intros H.
  apply (matches_repeat_consume false true 0 (Some 1) (chr c)
           (literal_match false (N_of_ascii c)) _ _ _ _ eq_refl) in H
    as (w & _ & Hhi & Hw & E & _ & ->).
  exists w. split_and!; try done. destruct w as [|x [|]]; cbn [within length] in Hhi; [by left| |lia].
  right. apply Forall_cons in Hw as [Hx%N.eqb_eq _]. by subst.
Qed.

Lemma number_inv cu gs cu' gs' :
  matches false NUMBER cu gs cu' gs' →
  ∃ num, decimal_number num ∧ rest cu = num ++ rest cu' ∧ gs' = gs.
Proof.
  unfold NUMBER. cbn [seq]. intros (cu1 & gs1 & (ip & Hip & E1 & ->)%digits_inv & H).
  destruct H as (n & _ & Hn & H). cbn [within] in Hn. destruct n as [|[|n]]; [| |lia].
  - destruct H as [-> ->]. exists ip. split_and!; try done.
    exists ip, []. rewrite app_nil_r. auto.
  - destruct H as (cu2 & gs2 & (cu3 & gs3 & (c & Hc & E2 & ->)%consume_word
                                 & (fp & Hfp & E3 & ->)%digits_inv) & _ & -> & ->).
    apply N.eqb_eq in Hc. subst c.
    exists (ip ++ 46%N :: fp). split_and!; [|by rewrite E1, E2, E3, <- app_assoc|done].
    exists ip, (46%N :: fp). split_and!; [done..|]. right. by exists fp.
Qed.

Lemma number_intro num cu gs rst :
  decimal_number num → rest cu = num ++ rst →
  matches false NUMBER cu gs (after cu num rst) gs.
Proof.
  intros (ip & frac & Hip & -> & Hfrac) E. unfold NUMBER. cbn [seq].
  rewrite <- app_assoc in E. rewrite <- after_app.
  eapply seq_intro; [by apply digits_intro|].
  set (cu1 := after cu ip (frac ++ rst)).
  destruct Hfrac as [->|(fp & Hfp & ->)].
  - exists 0. split_and!; [lia|cbn; lia|]. cbn [rounds]. split; [|done].
    apply (after_nil cu1).
  - exists 1. split_and!; [lia|cbn; lia|]. cbn [rounds].
    exists (after cu1 (46%N :: fp) rst), gs. split; [|split; [simpl; lia|done]].
    change (46%N :: fp) with ([46%N] ++ fp). rewrite <- after_app.
    eapply seq_intro.
    + apply consume_intro; [done|apply N.eqb_refl].
    + by apply digits_intro.
Qed.

(** The duration pattern matches the duration phrases, and group 1 is the
    number. *)
Lemma duration_inv cu gs cu' gs' :
  matches false (p_regex EXPERIENCE_DURATION_PATTERN) cu gs cu' gs' →
  ∃ num w, duration_phrase num w ∧ rest cu = w ++ rest cu'
           ∧ gs' = <[1 := (pos cu, pos cu + length num)]> gs.
Proof.
  rewrite duration_pattern_parts.
  intros (cu1 & gs1 & (gs0 & N & ->) & cu2 & gs2 & (ws1 & H1 & E1 & ->)%spaces_inv
          & cu3 & gs3 & (sign & Hs & E2 & ->)%opt_char_inv
          & cu4 & gs4 & (ws2 & H2 & E3 & ->)%spaces_inv & (unit & Hu & E4 & ->)%unit_inv).
  pose proof N as N'. apply number_inv in N as (num & Hnum & E0 & ->).
  apply matches_advances in N' as (num' & E0' & P & _).
  assert (num' = num) as -> by (rewrite E0 in E0'; by apply app_inv_tail in E0').
  exists num, (num ++ ws1 ++ sign ++ ws2 ++ unit). split_and!.
  - exists ws1, sign, ws2, unit. by split_and!.
  - rewrite E0, E1, E2, E3, E4. by rewrite <- !app_assoc.
  - by rewrite P.
Qed.

Lemma duration_intro num w cu gs rst :
  duration_phrase num w → rest cu = w ++ rst →
  matches false (p_regex EXPERIENCE_DURATION_PATTERN) cu gs (after cu w rst)
    (<[1 := (pos cu, pos cu + length num)]> gs).
Proof.
  intros (ws1 & sign & ws2 & unit & -> & Hnum & H1 & Hs & H2 & Hu) E.
  rewrite duration_pattern_parts. rewrite <- !app_assoc in E.
  rewrite <- !after_app. rewrite <- !app_assoc.
  eapply seq_intro.
  { exists gs. split; [by apply number_intro|]. by rewrite after_pos. }
  eapply (seq_intro _ _ _ _ _ (after _ ws1 (sign ++ ws2 ++ unit ++ rst)));
    [by apply spaces_intro|].
  eapply (seq_intro _ _ _ _ _ (after _ sign (ws2 ++ unit ++ rst)));
    [by apply opt_char_intro|].
  eapply (seq_intro _ _ _ _ _ (after _ ws2 (unit ++ rst))); [by apply spaces_intro|].
  by apply unit_intro.
Qed.

Lemma duration_phrase_nonempty num w : duration_phrase num w → w ≠ [].
Proof.
  intros (ws1 & sign & ws2 & unit & -> & (ip & frac & [Hip _] & -> & _) & _) E.
  destruct ip; [done|]. discriminate.
Qed.

Lemma substr_prefix (s : str) i w r : drop i s = w ++ r → substr s i (i + length w) = w.
Proof.
  intros E. unfold substr. rewrite <- take_drop_commute, E. by rewrite take_app_length.
Qed.

Lemma duration_at_matches text i :
  duration_at text i →
  i ≤ length text ∧ ∃ j gs, matches_span EXPERIENCE_DURATION_PATTERN text i j gs.
Proof.
  intros (num & w & rst & Hw & E).
  assert (Hi : i ≤ length text).
  { destruct (decide (i ≤ length text)); [done|]. rewrite drop_ge in E by lia.
    symmetry in E. apply app_eq_nil in E as [-> _]. by apply duration_phrase_nonempty in Hw. }
  split; [done|].
  assert (Hr : rst = drop (i + length w) text).
  { rewrite <- drop_drop, E. by rewrite drop_app_length. }
  exists (i + length w), (<[1 := (i, i + length num)]> ∅). unfold matches_span.
  rewrite <- (cursor_at_after text i w) by (try rewrite <- Hr; done). rewrite <- Hr.
  by apply (duration_intro num w (cursor_at text i) ∅ rst).
Qed.

Lemma run_seq_sound ic r1 r2 cu gs k m :
  run ic (SEQ r1 r2) cu gs k = Some m →
  ∃ cu1 gs1, matches ic r1 cu gs cu1 gs1 ∧ run ic r2 cu1 gs1 k = Some m.
Proof. cbn [run]. by intros (cu1 & gs1 & H1 & H2)%run_sound; eauto. Qed.

(** A greedy optional character before the end of the pattern is taken
    when it is there. *)
Lemma run_opt_char c cu gs e g :
  run false (opt (chr c)) cu gs accept = Some (e, g) →
  g = gs ∧ ∃ w post, rest cu = w ++ post ∧ e = pos cu + length w
    ∧ (w = [] ∨ w = [N_of_ascii c])
    ∧ (w = [] → head (rest cu) ≠ Some (N_of_ascii c)).
Proof.
  unfold opt, chr. cbn [run]. destruct cu as [i pv [|x t]]; cbn [rest length repeat_loop pos].
  - intros [= <- <-]. split; [done|]. exists [], []. split_and!; [done|simpl; lia|by left|done].
  - cbn [below one rest Nat.ltb Nat.leb pos]. unfold literal_match.
    destruct (N.eqb_spec (N_of_ascii c) x) as [<-|Hne].
    + rewrite decide_True by lia. 
      assert (E : ∀ f, repeat_loop (run false (LITERAL (N_of_ascii c))) true 0 (Some 1) accept f 1
                 (Cursor (S i) (Some (N_of_ascii c)) t) gs = Some (S i, gs)).
      { intros [|f]; reflexivity. }
      rewrite E. cbn. intros [= <- <-]. split; [done|]. exists [N_of_ascii c], t.
      split_and!; [done|simpl; lia|by right|done].
    + cbn. intros [= <- <-]. split; [done|]. exists [], (x :: t).
      split_and!; [done|simpl; lia|by left|]. intros _ [= ?]. done.
Qed.

Lemma run_accept ic r cu gs e g :
  run ic r cu gs accept = Some (e, g) →
  ∃ w post, rest cu = w ++ post ∧ e = pos cu + length w
            ∧ matches ic r cu gs (after cu w post) g.
Proof.
  intros (cu' & gs' & M & [= <- <-])%run_sound.
  destruct (matches_after _ _ _ _ _ _ M) as (w & E & Ecu).
  exists w, (rest cu'). split_and!; [done| |by rewrite <- Ecu].
  apply (f_equal pos) in Ecu. by rewrite after_pos in Ecu.
Qed.

Lemma run_accept_None ic r cu gs :
  run ic r cu gs accept = None → ∀ cu' gs', ¬ matches ic r cu gs cu' gs'.
Proof. intros H cu' gs' M. by pose proof (run_complete _ _ _ _ _ H _ _ M). Qed.

Lemma run_branch ic r1 r2 cu gs k :
  run ic (BRANCH r1 r2) cu gs k
  = match run ic r1 cu gs k with Some m => Some m | None => run ic r2 cu gs k end.
Proof. reflexivity. Qed.

Lemma class_lits_inv items s cu gs cu' gs' :
  matches false (SEQ (IN false items) (lits s)) cu gs cu' gs' →
  ∃ c, in_set false items c = true ∧ rest cu = (c :: py s) ++ rest cu' ∧ gs' = gs.
Proof.
  intros (cu1 & gs1 & (c & Hc & E1 & ->)%consume_word & [E2 ->]%matches_lits_inv).
  exists c. by rewrite E1, E2.
Qed.

(** A word that starts with one of two letters and goes on with [s]. *)
Lemma run_class_lits a b s cu gs e g :
  run false (SEQ (IN false [ichr a; ichr b]) (lits s)) cu gs accept = Some (e, g) →
  ∃ c post, (c = N_of_ascii a ∨ c = N_of_ascii b) ∧ rest cu = (c :: py s) ++ post
            ∧ e = pos cu + length (c :: py s) ∧ g = gs.
Proof.
  intros (w & post & E & -> & (c & Hc & E' & ->)%class_lits_inv)%run_accept.
  rewrite after_rest, E in E'. apply app_inv_tail in E'. subst w.
  exists c, post. split_and!; try done. by apply in_set_two.
Qed.

Lemma run_class_lits_None a b s cu gs c post :
  run false (SEQ (IN false [ichr a; ichr b]) (lits s)) cu gs accept = None →
  c = N_of_ascii a ∨ c = N_of_ascii b → rest cu ≠ (c :: py s) ++ post.
Proof.
  intros H Hc E. eapply (run_accept_None _ _ _ _ H), (class_lits_intro _ c s cu gs post); [|done].
  unfold in_set. cbn [existsb in_item ichr xorb]. rewrite orb_false_r.
  apply orb_true_iff. destruct Hc as [-> | ->]; [left|right]; apply N.eqb_refl.
Qed.

Ltac unit_cases Hu :=
  unfold unit_words in Hu;
  repeat (apply elem_of_cons in Hu as [->|Hu]); [..|by apply elem_of_nil in Hu].

(** Of the unit words that start at the cursor, the pattern takes the
    longest. *)
Lemma unit_run cu gs e g :
  run false UNIT cu gs accept = Some (e, g) →
  ∃ u post, u ∈ unit_words ∧ rest cu = u ++ post ∧ e = pos cu + length u ∧ g = gs
    ∧ ∀ u', u' ∈ unit_words → u' `prefix_of` rest cu → length u' ≤ length u.
Proof.
  unfold UNIT. cbn [alt seq]. rewrite !run_branch.
  destruct (run false (SEQ _ (lits "ears")) cu gs accept) as [[e1 g1]|] eqn:EA.
  { intros [= -> ->]. apply run_class_lits in EA as (c & post & Hc & E & -> & ->).
    exists (c :: py "ears"), post. split_and!; try done.
    - destruct Hc as [-> | ->]; unfold unit_words; set_solver.
    - intros u' Hu' [k Hk]. rewrite E in Hk. unit_cases Hu'; try (cbn; lia);
        destruct Hc as [-> | ->]; discriminate Hk. }
  destruct (run false (SEQ _ (lits "ear")) cu gs accept) as [[e1 g1]|] eqn:EB.
  { intros [= -> ->]. apply run_class_lits in EB as (c & post & Hc & E & -> & ->).
    exists (c :: py "ear"), post. split_and!; try done.
    - destruct Hc as [-> | ->]; unfold unit_words; set_solver.
    - intros u' Hu' [k Hk]. unit_cases Hu'; try (cbn; lia); exfalso.
      1: by apply (run_class_lits_None _ _ _ _ _ 121%N k EA); [left|].
      1: by apply (run_class_lits_None _ _ _ _ _ 89%N k EA); [right|].
      all: rewrite E in Hk; destruct Hc as [-> | ->]; discriminate Hk. }
  intros (cu1 & gs1 & M1 & (cu2 & gs2 & M2 & H3)%run_seq_sound)%run_seq_sound.
  destruct (matches_advances _ _ _ _ _ _ M1) as (w1 & Ew1 & P1 & _).
  destruct (matches_advances _ _ _ _ _ _ M2) as (w2 & Ew2 & P2 & _).
  apply consume_word in M1 as (c & Hc%in_set_two & E1 & ->).
  apply matches_lits_inv in M2 as [E2 ->].
  rewrite E1 in Ew1. rewrite E2 in Ew2. apply (app_inv_tail _ [c]) in Ew1.
  apply app_inv_tail in Ew2. subst w1 w2.
  apply run_opt_char in H3 as (-> & w & post & E3 & -> & Hw & Hmax).
  exists (c :: py "onth" ++ w), post. split_and!; try done.
  - destruct Hw as [-> | ->], Hc as [-> | ->]; unfold unit_words; set_solver.
  - rewrite E1, E2, E3. cbn [app]. by rewrite app_assoc.
  - rewrite P2, P1. change (py "onth") with [111; 110; 116; 104]%N. cbn [length app]. lia.
  - intros u' Hu' [k Hk]. rewrite E1, E2 in Hk.
    unit_cases Hu'; try (rewrite length_cons, length_app; cbn; lia);
      try (destruct Hc as [-> | ->]; discriminate Hk).
    all: destruct Hw as [-> | ->]; [|cbn; lia]; exfalso; apply Hmax; [done|].
    all: injection Hk as _ Hk; by rewrite Hk.
Qed.

(** What comes before the unit word in a duration phrase has no such
    letter, so the place where the unit word starts is determined. *)
Lemma prefix_unique (Q : char → Prop) (p p' x x' : str) :
  Forall (λ c, ¬ Q c) p → Forall (λ c, ¬ Q c) p' →
  (∃ c t, x = c :: t ∧ Q c) → (∃ c t, x' = c :: t ∧ Q c) →
  p ++ x = p' ++ x' → p = p' ∧ x = x'.
Proof.
  intros Hp. revert p'. induction Hp as [|a p Ha Hp IH]; intros [|a' p'] Hp' Hx Hx' E.
  - done.
  - destruct Hx as (c & t & -> & Hc). apply Forall_cons in Hp' as [Ha' _].
    simpl in E. by injection E as -> _.
  - destruct Hx' as (c & t & -> & Hc). simpl in E. by injection E as -> _.
  - apply Forall_cons in Hp' as [_ Hp']. simpl in E. injection E as -> E.
    by destruct (IH p' Hp' Hx Hx' E) as [-> ->].
Qed.

Lemma unit_word_initial u : u ∈ unit_words → ∃ c t, u = c :: t ∧ unit_initial c.
Proof.
  intros Hu. unit_cases Hu; eexists _, _; (split; [reflexivity|]);
    unfold unit_initial; rewrite !elem_of_cons; auto.
Qed.

Lemma digit_not_initial c : is_digit c = true → ¬ unit_initial c.
Proof.
  unfold unit_initial. rewrite !elem_of_cons, elem_of_nil.
  intros H [->|[->|[->|[->|[]]]]]; discriminate H.
Qed.

Lemma space_not_initial c : is_space c = true → ¬ unit_initial c.
Proof.
  unfold unit_initial. rewrite !elem_of_cons, elem_of_nil.
  intros H [->|[->|[->|[->|[]]]]]; discriminate H.
Qed.

Lemma number_not_initial num : decimal_number num → Forall (λ c, ¬ unit_initial c) num.
Proof.
  intros (ip & frac & [_ Hip] & -> & Hfrac). apply Forall_app. split.
  - eapply Forall_impl; [exact Hip|]. apply digit_not_initial.
  - destruct Hfrac as [->|(fp & [_ Hfp] & ->)]; [done|]. apply Forall_cons. split.
    + unfold unit_initial. rewrite !elem_of_cons, elem_of_nil.
      intros [E|[E|[E|[E|[]]]]]; discriminate E.
    + eapply Forall_impl; [exact Hfp|]. apply digit_not_initial.
Qed.

Lemma before_unit_not_initial num ws1 sign ws2 :
  decimal_number num → Forall (λ c, is_space c = true) ws1 → sign = [] ∨ sign = [PLUS] →
  Forall (λ c, is_space c = true) ws2 →
  Forall (λ c, ¬ unit_initial c) (num ++ ws1 ++ sign ++ ws2).
Proof.
  intros Hnum H1 Hs H2. rewrite !Forall_app. split_and!.
  - by apply number_not_initial.
  - eapply Forall_impl; [exact H1|]. apply space_not_initial.
  - destruct Hs as [-> | ->]; [done|]. apply Forall_singleton.
    unfold unit_initial, PLUS. rewrite !elem_of_cons, elem_of_nil.
    intros [E|[E|[E|[E|[]]]]]; discriminate E.
  - eapply Forall_impl; [exact H2|]. apply space_not_initial.
Qed.

Lemma matches_pos ic r cu gs cu' gs' w :
  matches ic r cu gs cu' gs' → rest cu = w ++ rest cu' → pos cu' = pos cu + length w.
Proof.
  intros (w0 & E0 & P & _)%matches_advances E. rewrite E in E0.
  apply app_inv_tail in E0. by subst w0.
Qed.

(** Where a duration phrase starts, the pattern takes the longest one. *)
Lemma duration_run cu e gs :
  run false (p_regex EXPERIENCE_DURATION_PATTERN) cu ∅ accept = Some (e, gs) →
  ∃ num w post,
    duration_phrase num w ∧ rest cu = w ++ post ∧ e = pos cu + length w
    ∧ gs = <[1 := (pos cu, pos cu + length num)]> ∅
    ∧ ∀ num' w', duration_phrase num' w' → w' `prefix_of` rest cu → length w' ≤ length w.
Proof.
  intros H. pose proof H as H'.
  apply run_accept in H' as (w & post & E & -> & M).
  apply duration_inv in M as (num & w0 & Hw & E0 & ->).
  rewrite after_rest, E in E0. apply app_inv_tail in E0 as <-.
  exists num, w, post. split_and!; try done.
  rewrite duration_pattern_parts in H.
  apply run_seq_sound in H as (cu1 & gs1 & (gs0 & M0 & ->) & H).
  apply run_seq_sound in H as (cu2 & gs2 & M1 & H).
  apply run_seq_sound in H as (cu3 & gs3 & M2 & H).
  apply run_seq_sound in H as (cu4 & gs4 & M3 & H).
  apply unit_run in H as (u & post4 & Hu & E4 & Pe & _ & Hmax).
  destruct (number_inv _ _ _ _ M0) as (n0 & Hn0 & En & _).
  destruct (spaces_inv _ _ _ _ M1) as (ws1 & Hws1 & E1 & _).
  destruct (opt_char_inv _ _ _ _ _ M2) as (sign & Hsign & E2 & _).
  destruct (spaces_inv _ _ _ _ M3) as (ws2 & Hws2 & E3 & _).
  pose proof (matches_pos _ _ _ _ _ _ _ M0 En) as P0.
  pose proof (matches_pos _ _ _ _ _ _ _ M1 E1) as P1.
  pose proof (matches_pos _ _ _ _ _ _ _ M2 E2) as P2.
  pose proof (matches_pos _ _ _ _ _ _ _ M3 E3) as P3.
  set (p := n0 ++ ws1 ++ sign ++ ws2).
  assert (Hp : Forall (λ c, ¬ unit_initial c) p) by (by apply before_unit_not_initial).
  assert (Ep : rest cu = p ++ rest cu4).
  { unfold p. rewrite En, E1, E2, E3. by rewrite <- !app_assoc. }
  assert (Pp : pos cu4 = pos cu + length p).
  { unfold p. rewrite P3, P2, P1, P0, !length_app. lia. }
  assert (Lw : length w = length p + length u) by lia.
  intros num' w' (ws1' & sign' & ws2' & u' & -> & Hnum' & H1' & Hs' & H2' & Hu') [k Hk].
  rewrite Ep in Hk.
  replace ((num' ++ ws1' ++ sign' ++ ws2' ++ u') ++ k)
    with ((num' ++ ws1' ++ sign' ++ ws2') ++ (u' ++ k)) in Hk by (by rewrite <- !app_assoc).
  apply (prefix_unique unit_initial) in Hk as [Hpp Hk].
  - rewrite !app_assoc, length_app, <- !app_assoc, <- Hpp, Lw.
    assert (length u' ≤ length u); [|lia]. apply Hmax; [done|]. by exists k.
  - done.
  - by apply before_unit_not_initial.
  - destruct (unit_word_initial u Hu) as (c & t & -> & Hc). rewrite E4. by exists c, (t ++ post4).
  - destruct (unit_word_initial u' Hu') as (c & t & -> & Hc). by exists c, (t ++ k).
Qed.

(** C7 (as amended).  [extract_experience_duration] looks for the first
    offset at which a duration phrase starts: a number with an optional
    decimal part, white space, an optional plus sign, white space and one
    of the unit words year, years, month, months, whose first letter alone
    may be a capital.  It returns the value of the number as a float and
    the longest phrase that starts there, with its newlines replaced by
    spaces; when no phrase starts anywhere it returns the integer 0 and the
    string "0". *)
Theorem extract_experience_duration_first_phrase (text : str) :
  (∃ pre num w post,
     text = pre ++ w ++ post ∧ duration_phrase num w
     ∧ (∀ i, i < length pre → ¬ duration_at text i)
     ∧ (∀ num' w', duration_phrase num' w' → w' `prefix_of` w ++ post →
                   length w' ≤ length w)
     ∧ extract_experience_duration text
       = (Float (float_of num), str_replace [NL] [SPACE] w))
  ∨ ((∀ i, ¬ duration_at text i)
     ∧ extract_experience_duration text = (Int 0, py "0")).
Proof.
  unfold extract_experience_duration.
  destruct (search EXPERIENCE_DURATION_PATTERN text) as [m|] eqn:E.
  - left. pose proof (search_match_at _ _ _ E) as R.
    apply search_Some in E as (Hs & Hse & He & _ & Hleft).
    apply duration_run in R as (num & w & post & Hw & Ew & Pe & Hgs & Hmax).
    cbn [rest pos cursor_at] in Ew, Pe, Hgs, Hmax.
    exists (take (m_start m) text), num, w, post. split_and!.
    + by rewrite <- Ew, take_drop.
    + done.
    + intros i Hlt (_ & j & gs & Mi)%duration_at_matches. rewrite length_take in Hlt.
      apply (Hleft i j gs); [lia|done].
    + intros num' w' Hw'. rewrite <- Ew. by apply (Hmax num').
    + f_equal; [f_equal|].
      * unfold group. rewrite Hgs, lookup_insert_eq, Hs. f_equal.
        destruct Hw as (ws1 & sign & ws2 & unit & Hw & _). rewrite Hw, <- app_assoc in Ew.
        by apply substr_prefix in Ew.
      * unfold group, group0. rewrite Hs, Pe. f_equal. by apply substr_prefix in Ew.
  - right. split; [|done]. intros i (Hi & j & gs & M)%duration_at_matches.
    by apply (search_None _ _ E i j gs Hi).
Qed.

End DurationWords.

(** C7, counterexample: a unit word in capitals is not recognised, the
    default pair comes back. *)
Lemma capital_unit_not_matched :
  @extract_experience_duration ascii_only (py "5 YEARS") = (Int 0, py "0").
Proof. vm_compute. reflexivity. Qed.

(** ** Phone spans *)
Section PhoneSpans.
Context `{UD : unicode_db}.
Import re.

Lemma phone_pattern_intro sign code sep ten cu rst :
  phone_span sign code sep ten →
  rest cu = sign ++ code ++ sep ++ ten ++ rst →
  matches false (p_regex PHONE_PATTERN) cu ∅
    (after cu (sign ++ code ++ sep ++ ten) rst)
    {[1 := (pos cu, pos cu + length (sign ++ code ++ sep ++ ten))]}.
Proof.
  intros (Hsign & Hcode & Fcode & Hsep & Hten & Ften) E.
  unfold PHONE_PATTERN. cbn [p_regex seq]. exists ∅. split; [|by rewrite after_pos].
  rewrite <- !after_app.
  eapply (seq_intro _ _ _ _ _ (after _ sign (code ++ sep ++ ten ++ rst)));
    [by apply opt_char_intro|].
  eapply (seq_intro _ _ _ _ _ (after _ code (sep ++ ten ++ rst))).
  { apply (repeat_consume_intro false true 0 (Some 3) digit (in_category DIGIT) code _ _ _ eq_refl);
      [lia|done|done|done]. }
  eapply (seq_intro _ _ _ _ _ (after _ sep (ten ++ rst))).
  { apply (repeat_consume_intro false true 0 (Some 1) (IN false [ichr "-"; ICat SPACE_])
             (in_set false [ichr "-"; ICat SPACE_]) sep _ _ _ eq_refl); [lia| | |done].
    - destruct Hsep as [->|(c & -> & _)]; cbn; lia.
    - destruct Hsep as [->|(c & -> & Hc)]; [done|]. apply Forall_singleton.
      unfold in_set. cbn [existsb in_item ichr xorb in_category]. rewrite orb_false_r.
      apply orb_true_iff. destruct Hc as [-> | Hc]; [by left|by right]. }
  apply (repeat_consume_intro false true 10 (Some 10) digit (in_category DIGIT) ten _ _ _ eq_refl);
    [lia|cbn; lia|done|done].
Qed.

Lemma phone_at_matches text i :
  phone_at text i → i ≤ length text ∧ ∃ j gs, matches_span PHONE_PATTERN text i j gs.
Proof.
  intros (sign & code & sep & ten & rst & Hw & E).
  set (w := sign ++ code ++ sep ++ ten).
  assert (Ew : drop i text = w ++ rst) by (unfold w; by rewrite <- !app_assoc).
  assert (Hne : w ≠ []).
  { intros Hnil. apply (f_equal length) in Hnil. unfold w in Hnil.
    rewrite !length_app in Hnil. destruct Hw as (_ & _ & _ & _ & Hten & _). simpl in Hnil. lia. }
  assert (Hi : i ≤ length text).
  { destruct (decide (i ≤ length text)); [done|]. rewrite drop_ge in Ew by lia.
    symmetry in Ew. by apply app_eq_nil in Ew as [? _]. }
  split; [done|].
  assert (Hr : rst = drop (i + length w) text).
  { rewrite <- drop_drop, Ew. by rewrite drop_app_length. }
  exists (i + length w), {[1 := (i, i + length w)]}. unfold matches_span.
  rewrite <- (cursor_at_after text i w) by (try rewrite <- Hr; done). rewrite <- Hr.
  by apply (phone_pattern_intro sign code sep ten (cursor_at text i) rst).
Qed.

Lemma extract_phone_shape text r :
  extract_phone text = Some r →
  ∃ pre sign code sep ten post,
    remove_pincode text = pre ++ sign ++ code ++ sep ++ ten ++ post
    ∧ phone_span sign code sep ten
    ∧ (∀ i, i < length pre → ¬ phone_at (remove_pincode text) i)
    ∧ r = let kept := sign ++ code ++ filter (λ c, c ∉ [HYPHEN; SPACE; NL]) sep in
          if decide (kept = []) then ten else kept ++ [SPACE] ++ ten.
Proof.
  unfold extract_phone. set (text' := remove_pincode text).
  destruct (search PHONE_PATTERN text') as [m|] eqn:E; [|done].
  apply search_Some in E as (Hs & Hse & He & M & Hleft).
  assert (Hi : m_start m ≤ length text') by lia.
  destruct (matches_span_word _ _ _ _ _ Hi M) as (_ & _ & Hsplit).
  pose proof M as M'. apply phone_pattern_word in M as (sign & code & sep & ten & Hw & Hsign & Hcode & Fcode & Hsep & Hten & Ften & Hgs).
  simpl in Hw, Hgs.
  assert (Hword : substr text' (m_start m) (m_end m) = sign ++ code ++ sep ++ ten).
  { destruct (matches_cursor_at _ _ _ _ _ _ _ Hi M') as (j' & Ej & Hj & Hd).
    assert (j' = m_end m) as -> by (by apply (f_equal pos) in Ej).
    rewrite Hw in Hd. rewrite !app_assoc in Hd. apply app_inv_tail in Hd.
    by rewrite <- Hd, <- !app_assoc. }
  assert (Hg : group m 1 = sign ++ code ++ sep ++ ten).
  { unfold group. rewrite Hgs, lookup_singleton_eq, Hs. done. }
  rewrite Hg. fold (strip_phone (sign ++ code ++ sep ++ ten)).
  rewrite !strip_phone_app, (strip_phone_digits code), (strip_phone_digits ten) by done.
  assert (Hsg : strip_phone sign = sign).
  { destruct Hsign as [->| ->]; [done|]. rewrite strip_phone_single.
    rewrite filter_cons_True; [done|]. rewrite !not_elem_of_cons. split_and!; [done..|apply not_elem_of_nil]. }
  assert (Hsp : strip_phone sep = filter (λ c, c ∉ [HYPHEN; SPACE; NL]) sep).
  { destruct Hsep as [->|(c & -> & _)]; [done|]. apply strip_phone_single. }
  rewrite Hsg, Hsp. set (sep' := filter _ sep).
  intros Hr. exists (take (m_start m) text'), sign, code, sep, ten, (drop (m_end m) text').
  split_and!; try done.
  { rewrite Hsplit at 1. rewrite Hword. by rewrite <- !app_assoc. }
  { intros i Hlt (_ & j & gs & Mi)%phone_at_matches. rewrite length_take in Hlt.
    apply (Hleft i j gs); [lia|done]. }
  cbn zeta. fold sep'. rewrite !app_assoc in Hr. rewrite !app_assoc.
  set (kept := (sign ++ code) ++ sep') in *.
  unfold drop_last, take_last in Hr. rewrite length_app, Hten in Hr.
  replace (length kept + 10 - 10) with (length kept) in Hr by lia.
  rewrite take_app_length, drop_app_length in Hr.
  destruct (decide (kept = [])) as [Hk|Hk].
  - rewrite Hk in Hr. simpl in Hr. by inversion Hr.
  - destruct (10 <? length kept + 10) eqn:El.
    + by inversion Hr.
    + apply Nat.ltb_ge in El. destruct kept; [done|simpl in El; lia].
Qed.

(** C2 (as amended).  Whenever [extract_phone] returns a number, the text
    (after removal of the first pincode) holds a span made of an optional
    plus sign, up to three digits, an optional hyphen or white-space
    character and ten digits, and no such span starts before it.  The
    hyphen, the space and the newline are removed from the span, the plus
    sign and any other white space (a tab, say) are kept; if anything is
    left before the last ten digits it is rendered, followed by one space,
    before them, otherwise the ten digits are returned bare.  [None] is
    returned when no span starts anywhere, and only then.  In particular
    "+91 9876543210" gives "+91 9876543210" and "9876543210" gives
    "9876543210". *)
Theorem extract_phone_normalization :
  (∀ text r, extract_phone text = Some r →
     ∃ pre sign code sep ten post,
       remove_pincode text = pre ++ sign ++ code ++ sep ++ ten ++ post
       ∧ phone_span sign code sep ten
       ∧ (∀ i, i < length pre → ¬ phone_at (remove_pincode text) i)
       ∧ r = let kept := sign ++ code ++ filter (λ c, c ∉ [HYPHEN; SPACE; NL]) sep in
             if decide (kept = []) then ten else kept ++ [SPACE] ++ ten)
  ∧ (∀ text, extract_phone text = None ↔ ∀ i, ¬ phone_at (remove_pincode text) i)
  ∧ extract_phone (py "+91 9876543210") = Some (py "+91 9876543210")
  ∧ extract_phone (py "9876543210") = Some (py "9876543210").
Proof.
  split; [apply extract_phone_shape|]. split; [|split; vm_compute; reflexivity].
  intros text. split.
  - intros Hnone i (Hi & j & gs & M)%phone_at_matches. unfold extract_phone in Hnone.
    destruct (search PHONE_PATTERN (remove_pincode text)) as [m|] eqn:E.
    + by destruct (10 <? _) in Hnone.
    + by apply (search_None _ _ E i j gs Hi).
  - intros Hno. destruct (extract_phone text) as [r|] eqn:E; [|done].
    apply extract_phone_shape in E as (pre & sign & code & sep & ten & post & E & Hw & _).
    exfalso. apply (Hno (length pre)). exists sign, code, sep, ten, post.
    split; [done|]. by rewrite E, drop_app_length.
Qed.

End PhoneSpans.

(** C2, witness: the theorem at the text "call 91-9876543210". *)
Lemma extract_phone_normalization_witness :
  ∃ pre sign code sep ten post,
    @remove_pincode ascii_only (py "call 91-9876543210")
      = pre ++ sign ++ code ++ sep ++ ten ++ post
    ∧ @phone_span ascii_only sign code sep ten
    ∧ (∀ i, i < length pre → ¬ @phone_at ascii_only
                                   (@remove_pincode ascii_only (py "call 91-9876543210")) i)
    ∧ py "91 9876543210"
      = let kept := sign ++ code ++ filter (λ c, c ∉ [HYPHEN; SPACE; NL]) sep in
        if decide (kept = []) then ten else kept ++ [SPACE] ++ ten.
Proof.
  apply (proj1 (@extract_phone_normalization ascii_only) (py "call 91-9876543210")).
  vm_compute. reflexivity.
Defined.

(** C2, counterexample: on "+91 9876543210" the plus sign stays in the
    result, which therefore is not "91 9876543210". *)
Lemma extract_phone_keeps_plus :
  @extract_phone ascii_only (py "+91 9876543210") = Some (py "+91 9876543210")
  ∧ py "+91 9876543210" ≠ py "91 9876543210".
Proof. split; [vm_compute; reflexivity|discriminate]. Qed.

(** ** Cleaning of the long fields *)

Section CleanFacts.
Context `{UD : unicode_db}.
Import re.

(** A greedy repetition of a one-character step, followed by nothing, takes
    the longest prefix. *)
Lemma greedy_class_loop p lo (k : cont) :
  (∀ cu gs, k cu gs = Some (pos cu, gs)) →
  ∀ fuel cnt cu gs, length (rest cu) ≤ fuel →
  repeat_loop (one p) true lo None k fuel cnt cu gs
  = if decide (lo ≤ cnt + span_length p (rest cu))
    then Some (pos cu + span_length p (rest cu), gs) else None.
Proof.
  intros Hk. induction fuel as [|f IH]; intros cnt cu gs Hf.
  - destruct cu as [i pv [|c t]]; [|simpl in Hf; lia]. cbn [repeat_loop rest span_length pos].
    rewrite Hk. cbn [pos]. rewrite !Nat.add_0_r. by case_decide.
  - cbn [repeat_loop below]. destruct cu as [i pv [|c t]]; cbn [one rest span_length pos].
    + rewrite Hk. cbn [pos]. rewrite !Nat.add_0_r. by case_decide.
    + destruct (p c) eqn:Hc.
      * rewrite decide_True by (simpl; lia). rewrite IH by (simpl in *; lia).
        cbn [rest pos]. replace (S cnt + span_length p t) with (cnt + S (span_length p t)) by lia.
        replace (S i + span_length p t) with (i + S (span_length p t)) by lia.
        case_decide as Hlo; [done|]. rewrite decide_False by lia. done.
      * rewrite Hk. cbn [pos]. rewrite !Nat.add_0_r. by case_decide.
Qed.

Lemma in_set_non_ascii c : in_set true [IRange 0 127] c = non_ascii c.
Proof.
  unfold in_set, non_ascii, is_ascii. cbn [existsb in_item xorb]. rewrite orb_false_r.
  unfold in_range. destruct (N.ltb_spec c 128), (N.leb_spec 0 c), (N.leb_spec c 127);
    simpl; try done; lia.
Qed.

Lemma match_at_non_ascii cu :
  match_at NON_ASCII_RUN false cu
  = if decide (1 ≤ span_length non_ascii (rest cu))
    then Some (pos cu + span_length non_ascii (rest cu), ∅) else None.
Proof.
  unfold match_at, NON_ASCII_RUN, plus. cbn [p_regex p_ignorecase run andb].
  rewrite (greedy_class_loop (in_set true [IRange 0 127]) 1 _ (λ _ _, eq_refl)) by done.
  cbn [Nat.add]. assert (E : span_length (in_set true [IRange 0 127]) (rest cu)
                             = span_length non_ascii (rest cu)).
  { induction (rest cu) as [|c t IH]; [done|]. cbn [span_length].
    rewrite in_set_non_ascii, IH. done. }
  by rewrite E.
Qed.

Lemma scan_non_ascii subject : ∀ s i pv,
  scan NON_ASCII_RUN subject false i pv s
  = (λ '(a, b), Match subject a b ∅) <$> first_run i s.
Proof.
  induction s as [|c t IH]; intros i pv; cbn [scan first_run].
  - rewrite match_at_non_ascii. cbn [rest span_length]. by rewrite decide_False by lia.
  - rewrite match_at_non_ascii. cbn [rest span_length pos].
    pose proof (eq_refl : non_ascii c = negb (is_ascii c)) as Hn.
    destruct (non_ascii c); destruct (is_ascii c); try done.
    + rewrite decide_True by lia. cbn. do 2 f_equal. lia.
    + rewrite decide_False by lia. apply IH.
Qed.

Lemma span_length_split p s :
  Forall (λ c, p c = true) (take (span_length p s) s)
  ∧ match head (drop (span_length p s) s) with
    | Some c => p c = false
    | None => True
    end.
Proof.
  induction s as [|c t [IH1 IH2]]; [by split|]. cbn [span_length].
  destruct (p c) eqn:Hc; cbn [take drop head]; [|done]. split; [by constructor|done].
Qed.

Lemma first_run_None i s : first_run i s = None → Forall (λ c, is_ascii c = true) s.
Proof.
  revert i. induction s as [|c t IH]; intros i; [constructor|]. cbn [first_run].
  destruct (is_ascii c) eqn:A; [|done]. intros H. constructor; [done|by eapply IH].
Qed.

Lemma first_run_Some i s a b :
  first_run i s = Some (a, b) →
  ∃ pre run post,
    s = pre ++ run ++ post
    ∧ Forall (λ c, is_ascii c = true) pre
    ∧ run ≠ [] ∧ Forall (λ c, non_ascii c = true) run
    ∧ match head post with Some c => is_ascii c = true | None => True end
    ∧ a = i + length pre ∧ b = a + length run.
Proof.
  revert i. induction s as [|c t IH]; intros i; [done|]. cbn [first_run].
  destruct (is_ascii c) eqn:A.
  - intros (pre & run & post & -> & Hpre & Hne & Hrun & Hpost & -> & ->)%IH.
    exists (c :: pre), run, post. split_and!; try done; [by constructor|simpl; lia].
  - intros [= <- <-]. destruct (span_length_split non_ascii t) as [H1 H2].
    exists [], (c :: take (span_length non_ascii t) t), (drop (span_length non_ascii t) t).
    split_and!; try done.
    + by rewrite app_nil_l, <- app_comm_cons, take_drop.
    + constructor; [|done]. unfold non_ascii. by rewrite A.
    + destruct (head _) as [x|]; [|done]. unfold non_ascii in H2. by destruct (is_ascii x).
    + cbn [length]. rewrite length_take.
      assert (span_length non_ascii t ≤ length t); [|lia].
      clear. induction t as [|x t IH]; simpl; [lia|]. destruct (non_ascii x); simpl; lia.
Qed.

Lemma collapse_ascii pre r :
  Forall (λ c, is_ascii c = true) pre →
  collapse false (pre ++ r) = pre ++ collapse false r.
Proof. induction 1 as [|c pre Hc _ IH]; [done|]. cbn. by rewrite Hc, IH. Qed.

Lemma collapse_all_ascii s :
  Forall (λ c, is_ascii c = true) s → collapse false s = s.
Proof. induction 1 as [|c s Hc _ IH]; [done|]. cbn. by rewrite Hc, IH. Qed.

Lemma collapse_in_run run post :
  Forall (λ c, non_ascii c = true) run →
  match head post with Some c => is_ascii c = true | None => True end →
  collapse true (run ++ post) = collapse false post.
Proof.
  intros Hrun Hpost. induction Hrun as [|c run Hc _ IH].
  - destruct post as [|c post]; [done|]. simpl in *. by rewrite Hpost.
  - cbn. unfold non_ascii in Hc. destruct (is_ascii c); [done|]. apply IH.
Qed.

Lemma collapse_run run post :
  run ≠ [] → Forall (λ c, non_ascii c = true) run →
  match head post with Some c => is_ascii c = true | None => True end →
  collapse false (run ++ post) = SPACE :: collapse false post.
Proof.
  intros Hne Hrun Hpost. destruct Hrun as [|c run Hc Hrun]; [done|].
  cbn. unfold non_ascii in Hc. destruct (is_ascii c); [done|].
  f_equal. by apply collapse_in_run.
Qed.

Lemma sub_non_ascii_from (s : str) : ∀ n i fuel,
  length s - i ≤ n → i ≤ length s → n < fuel →
  sub_build [SPACE] s i (finditer_from fuel NON_ASCII_RUN s false i)
  = collapse false (drop i s).
Proof.
  induction n as [|n IH]; intros i [|f] Hn Hi Hf; try lia;
    cbn [finditer_from]; unfold scan_from; rewrite scan_non_ascii;
    destruct (first_run i (drop i s)) as [[a b]|] eqn:E; cbn [fmap option_fmap option_map sub_build].
  - apply first_run_Some in E as (pre & run & post & E & _ & Hne & _).
    apply (f_equal length) in E. rewrite length_drop, !length_app in E.
    destruct run; [done|]. simpl in E. lia.
  - apply first_run_None in E. by rewrite collapse_all_ascii.
  - apply first_run_Some in E as (pre & run & post & E & Hpre & Hne & Hrun & Hpost & -> & ->).
    cbn [m_start m_end].
    assert (Hlen : length (drop i s) = length pre + length run + length post)
      by (by rewrite E, !length_app, Nat.add_assoc).
    rewrite length_drop in Hlen.
    assert (Hr : 0 < length run) by (destruct run; [done|simpl; lia]).
    replace (i + length pre + length run =? i + length pre) with false
      by (symmetry; apply Nat.eqb_neq; lia).
    rewrite IH by lia.
    assert (Hsub : substr s i (i + length pre) = pre) by (by eapply substr_prefix).
    assert (Hpost' : drop (i + length pre + length run) s = post).
    { rewrite <- Nat.add_assoc, <- drop_drop, E, app_assoc, <- length_app.
      by rewrite drop_app_length. }
    rewrite Hsub, Hpost', E, collapse_ascii, collapse_run by done. done.
  - apply first_run_None in E. by rewrite collapse_all_ascii.
Qed.

(** [re.sub(r"[^\x00-\x7F]+", " ", s)] turns every maximal run of non-ASCII
    characters into one space. *)
Lemma sub_non_ascii s : sub NON_ASCII_RUN [SPACE] s = collapse_non_ascii s.
Proof.
  unfold sub, finditer, collapse_non_ascii.
  rewrite <- (drop_0 s) at 3. apply (sub_non_ascii_from s (length s)); lia.
Qed.

End CleanFacts.

Section RecordClean.
Context `{UD : unicode_db} `{PL : python_lib}.

Lemma collapse_is_ascii b s : Forall (λ c, is_ascii c = true) (collapse b s).
Proof.
  revert b. induction s as [|c s IH]; intros b; [constructor|]. cbn [collapse].
  destruct (is_ascii c) eqn:A; [by constructor|]. destruct b; [done|by constructor].
Qed.

Lemma str_lstrip_Forall (P : char → Prop) s : Forall P s → Forall P (str_lstrip s).
Proof.
  induction 1 as [|c s Hc Hs IH]; [done|]. cbn [str_lstrip].
  destruct (is_space c); [done|by constructor].
Qed.

Lemma str_strip_Forall (P : char → Prop) s : Forall P s → Forall P (str_strip s).
Proof.
  intros H. unfold str_strip, str_rstrip.
  apply List.Forall_rev, str_lstrip_Forall, List.Forall_rev. by apply str_lstrip_Forall.
Qed.

Lemma Return_inj {A} (a b : A) : Return a = Return b → a = b.
Proof. by intros [= ->]. Qed.

(** [remove_unrecognized_characters], in the words of the specification. *)
Lemma remove_unrecognized_characters_spec s :
  remove_unrecognized_characters (Some s)
  = if truthy s
    then Some (str_strip (map (λ c, if (c =? NL)%N then SPACE else c) (collapse_non_ascii s)))
    else None.
Proof.
  unfold remove_unrecognized_characters. destruct (truthy s); [|done].
  by rewrite sub_non_ascii, str_replace_map.
Qed.

Lemma remove_unrecognized_characters_clean x :
  clean (or_str (remove_unrecognized_characters x) []).
Proof.
  destruct x as [s|]; [|constructor]. rewrite remove_unrecognized_characters_spec.
  destruct (truthy s); [|constructor]. unfold or_str.
  set (r := str_strip _). assert (Hr : clean r); [|by destruct (truthy r); [|constructor]].
  apply str_strip_Forall, Forall_fmap. eapply Forall_impl; [apply collapse_is_ascii|].
  intros c Hc. cbn. destruct (N.eqb_spec c NL); [done|]. done.
Qed.

(** C9.  [remove_unrecognized_characters] replaces every maximal run of
    non-ASCII characters by one space and every newline by a space and
    strips the white space at both ends; in every assembled record the
    fields duration_string and summary of the experience entry and the
    field work_experience went through it, and contain neither a non-ASCII
    character nor a newline. *)
Theorem long_fields_clean :
  (∀ s, remove_unrecognized_characters (Some s)
        = if truthy s
          then Some (str_strip (map (λ c, if (c =? NL)%N then SPACE else c)
                                    (collapse_non_ascii s)))
          else None)
  ∧ ∀ text json_skills json_designations record,
      check_titles_and_extract_info text json_skills json_designations = Return record →
      ∃ experience duration summary work,
        field "experience" record = Some (PyList [experience])
        ∧ field "duration_string" experience = Some (PyStr duration)
        ∧ field "summary" experience = Some (PyStr summary)
        ∧ field "work_experience" record = Some (PyStr work)
        ∧ clean duration ∧ clean summary ∧ clean work.
Proof.
  split; [apply remove_unrecognized_characters_spec|].
  intros text json_skills json_designations record.
  unfold check_titles_and_extract_info.
  destruct (extract_name text json_designations) as [[firstName lastName]|e]; [|done].
  cbn [mbind result_bind].
  destruct (extract_summary_text text) as [summary|e]; [|done].
  destruct (extract_experience_duration text) as [amount duration].
  destruct (check_and_collect_skills text json_skills) as [skills|e]; [|done].
  cbn [mbind result_bind].
  destruct (check_and_collect_designation_ids text json_designations)
    as [[designations title]|e]; [|done].
  cbn [mbind result_bind].
  destruct (sorted_set skills) as [ss|e]; [|done].
  intros <-%Return_inj.
  match goal with |- context [PyDict ((_, ?n) :: (_, ?e) :: (_, ?p) :: (_, ?s) :: (_, ?d)
      :: (_, PyList [PyDict ((_, ?t) :: (_, ?a) :: (_, ?du) :: [(_, ?su)])]) :: [(_, ?w)])] =>
    destruct (record_fields n e p s d t a du su w)
      as (_ & _ & _ & _ & _ & Hw & ex & Hex & _ & _ & Hdu & Hsu)
  end.
  eexists ex, _, _, _. split_and!; [exact Hex|exact Hdu|exact Hsu|exact Hw|..];
    apply remove_unrecognized_characters_clean.
Qed.

End RecordClean.

(** C9, witness: the record of a text with a non-ASCII character and
    newlines in its work-experience section. *)
Lemma long_fields_clean_witness :
  ∃ experience duration summary work,
    field "experience"
      (PyDict
         [ (py "name", PyStr (py "Ana Lima")); (py "email", PyStr []); (py "phone", PyStr []);
           (py "skills", PyList [PyStr (py "React")]);
           (py "designation", PyList [PyStr (py "Engineer")]);
           (py "experience", PyList [ PyDict
              [ (py "title", PyStr (py "Engineer"));
                (py "amount_of_experience", PyNum (Float (2 # 1)));
                (py "duration_string", PyStr (py "2 years")); (py "summary", PyStr []) ] ]);
           (py "work_experience", PyStr (py "React  work 2 years")) ])
    = Some (PyList [experience])
    ∧ field "duration_string" experience = Some (PyStr duration)
    ∧ field "summary" experience = Some (PyStr summary)
    ∧ field "work_experience"
        (PyDict
           [ (py "name", PyStr (py "Ana Lima")); (py "email", PyStr []); (py "phone", PyStr []);
             (py "skills", PyList [PyStr (py "React")]);
             (py "designation", PyList [PyStr (py "Engineer")]);
             (py "experience", PyList [ PyDict
                [ (py "title", PyStr (py "Engineer"));
                  (py "amount_of_experience", PyNum (Float (2 # 1)));
                  (py "duration_string", PyStr (py "2 years")); (py "summary", PyStr []) ] ]);
             (py "work_experience", PyStr (py "React  work 2 years")) ])
      = Some (PyStr work)
    ∧ clean duration ∧ clean summary ∧ clean work.
Proof.
  apply (proj2 (@long_fields_clean ascii_only)
           (py "Ana Lima" ++ [NL] ++ py "Engineer" ++ [NL] ++ py "Experience" ++ [NL]
            ++ py "React" ++ [8211%N; NL] ++ py "work 2 years" ++ [NL] ++ py "Skills" ++ [NL])
           (Some [entry "title" "React"]) (Some [entry "designation" "Engineer"])).
  vm_compute. reflexivity.
Defined.

(** ** Record assembly *)

Section Preservation.
Context `{UD : unicode_db}.
Variable P : char → Prop.

Lemma replace_go_Forall old new s k :
  Forall P new → Forall P s → Forall P (replace_go old new s k).
Proof.
  intros Hn Hs. revert k. induction Hs as [|c s Hc Hs IH]; intros k; [done|].
  cbn [replace_go]. destruct k; [|apply IH].
  destruct (is_prefix old (c :: s)); [apply Forall_app; auto|by constructor].
Qed.

Lemma str_replace_Forall old new s :
  Forall P new → Forall P s → Forall P (str_replace old new s).
Proof.
  intros Hn Hs. unfold str_replace. destruct old; [|by apply replace_go_Forall].
  apply Forall_app. split; [done|]. induction Hs; simpl; [done|].
  constructor; [done|]. by apply Forall_app.
Qed.

Lemma foldl_replace_Forall new (links : list str) text :
  Forall P new → Forall P text →
  Forall P (foldl (λ text link, str_replace link new text) text links).
Proof.
  intros Hn. revert text. induction links as [|x l IH]; intros text Ht; [done|].
  cbn [foldl]. apply IH. by apply str_replace_Forall.
Qed.

Lemma substr_Forall s i j : Forall P s → Forall P (substr s i j).
Proof. intros H. by apply Forall_drop, Forall_take. Qed.

Lemma group_Forall m n : Forall P (re.m_string m) → Forall P (group m n).
Proof.
  intros H. unfold group, re.group0. destruct n; [by apply substr_Forall|].
  destruct (re.m_groups m !! S n) as [[a b]|]; [by apply substr_Forall|done].
Qed.

Lemma mask_contacts_Forall email phone s :
  Forall P (py "<email masked>") → Forall P (py "<phone no. masked>") →
  Forall P s → Forall P (mask_contacts email phone s).
Proof.
  intros He Hp Hs. unfold mask_contacts.
  repeat (match goal with |- context [if ?b then _ else _] => destruct b end);
    auto using str_replace_Forall.
Qed.

End Preservation.

Section Decoding.
Context `{UD : unicode_db}.

Lemma utf8_encode_char_plain c :
  plain_char c → ∃ bytes, utf8_encode_char c = Some bytes ∧ Forall (λ b, b ≠ BACKSLASH) bytes.
Proof.
  intros (Hb & Hmax & Hsur). unfold utf8_encode_char, BACKSLASH in *.
  destruct (N.ltb_spec c 128); [eexists; split; [done|by repeat constructor]|].
  assert (Hbytes : ∀ k (x : N), (128 ≤ k)%N → (k + x)%N ≠ 92%N) by (intros; lia).
  destruct (N.ltb_spec c 2048).
  { eexists; split; [done|]. repeat constructor; by apply Hbytes. }
  destruct (N.ltb_spec c 65536).
  { unfold in_range. destruct (N.leb_spec 55296 c), (N.leb_spec c 57343); cbn [andb];
      try (eexists; split; [done|]; repeat constructor; by apply Hbytes). lia. }
  destruct (N.ltb_spec c 1114112); [|lia].
  eexists; split; [done|]. repeat constructor; by apply Hbytes.
Qed.

Lemma utf8_encode_plain s :
  Forall plain_char s → ∃ bytes, utf8_encode s = Some bytes ∧ Forall (λ b, b ≠ BACKSLASH) bytes.
Proof.
  induction 1 as [|c s Hc _ (bs & E & Hbs)]; [by exists []|]. cbn [utf8_encode].
  destruct (utf8_encode_char_plain c Hc) as (b & Eb & Hb). rewrite Eb, E.
  eexists. split; [done|]. by apply Forall_app.
Qed.

Lemma unicode_escape_go_plain fuel bytes :
  Forall (λ b, b ≠ BACKSLASH) bytes → length bytes ≤ fuel →
  unicode_escape_go fuel bytes = Return bytes.
Proof.
  intros H. revert fuel. induction H as [|b bytes Hb _ IH]; intros [|f] Hf; try done.
  - simpl in Hf. lia.
  - cbn [unicode_escape_go]. apply N.eqb_neq in Hb. rewrite Hb. cbn [negb].
    rewrite IH by (simpl in Hf; lia). done.
Qed.

(** Without a backslash nothing is an escape: the codec returns, and never
    raises. *)
Lemma unicode_escape_decode_plain s :
  Forall plain_char s → ∃ r, unicode_escape_decode s = Return r.
Proof.
  intros (bytes & E & Hb)%utf8_encode_plain. unfold unicode_escape_decode. rewrite E.
  rewrite unicode_escape_go_plain by done. eauto.
Qed.

Lemma placeholders_plain (s : string) :
  (s = "<link masked>" ∨ s = "<email masked>" ∨ s = "<phone no. masked>")%string →
  Forall plain_char (py s).
Proof.
  intros [->|[->| ->]]; apply Forall_forall; intros c Hc;
    repeat (apply elem_of_cons in Hc as [->|Hc]; [by split_and!; [|..|intros [H _]]|]);
    by apply elem_of_nil in Hc.
Qed.

Lemma extract_summary_text_plain text :
  Forall plain_char text → ∃ summary, extract_summary_text text = Return summary.
Proof.
  intros Ht. unfold extract_summary_text.
  set (links := map _ _). set (masked := mask_contacts _ _ _).
  pose proof placeholders_plain as Hplace.
  assert (Hm : Forall plain_char masked).
  { apply mask_contacts_Forall; auto. apply foldl_replace_Forall; auto. }
  destruct (re.search SUMMARY_PATTERN (str_strip masked)) as [m|] eqn:E; [|eauto].
  apply search_Some in E as (Hs & _).
  assert (Hsum : Forall plain_char (str_strip (group m 2))).
  { apply str_strip_Forall, group_Forall. rewrite Hs. by apply str_strip_Forall. }
  destruct (truthy (str_strip (group m 2))); [|eauto].
  destruct (unicode_escape_decode_plain _ Hsum) as (r & ->). cbn [mbind result_bind].
  destruct (truthy r); eauto.
Qed.

End Decoding.

Section Assembly.
Context `{UD : unicode_db} `{PL : python_lib}.

Lemma float_of_nonneg s : (0 <= float_of s)%Q.
Proof.
  unfold float_of. destruct (split_at_dot s) as [ip fp]. unfold Qle. simpl. lia.
Qed.

Lemma amount_nonneg text : number_nonneg (or_zero (extract_experience_duration text).1).
Proof.
  unfold extract_experience_duration, or_zero.
  destruct (re.search EXPERIENCE_DURATION_PATTERN text); cbn [fst]; [|simpl; lia].
  destruct (number_truthy _); [apply float_of_nonneg|simpl; lia].
Qed.

Lemma extract_name_returns text items :
  well_formed (py "designation") items → ∃ r, extract_name text (Some items) = Return r.
Proof.
  intros Hwf. unfold extract_name.
  rewrite (check_and_collect_designation_ids_well_formed text items Hwf).
  cbn [mbind result_bind]. destruct (re.search NAME_PATTERN _); [|eauto].
  repeat (match goal with |- context [if ?b then _ else _] => destruct b end); eauto.
Qed.

Lemma check_and_collect_skills_well_formed text items :
  items ≠ [] → well_formed (py "title") items →
  check_and_collect_skills text (Some items)
  = Return (Some (filter (λ t, title_occurs text t = true) (titles (py "title") items))).
Proof.
  intros Hne Hwf. destruct items as [|item items]; [done|]. unfold check_and_collect_skills.
  by rewrite (collect_titles_well_formed _ _ _ Hwf).
Qed.

Lemma filter_title_occurs_none (text : str) (ts : list str) :
  Forall (λ t, title_occurs text t = false) ts →
  filter (λ t, title_occurs text t = true) ts = [].
Proof.
  induction 1 as [|t ts Ht _ IH]; [done|].
  rewrite filter_cons, decide_False by congruence. done.
Qed.

(** C1 (as amended).  For every text, every non-empty skill list and every
    designation list whose entries carry their titles: if the escape
    decoding of the summary does not fail, which is so whenever the text has
    no backslash, record assembly returns a record with exactly the keys
    name, email, phone, skills, designation, experience and work_experience;
    the string fields hold strings, skills and designation hold lists of
    strings, experience holds a list of exactly one entry, and its
    amount_of_experience is a number that is not negative: the integer 0
    when no duration phrase is found, the integer 0 as well when the number
    found is zero as a float, and the float of the number found otherwise.
    What is not found is stored as its default: the empty string for the
    name, the address, the phone number, the title, the summary and the
    work experience, "0" for the duration, the empty list for the skills
    and the designations.  For the empty text every one of these defaults
    is taken. *)
Theorem record_shape_totality (text : str) (skills designations : list pyobj) :
  skills ≠ [] → well_formed (py "title") skills →
  well_formed (py "designation") designations →
  ((∃ summary, extract_summary_text text = Return summary) →
   ∃ record experience amount,
     check_titles_and_extract_info text (Some skills) (Some designations) = Return record
     ∧ record_shape record
     ∧ field "experience" record = Some (PyList [experience])
     ∧ field "amount_of_experience" experience = Some (PyNum amount)
     ∧ (re.search EXPERIENCE_DURATION_PATTERN text = None →
        amount = Int 0 ∧ field "duration_string" experience = Some (PyStr (py "0")))
     ∧ (∀ m, re.search EXPERIENCE_DURATION_PATTERN text = Some m →
        amount = if rounds_to_zero (float_of (group m 1)) then Int 0
                 else Float (float_of (group m 1)))
     ∧ (extract_name text (Some designations) = Return ([], []) →
        field "name" record = Some (PyStr []))
     ∧ (extract_email text = None → field "email" record = Some (PyStr []))
     ∧ (extract_phone text = None → field "phone" record = Some (PyStr []))
     ∧ (Forall (λ t, title_occurs text t = false) (titles (py "title") skills) →
        field "skills" record = Some (PyList []))
     ∧ (Forall (λ t, title_occurs text t = false) (titles (py "designation") designations) →
        field "designation" record = Some (PyList [])
        ∧ field "title" experience = Some (PyStr []))
     ∧ (extract_summary_text text = Return None →
        field "summary" experience = Some (PyStr []))
     ∧ (extract_experience_text text = None →
        field "work_experience" record = Some (PyStr [])))
  ∧ (Forall plain_char text → ∃ summary, extract_summary_text text = Return summary)
  ∧ check_titles_and_extract_info []
      (Some [entry "title" "React"]) (Some [entry "designation" "Engineer"])
    = Return (PyDict
        [ (py "name", PyStr []); (py "email", PyStr []); (py "phone", PyStr []);
          (py "skills", PyList []); (py "designation", PyList []);
          (py "experience", PyList [ PyDict
             [ (py "title", PyStr []); (py "amount_of_experience", PyNum (Int 0));
               (py "duration_string", PyStr (py "0")); (py "summary", PyStr []) ] ]);
          (py "work_experience", PyStr []) ]).
Proof.
  intros Hne Hs Hd. split_and!; [|apply extract_summary_text_plain|vm_compute; reflexivity].
  intros (summary & Esum). unfold check_titles_and_extract_info.
  destruct (extract_name_returns text designations Hd) as ([firstName lastName] & En).
  rewrite En. cbn [mbind result_bind]. rewrite Esum. cbn [mbind result_bind].
  pose proof (amount_nonneg text) as Ha.
  assert (Hamount : ∀ m, re.search EXPERIENCE_DURATION_PATTERN text = Some m →
            or_zero (extract_experience_duration text).1
            = if rounds_to_zero (float_of (group m 1)) then Int 0
              else Float (float_of (group m 1))).
  { intros m E. unfold extract_experience_duration. rewrite E. cbn [fst].
    unfold or_zero, number_truthy. by destruct (rounds_to_zero _). }
  assert (Hnone : re.search EXPERIENCE_DURATION_PATTERN text = None →
            extract_experience_duration text = (Int 0, py "0")).
  { intros E. unfold extract_experience_duration. by rewrite E. }
  destruct (extract_experience_duration text) as [amount duration]. cbn [fst] in Ha, Hamount.
  rewrite (check_and_collect_skills_well_formed _ _ Hne Hs). cbn [mbind result_bind].
  rewrite (check_and_collect_designation_ids_well_formed _ _ Hd). cbn [mbind result_bind].
  unfold sorted_set. cbn [mbind result_bind].
  match goal with |- context [Return (PyDict ((_, ?n) :: (_, ?em) :: (_, ?p) :: (_, ?s)
      :: (_, ?d) :: (_, PyList [PyDict ((_, ?t) :: (_, ?a) :: (_, ?du) :: [(_, ?su)])])
      :: [(_, ?w)]))] =>
    destruct (record_fields n em p s d t a du su w)
      as (Fn & Fem & Fp & Fs & Fd & Fw & ex & Fex & Ft & Fa & Fdu & Fsu)
  end.
  cbn zeta in *. eexists _, ex, (or_zero amount). split_and!.
  - reflexivity.
  - unfold record_shape. eexists _, _, _, _, _, _, _, _, _, _. split; [reflexivity|done].
  - exact Fex.
  - exact Fa.
  - intros E. specialize (Hnone E). injection Hnone as -> ->. split; [done|].
    rewrite Fdu. reflexivity.
  - exact Hamount.
  - intros [= -> ->]. rewrite Fn. reflexivity.
  - intros E. rewrite Fem, E. reflexivity.
  - intros E. rewrite Fp, E. reflexivity.
  - intros H. rewrite Fs, (filter_title_occurs_none _ _ H). reflexivity.
  - intros H. rewrite Fd, Ft. unfold matching_designations.
    rewrite (filter_title_occurs_none _ _ H). split; reflexivity.
  - intros [= ->]. exact Fsu.
  - intros E. rewrite Fw, E. reflexivity.
Qed.

End Assembly.

(** C1, witness: a text without a backslash that names a skill, a
    designation and a duration of two years. *)
Lemma record_shape_totality_witness :
  ∃ record experience,
    @check_titles_and_extract_info ascii_only (py "Ana Lima, Engineer, 2 years of React")
      (Some [entry "title" "React"]) (Some [entry "designation" "Engineer"]) = Return record
    ∧ record_shape record
    ∧ field "experience" record = Some (PyList [experience])
    ∧ field "amount_of_experience" experience = Some (PyNum (Float 2)).
Proof.
  destruct (proj1 (@record_shape_totality ascii_only
                     (py "Ana Lima, Engineer, 2 years of React")
                     [entry "title" "React"] [entry "designation" "Engineer"]
                     ltac:(discriminate)
                     ltac:(repeat constructor; by eexists)
                     ltac:(repeat constructor; by eexists))
                  ltac:(eexists; vm_compute; reflexivity))
    as (record & experience & amount & H1 & H2 & H3 & H4 & _ & H6 & _).
  exists record, experience. split_and!; [exact H1|exact H2|exact H3|].
  rewrite H4.
  destruct (@re.search ascii_only EXPERIENCE_DURATION_PATTERN
              (py "Ana Lima, Engineer, 2 years of React")) as [m|] eqn:E;
    [|vm_compute in E; discriminate].
  rewrite (H6 m eq_refl). vm_compute in E. injection E as <-. vm_compute. reflexivity.
Defined.

(** C1, counterexample: with the empty skill list, which is not absent,
    [check_and_collect_skills] gives [None] and the set of it raises
    [TypeError]: no record is produced.  Nor is one produced when the
    summary ends in a backslash: the codec raises. *)
Lemma empty_skill_list_raises :
  @check_titles_and_extract_info ascii_only (py "Ana Lima")
    (Some []) (Some [entry "designation" "Engineer"]) = Raise TypeError
  ∧ @check_titles_and_extract_info ascii_only
      (py "Summary" ++ [NL] ++ py "C:" ++ [BACKSLASH; NL] ++ py "Skills" ++ [NL])
      (Some [entry "title" "React"]) (Some [entry "designation" "Engineer"])
    = Raise UnicodeDecodeError.
Proof. split; vm_compute; reflexivity. Qed.

(** Closed runs of the amount.  A duration of "0.0 years" is found and kept
    as the duration string, and the amount stored is the integer 0; so it is
    for a number that [float] rounds to zero, 10^-331, whereas 10^-321, which
    is above half the least positive double, is stored as a float. *)
Lemma zero_duration_stored_as_int :
  (∃ record experience,
     @check_titles_and_extract_info ascii_only (py "Engineer, 0.0 years of React")
       (Some [entry "title" "React"]) (Some [entry "designation" "Engineer"]) = Return record
     ∧ field "experience" record = Some (PyList [experience])
     ∧ field "amount_of_experience" experience = Some (PyNum (Int 0))
     ∧ field "duration_string" experience = Some (PyStr (py "0.0 years")))
  ∧ or_zero (@extract_experience_duration ascii_only
               (py "0." ++ replicate 330 48%N ++ py "1 years")).1 = Int 0
  ∧ or_zero (@extract_experience_duration ascii_only
               (py "0." ++ replicate 320 48%N ++ py "1 years")).1
    = Float (1 # 10 ^ 321).
Proof.
  split_and!.
  - eexists _, _. split_and!; vm_compute; reflexivity.
  - vm_compute. reflexivity.
  - vm_compute. reflexivity.
Qed.

(** C5, witness: the designation list "Engineer", "Manager" and a text that
    names the manager first. *)
Lemma designations_by_first_occurrence_witness :
  ∃ ds,
    @check_and_collect_designation_ids ascii_only (py "Manager, later Engineer")
      (Some [entry "designation" "Engineer"; entry "designation" "Manager"])
    = Return (ds, match ds with d :: _ => d | [] => [] end)
    ∧ ds ≡ₚ filter (λ t, @title_occurs ascii_only (py "Manager, later Engineer") t = true)
              (titles (py "designation")
                 [entry "designation" "Engineer"; entry "designation" "Manager"])
    ∧ ∃ offsets,
        Forall2 (@earliest_occurrence ascii_only (py "Manager, later Engineer")) ds offsets
        ∧ Sorted le offsets.
Proof.
  destruct (@designations_by_first_occurrence ascii_only (py "Manager, later Engineer")
              [entry "designation" "Engineer"; entry "designation" "Manager"]
              ltac:(repeat constructor; by eexists))
    as (ds & H1 & H2 & _ & H3 & _).
  exists ds. by split_and!.
Defined.

(** C5, counterexample: a designation list, not absent, with an entry that
    has no key designation.  [title_getter] raises [KeyError] on that entry
    and nothing is returned, although the text names the title of the
    other entry. *)
Lemma designation_entry_without_key_raises :
  @check_and_collect_designation_ids ascii_only (py "Senior Engineer")
    (Some [entry "designation" "Engineer"; PyDict [(py "title", PyStr (py "Engineer"))]])
  = Raise KeyError.
Proof. vm_compute. reflexivity. Qed.

(** C10, witness: a designation list of one entry. *)
Lemma absent_reference_list_asymmetry_witness :
  (∃ r, @check_and_collect_designation_ids ascii_only (py "Ana Lima, Engineer")
          (Some [entry "designation" "Engineer"]) = Return r)
  ∧ (∃ r, @extract_name ascii_only (py "Ana Lima, Engineer")
            (Some [entry "designation" "Engineer"]) = Return r).
Proof.
  apply (proj2 (proj2 (proj2 (proj2
           (@absent_reference_list_asymmetry ascii_only (py "Ana Lima, Engineer")))))
           [entry "designation" "Engineer"]).
  repeat constructor. by eexists.
Defined.

(** C4, witness: a list of two skills and a text that names one. *)
Lemma skills_sorted_set_witness :
  ∃ ss,
    @stored_skills ascii_only (py "I know React")
      (Some [entry "title" "Node"; entry "title" "React"]) = Return ss
    ∧ (∀ t, t ∈ ss ↔ t ∈ titles (py "title") [entry "title" "Node"; entry "title" "React"]
                     ∧ ∃ i, @whole_word_at ascii_only (py "I know React") t i)
    ∧ StronglySorted str_lt ss.
Proof.
  destruct (proj1 (@skills_sorted_set ascii_only) (py "I know React")
              [entry "title" "Node"; entry "title" "React"]
              ltac:(discriminate) ltac:(repeat constructor; by eexists))
    as (ss & H1 & H2 & H3 & _).
  exists ss. by split_and!.
Defined.

(** ** The groups the program reads are always set *)

Section GroupFacts.
Context `{UD : unicode_db}.
Import re.

(** A group once set stays set. *)
Lemma matches_keeps_groups ic r n : ∀ cu gs cu' gs',
  matches ic r cu gs cu' gs' → is_Some (gs !! n) → is_Some (gs' !! n).
Proof.
  induction r; cbn [matches]; intros cu gs cu' gs';
    try (by intros (? & ? & ? & ? & ? & ->));
    try (by intros (? & ? & ->)).
  - by intros [_ ->].
  - intros (cu1 & gs1 & H1 & H2) Hn. eauto.
  - intros [H|H]; eauto.
  - intros (k & _ & _ & H). revert cu gs H.
    induction k as [|k IHk]; intros cu gs H Hn.
    + by destruct H as [_ ->].
    + destruct H as (cu1 & gs1 & H1 & _ & H2). eauto.
  - intros (gs1 & H & ->) Hn. destruct (decide (n0 = n)) as [->|Hne].
    + by rewrite lookup_insert_eq.
    + rewrite lookup_insert_ne by done. eauto.
Qed.

Lemma matches_sets_group ic r n : ∀ cu gs cu' gs',
  sets_group n r = true → matches ic r cu gs cu' gs' → is_Some (gs' !! n).
Proof.
  induction r; cbn [sets_group matches]; intros cu gs cu' gs' Hs; try done.
  - intros (cu1 & gs1 & H1 & H2). apply orb_true_iff in Hs as [Hs|Hs].
    + eapply matches_keeps_groups; eauto.
    + eauto.
  - apply andb_true_iff in Hs as [Hs1 Hs2]. intros [H|H]; eauto.
  - apply andb_true_iff in Hs as [Hlo%Nat.ltb_lt Hs]. intros (k & Hk & _ & H).
    destruct k as [|k]; [lia|]. destruct H as (cu1 & gs1 & H1 & _ & H2).
    assert (Hn : is_Some (gs1 !! n)) by eauto. clear H1 Hk. revert cu1 gs1 H2 Hn.
    induction k as [|k IHk]; intros cu1 gs1 H2 Hn.
    + by destruct H2 as [_ ->].
    + destruct H2 as (cu2 & gs2 & H1 & _ & H2). eapply IHk; [exact H2|].
      eapply matches_keeps_groups; eauto.
  - intros (gs1 & H & ->). apply orb_true_iff in Hs as [->%Nat.eqb_eq|Hs].
    + by rewrite lookup_insert_eq.
    + destruct (decide (n0 = n)) as [->|Hne]; [by rewrite lookup_insert_eq|].
      rewrite lookup_insert_ne by done. eauto.
Qed.

Lemma search_sets_group p n subject m :
  sets_group n (p_regex p) = true → search p subject = Some m →
  is_Some (m_groups m !! n).
Proof.
  intros Hs (_ & _ & _ & M & _)%search_Some. by eapply matches_sets_group.
Qed.

(** In every match of its pattern, each group the program reads has taken
    part: [group] never stands for Python's [None]. *)
Lemma program_groups_set subject m :
  (search PHONE_PATTERN subject = Some m → is_Some (m_groups m !! 1))
  ∧ (search EXPERIENCE_DURATION_PATTERN subject = Some m → is_Some (m_groups m !! 1))
  ∧ (search NAME_PATTERN subject = Some m →
     is_Some (m_groups m !! 1) ∧ is_Some (m_groups m !! 2))
  ∧ (search EXPERIENCE_TEXT_PATTERN subject = Some m → is_Some (m_groups m !! 2))
  ∧ (search SUMMARY_PATTERN subject = Some m → is_Some (m_groups m !! 2)).
Proof.
  split_and!; intros H; try split;
    (eapply search_sets_group; [|exact H]; vm_compute; reflexivity).
Qed.

End GroupFacts.

(** * Further properties of the code *)

(** ** What [remove_duplicates] keeps *)
Section KeptItems.
Context `{UD : unicode_db} `{PL : python_lib}.

Lemma remove_duplicates_loop_sublist data seen :
  remove_duplicates_loop data seen [] `sublist_of` data.
Proof.
  revert seen. induction data as [|x data IH]; intros seen; simpl; [done|].
  case_decide.
  - by apply sublist_cons.
  - rewrite remove_duplicates_loop_acc. simpl. by apply sublist_skip.
Qed.

(** An item whose hash was not seen, and which no earlier item of the rest
    shares it with, is kept. *)
Lemma remove_duplicates_loop_first pre x post seen :
  item_hash x ∉ seen → (∀ y, y ∈ pre → item_hash y ≠ item_hash x) →
  x ∈ remove_duplicates_loop (pre ++ x :: post) seen [].
Proof.
  revert seen. induction pre as [|p pre IH]; intros seen Hx Hpre; simpl.
  - rewrite decide_False by done. rewrite remove_duplicates_loop_acc. by left.
  - case_decide.
    + apply IH; [done|]. intros y Hy. apply Hpre. by right.
    + rewrite remove_duplicates_loop_acc. simpl. right. apply IH.
      * intros [He%elem_of_singleton|?]%elem_of_union; [|done].
        apply (Hpre p); [by left|done].
      * intros y Hy. apply Hpre. by right.
Qed.

(** X1.  [remove_duplicates] keeps, of the items of each content hash, the
    first and no other: the result is the list with some items left out,
    in the same order; its hashes are pairwise different; an item that no
    earlier item shares its hash with is kept, so every item of the list
    has an item of its hash in the result. *)
Theorem remove_duplicates_first_of_each_hash (data : list pyobj) :
  remove_duplicates data `sublist_of` data
  ∧ NoDup (item_hash <$> remove_duplicates data)
  ∧ (∀ pre x post, data = pre ++ x :: post →
       (∀ y, y ∈ pre → item_hash y ≠ item_hash x) → x ∈ remove_duplicates data)
  ∧ (∀ x, x ∈ data → ∃ y, y ∈ remove_duplicates data ∧ item_hash y = item_hash x).
Proof.
  unfold remove_duplicates. split_and!.
  - apply remove_duplicates_loop_sublist.
  - apply remove_duplicates_loop_NoDup.
  - intros pre x post -> Hpre. apply remove_duplicates_loop_first; [apply not_elem_of_empty|done].
  - assert (Hfirst : ∀ l x, x ∈ l → ∃ pre y post, l = pre ++ y :: post
              ∧ item_hash y = item_hash x ∧ ∀ z, z ∈ pre → item_hash z ≠ item_hash y).
    { induction l as [|a l IH]; intros x Hx; [by apply elem_of_nil in Hx|].
      destruct (decide (item_hash a = item_hash x)) as [Ha|Ha].
      - exists [], a, l. split_and!; [done|done|]. by intros z ?%elem_of_nil.
      - apply elem_of_cons in Hx as [->|Hx]; [done|].
        destruct (IH x Hx) as (pre & y & post & -> & Hy & Hpre).
        exists (a :: pre), y, post. split_and!; [done|done|].
        intros z [->|Hz]%elem_of_cons; [congruence|by apply Hpre]. }
    intros x Hx. destruct (Hfirst data x Hx) as (pre & y & post & -> & Hy & Hpre).
    exists y. split; [|done]. apply remove_duplicates_loop_first; [apply not_elem_of_empty|done].
Qed.

End KeptItems.

(** ** What a fetch returns and leaves on disk *)
Section FetchFacts.
Context `{UD : unicode_db} `{PL : python_lib}.
Variable net : nat → str → http_reply.

Lemma load_and_deduplicate_NoDup content items :
  load_and_deduplicate content = Return (Some items) → NoDup (item_hash <$> items).
Proof.
  unfold load_and_deduplicate. destruct (json_loads content) as [data|]; [|done].
  destruct (iterate data) as [l|e]; [|done]. cbn [mbind result_bind].
  intros [= <-]. apply remove_duplicates_loop_NoDup.
Qed.

(** X2.  Whatever the network answers and whatever is on disk, a list that
    [save_url_as_json_async] returns has no two entries of the same content
    hash. *)
Theorem fetched_list_has_distinct_hashes (url output_file : str) (w : world)
    (items : list pyobj) :
  (save_url_as_json_async net url output_file w).1 = Return (Some items) →
  NoDup (item_hash <$> items).
Proof.
  unfold save_url_as_json_async.
  destruct (net (requests w) url) as [status content|]; [|done].
  destruct (negb (status =? 200)).
  { destruct (files w !! output_file) as [local|]; [|done]. apply load_and_deduplicate_NoDup. }
  cbn zeta. case_decide.
  { apply load_and_deduplicate_NoDup. }
  destruct (json_loads content) as [data|]; [|done]. cbn [fst].
  destruct (iterate data) as [l|e]; [|done]. cbn [mbind result_bind].
  intros [= <-]. apply remove_duplicates_loop_NoDup.
Qed.

(** X3.  A response of status 200 that holds a JSON list is stored as it
    came: the cache file holds the bytes of the response (it is never
    written anew with an indentation), no other file changes, and the list
    is returned without its duplicates.  A later fetch that is answered
    with another status returns the same list from the cache. *)
Theorem fetch_then_fallback (url output_file : str) (w : world)
    (content : str) (items : list pyobj) :
  net (requests w) url = Response 200 content →
  json_loads content = Some (PyList items) →
  let w' := World (<[output_file := content]> (files w)) (S (requests w)) in
  save_url_as_json_async net url output_file w = (Return (Some (remove_duplicates items)), w')
  ∧ ∀ status content',
      net (requests w') url = Response status content' → status ≠ 200 →
      save_url_as_json_async net url output_file w'
      = (Return (Some (remove_duplicates items)), World (files w') (S (requests w'))).
Proof.
  intros Hnet Hjson w'. split.
  - unfold save_url_as_json_async. rewrite Hnet. cbn [Nat.eqb negb]. cbn zeta. cbn [files].
    rewrite lookup_insert_eq. cbn [fmap option_fmap option_map default].
    rewrite decide_True by done. unfold load_and_deduplicate. unfold id. by rewrite Hjson.
  - intros status content' Hnet' Hs. unfold save_url_as_json_async. rewrite Hnet'.
    apply Nat.eqb_neq in Hs. rewrite Hs. cbn [negb]. unfold w' at 1. cbn [files].
    rewrite lookup_insert_eq. unfold load_and_deduplicate. by rewrite Hjson.
Qed.

End FetchFacts.

(** X2, witness: the list read from the cache at status 500. *)
Lemma fetched_list_has_distinct_hashes_witness :
  NoDup (@item_hash toy_lib <$> [entry "title" "React"; entry "title" "Node"]).
Proof.
  apply (@fetched_list_has_distinct_hashes toy_lib net_500 URL_TO_FETCH_SKILL
           (py "skills-collection.json") cached_skills).
  vm_compute. reflexivity.
Defined.

(** X3, witness: a fetch that succeeds on an empty disk, then one that is
    answered with status 500. *)
Lemma fetch_then_fallback_witness :
  @save_url_as_json_async toy_lib net_once URL_TO_FETCH_SKILL (py "skills-collection.json")
    (World ∅ 0)
  = (Return (Some (@remove_duplicates toy_lib
               [entry "title" "React"; entry "title" "React"; entry "title" "Node"])),
     World (<[py "skills-collection.json" := py "[skills]"]> ∅) 1)
  ∧ ∀ status content',
      net_once 1 URL_TO_FETCH_SKILL = Response status content' → status ≠ 200 →
      @save_url_as_json_async toy_lib net_once URL_TO_FETCH_SKILL (py "skills-collection.json")
        (World (<[py "skills-collection.json" := py "[skills]"]> ∅) 1)
      = (Return (Some (@remove_duplicates toy_lib
                   [entry "title" "React"; entry "title" "React"; entry "title" "Node"])),
         World (<[py "skills-collection.json" := py "[skills]"]> ∅) 2).
Proof.
  apply (@fetch_then_fallback toy_lib net_once URL_TO_FETCH_SKILL (py "skills-collection.json")
           (World ∅ 0) (py "[skills]")); reflexivity.
Defined.

(** ** Entries without a usable title *)
Section EntryErrors.
Context `{UD : unicode_db} `{PL : python_lib}.

Lemma collect_titles_malformed key text good bad rest :
  well_formed key good → title_of key bad = None →
  collect_titles key text (good ++ bad :: rest) = Raise (entry_error key bad).
Proof.
  intros Hgood Hbad. induction Hgood as [|item good [t Ht] _ IH].
  - cbn [app collect_titles]. unfold title_of in Hbad. unfold itemgetter, entry_error.
    destruct bad as [| | | | |kv]; try done.
    destruct (dict_get key kv) as [[| | |s| |]|]; done.
  - cbn [app collect_titles]. rewrite (title_of_getter _ _ _ Ht). cbn [mbind result_bind as_str].
    by rewrite IH.
Qed.

(** X4.  [check_and_collect_skills] goes through the list in its order: for
    a list whose entries all carry a title it returns the titles that occur
    in the text, in the order of the list and as often as the list has
    them; the first entry without a usable title makes it raise, whether or
    not anything matches: [KeyError] for a dictionary without the key,
    [TypeError] otherwise. *)
Theorem check_and_collect_skills_in_list_order (text : str) :
  (∀ items, items ≠ [] → well_formed (py "title") items →
     check_and_collect_skills text (Some items)
     = Return (Some (filter (λ t, title_occurs text t = true) (titles (py "title") items))))
  ∧ (∀ good bad rest, well_formed (py "title") good → title_of (py "title") bad = None →
       check_and_collect_skills text (Some (good ++ bad :: rest))
       = Raise (entry_error (py "title") bad)).
Proof.
  split.
  - intros items Hne Hwf. destruct items as [|item items]; [done|].
    unfold check_and_collect_skills. by rewrite (collect_titles_well_formed _ _ _ Hwf).
  - intros good bad rest Hgood Hbad. unfold check_and_collect_skills.
    destruct (good ++ bad :: rest) as [|x l] eqn:E; [by destruct good|].
    rewrite <- E. by rewrite collect_titles_malformed.
Qed.

Lemma itemgetter_value key item v : value_of key item = Some v → itemgetter key item = Return v.
Proof. destruct item as [| | | | |kv]; try done. simpl. by intros ->. Qed.

Lemma itemgetter_no_value key item :
  value_of key item = None → itemgetter key item = Raise (entry_error key item).
Proof. destruct item as [| | | | |kv]; try done. simpl. by intros ->. Qed.

Lemma get_all_missing key good bad rest :
  Forall (λ item, is_Some (value_of key item)) good → value_of key bad = None →
  get_all key (good ++ bad :: rest) = Raise (entry_error key bad).
Proof.
  intros Hgood Hbad. induction Hgood as [|item good [v Hv] _ IH].
  - cbn [app get_all]. by rewrite itemgetter_no_value.
  - cbn [app get_all]. rewrite (itemgetter_value _ _ _ Hv). cbn [mbind result_bind]. by rewrite IH.
Qed.

Lemma get_all_present key items :
  Forall (λ item, is_Some (value_of key item)) items →
  ∃ vs, get_all key items = Return vs ∧ length vs = length items.
Proof.
  induction 1 as [|item items [v Hv] _ (vs & IH & Hvs)]; [by exists []|].
  exists (v :: vs). cbn [get_all]. rewrite (itemgetter_value _ _ _ Hv). cbn [mbind result_bind].
  rewrite IH. split; [done|simpl; lia].
Qed.

Lemma get_all_app key a b va vb :
  get_all key a = Return va → get_all key b = Return vb →
  get_all key (a ++ b) = Return (va ++ vb).
Proof.
  revert va. induction a as [|x a IH]; intros va; cbn [get_all app].
  - by intros [= <-].
  - destruct (itemgetter key x) as [v|e]; [|done]. cbn [mbind result_bind].
    destruct (get_all key a) as [vs|e]; [|done]. cbn [mbind result_bind].
    intros [= <-] Hb. by rewrite (IH vs eq_refl Hb).
Qed.

Lemma keep_matching_not_str text good bad rest :
  (∀ s, bad ≠ PyStr s) →
  keep_matching text ((PyStr <$> good) ++ bad :: rest) = Raise TypeError.
Proof.
  intros Hbad. induction good as [|t good IH].
  - cbn [fmap list_fmap app keep_matching]. destruct bad; try done. by destruct (Hbad s).
  - cbn [fmap list_fmap app keep_matching as_str mbind result_bind].
    change (list_fmap _ _ PyStr good) with (PyStr <$> good). by rewrite IH.
Qed.

(** X5.  [check_and_collect_designation_ids] reads the designation of every
    entry before it looks at the text: an entry that is no dictionary or
    lacks the key makes it raise ([TypeError], [KeyError]) even when an
    earlier entry holds a designation that is no string; when every entry
    has the key, a designation that is no string makes it raise
    [TypeError]. *)
Theorem check_and_collect_designation_ids_errors (text : str) :
  (∀ good bad rest,
     Forall (λ item, is_Some (value_of (py "designation") item)) good →
     value_of (py "designation") bad = None →
     check_and_collect_designation_ids text (Some (good ++ bad :: rest))
     = Raise (entry_error (py "designation") bad))
  ∧ (∀ good bad rest v,
       well_formed (py "designation") good →
       value_of (py "designation") bad = Some v → (∀ s, v ≠ PyStr s) →
       Forall (λ item, is_Some (value_of (py "designation") item)) rest →
       check_and_collect_designation_ids text (Some (good ++ bad :: rest)) = Raise TypeError).
Proof.
  split.
  - intros good bad rest Hgood Hbad. unfold check_and_collect_designation_ids.
    by rewrite get_all_missing.
  - intros good bad rest v Hgood Hbad Hv Hrest. unfold check_and_collect_designation_ids.
    destruct (get_all_present _ _ Hrest) as (vs & Hvs & _).
    rewrite (get_all_app _ good (bad :: rest) _ (v :: vs) (get_all_well_formed _ _ Hgood)).
    + cbn [mbind result_bind]. by rewrite keep_matching_not_str.
    + cbn [get_all]. rewrite (itemgetter_value _ _ _ Hbad). cbn [mbind result_bind].
      by rewrite Hvs.
Qed.

End EntryErrors.

(** ** Stripping *)
Section StripFacts.
Context `{UD : unicode_db}.

(** [str_lstrip] removes a run of white space from the front. *)
Lemma str_lstrip_split s :
  ∃ ws, s = ws ++ str_lstrip s ∧ Forall (λ c, is_space c = true) ws
        ∧ match head (str_lstrip s) with Some c => is_space c = false | None => True end.
Proof.
  induction s as [|c t (ws & E & Hws & Hh)]; [by exists []|]. cbn [str_lstrip].
  destruct (is_space c) eqn:Hc.
  - exists (c :: ws). split_and!; [by rewrite E at 1|by constructor|done].
  - exists []. by split_and!.
Qed.

Lemma str_lstrip_fixed s :
  match head s with Some c => is_space c = false | None => True end → str_lstrip s = s.
Proof. destruct s as [|c t]; [done|]. simpl. by intros ->. Qed.

Lemma str_rstrip_split s :
  ∃ ws, s = str_rstrip s ++ ws ∧ Forall (λ c, is_space c = true) ws
        ∧ match last (str_rstrip s) with Some c => is_space c = false | None => True end.
Proof.
  unfold str_rstrip. destruct (str_lstrip_split (rev s)) as (ws & E & Hws & Hh).
  exists (rev ws). split_and!.
  - by rewrite <- rev_app_distr, <- E, rev_involutive.
  - by apply Forall_rev.
  - rewrite <- head_reverse. unfold reverse. rewrite <- rev_alt, rev_involutive. done.
Qed.

Lemma str_rstrip_fixed s :
  match last s with Some c => is_space c = false | None => True end → str_rstrip s = s.
Proof.
  intros H. unfold str_rstrip. rewrite str_lstrip_fixed; [apply rev_involutive|].
  rewrite <- (rev_involutive s) in H. rewrite rev_alt in H. fold (reverse (rev s)) in H.
  by rewrite last_reverse in H.
Qed.

(** What [strip] returns begins and ends with a character that is no white
    space, and is what is between the white space at the two ends. *)
Lemma str_strip_split s :
  ∃ ws1 ws2, s = ws1 ++ str_strip s ++ ws2
    ∧ Forall (λ c, is_space c = true) ws1 ∧ Forall (λ c, is_space c = true) ws2
    ∧ match head (str_strip s) with Some c => is_space c = false | None => True end
    ∧ match last (str_strip s) with Some c => is_space c = false | None => True end.
Proof.
  unfold str_strip. destruct (str_lstrip_split s) as (ws1 & E1 & H1 & Hh).
  destruct (str_rstrip_split (str_lstrip s)) as (ws2 & E2 & H2 & Hl).
  exists ws1, ws2. split_and!; try done.
  - by rewrite <- E2.
  - destruct (str_rstrip (str_lstrip s)) as [|c t] eqn:Er; [done|].
    rewrite E2 in Hh. by simpl in Hh.
Qed.

Lemma str_strip_fixed s :
  match head s with Some c => is_space c = false | None => True end →
  match last s with Some c => is_space c = false | None => True end →
  str_strip s = s.
Proof. intros Hh Hl. unfold str_strip. rewrite str_lstrip_fixed by done. by apply str_rstrip_fixed. Qed.

Lemma str_strip_idemp s : str_strip (str_strip s) = str_strip s.
Proof.
  destruct (str_strip_split s) as (ws1 & ws2 & _ & _ & _ & Hh & Hl). by apply str_strip_fixed.
Qed.

End StripFacts.

Section CleanTwice.
Context `{UD : unicode_db} `{PL : python_lib}.

(** X6.  [remove_unrecognized_characters] has nothing left to do on its own
    results: applied to a result that is not empty it returns it as it is
    (the empty result it turns into [None]). *)
Theorem remove_unrecognized_characters_twice (s r : str) :
  remove_unrecognized_characters (Some s) = Some r →
  remove_unrecognized_characters (Some r) = if truthy r then Some r else None.
Proof.
  rewrite !remove_unrecognized_characters_spec. destruct (truthy s); [|done].
  intros [= Hr]. destruct (truthy r); [|done]. f_equal.
  set (f := λ c : char, if (c =? NL)%N then SPACE else c) in *.
  assert (Hclean : Forall (λ c, is_ascii c = true ∧ c ≠ NL) r).
  { rewrite <- Hr. apply str_strip_Forall, Forall_fmap.
    eapply Forall_impl; [apply (collapse_is_ascii false s)|].
    intros c Hc. unfold f. cbn. by destruct (N.eqb_spec c NL). }
  unfold collapse_non_ascii. rewrite (collapse_all_ascii r).
  2: { eapply Forall_impl; [exact Hclean|]. by intros c [? _]. }
  replace (map f r) with r.
  - rewrite <- Hr. apply str_strip_idemp.
  - symmetry. rewrite <- (map_id r) at 2. apply map_ext_Forall.
    eapply Forall_impl; [exact Hclean|]. intros c [_ Hc]. unfold f.
    by destruct (N.eqb_spec c NL).
Qed.

End CleanTwice.

(** X6, witness: a line with an accented letter and white space at its end. *)
Lemma remove_unrecognized_characters_twice_witness :
  @remove_unrecognized_characters ascii_only (Some (py "caf ok"))
  = if truthy (py "caf ok") then Some (py "caf ok") else None.
Proof.
  apply (@remove_unrecognized_characters_twice ascii_only
           (py "caf" ++ [233%N; 233%N] ++ py "ok  ") (py "caf ok")).
  vm_compute. reflexivity.
Defined.

(** ** The address [extract_email] returns *)
Section EmailFacts.
Context `{UD : unicode_db}.
Import re.

Lemma plus_class_inv items cu gs cu' gs' :
  matches false (plus (IN false items)) cu gs cu' gs' →
  ∃ w, w ≠ [] ∧ Forall (λ c, in_set false items c = true) w ∧ rest cu = w ++ rest cu' ∧ gs' = gs.
Proof.
  intros H.
  apply (matches_repeat_consume false true 1 None (IN false items) (in_set false items)
           _ _ _ _ eq_refl) in H as (w & Hlo & _ & Hw & E & _ & ->).
  exists w. split_and!; try done. intros ->. simpl in Hlo. lia.
Qed.

Lemma plus_class_intro items w cu gs rst :
  w ≠ [] → Forall (λ c, in_set false items c = true) w → rest cu = w ++ rst →
  matches false (plus (IN false items)) cu gs (after cu w rst) gs.
Proof.
  intros Hne Hw E.
  apply (repeat_consume_intro false true 1 None (IN false items) (in_set false items)
           w cu gs rst eq_refl); try done.
  destruct w; [done|simpl; lia].
Qed.

Lemma at_least_class_inv n items cu gs cu' gs' :
  matches false (at_least n (IN false items)) cu gs cu' gs' →
  ∃ w, n ≤ length w ∧ Forall (λ c, in_set false items c = true) w
       ∧ rest cu = w ++ rest cu' ∧ gs' = gs.
Proof.
  intros H.
  apply (matches_repeat_consume false true n None (IN false items) (in_set false items)
           _ _ _ _ eq_refl) in H as (w & Hlo & _ & Hw & E & _ & ->).
  by exists w.
Qed.

Lemma at_least_class_intro n items w cu gs rst :
  n ≤ length w → Forall (λ c, in_set false items c = true) w → rest cu = w ++ rst →
  matches false (at_least n (IN false items)) cu gs (after cu w rst) gs.
Proof.
  intros Hn Hw E.
  by apply (repeat_consume_intro false true n None (IN false items) (in_set false items)
              w cu gs rst eq_refl).
Qed.

Lemma chr_inv a cu gs cu' gs' :
  matches false (chr a) cu gs cu' gs' → rest cu = N_of_ascii a :: rest cu' ∧ gs' = gs.
Proof.
  intros (c & Hc%N.eqb_eq & E & ->)%consume_word. by subst c.
Qed.

Lemma chr_intro a cu gs rst :
  rest cu = N_of_ascii a :: rst → matches false (chr a) cu gs (after cu [N_of_ascii a] rst) gs.
Proof. intros E. apply consume_intro; [done|]. apply N.eqb_refl. Qed.

(** The words the address pattern matches. *)
Lemma email_pattern_word cu gs cu' gs' :
  matches false (p_regex EMAIL_PATTERN) cu gs cu' gs' ↔
  ∃ e, email_address e ∧ rest cu = e ++ rest cu' ∧ cu' = after cu e (rest cu') ∧ gs' = gs
       ∧ at_boundary cu = true ∧ at_boundary cu' = true.
Proof.
  split.
  - intros M. destruct (matches_after _ _ _ _ _ _ M) as (w & Ew & Ecu).
    unfold EMAIL_PATTERN in M. cbn [p_regex seq] in M.
    destruct M as (cu0 & gs0 & (B1 & -> & ->) & cu1 & gs1 & (loc & Hl & Fl & E1 & ->)%plus_class_inv
                   & cu2 & gs2 & [E2 ->]%chr_inv & cu3 & gs3
                   & (dom & Hd & Fd & E3 & ->)%plus_class_inv
                   & cu4 & gs4 & [E4 ->]%chr_inv & cu5 & gs5
                   & (tld & Ht & Ft & E5 & ->)%at_least_class_inv & (B2 & <- & ->)).
    assert (E : rest cu = (loc ++ [64%N] ++ dom ++ [46%N] ++ tld) ++ rest cu').
    { rewrite E1, E2, E3, E4, E5. by rewrite <- !app_assoc. }
    rewrite E in Ew. apply app_inv_tail in Ew. subst w.
    exists (loc ++ [64%N] ++ dom ++ [46%N] ++ tld). split_and!; try done.
    by exists loc, dom, tld.
  - intros (e & (loc & dom & tld & -> & Hl & Fl & Hd & Fd & Ht & Ft) & E & Ecu & -> & B1 & B2).
    set (rst := rest cu') in *. clearbody rst. subst cu'.
    unfold EMAIL_PATTERN. cbn [p_regex seq].
    rewrite <- !app_assoc in E.
    exists cu, gs. split; [done|].
    rewrite <- !after_app in *. rewrite <- !app_assoc in *.
    eapply (seq_intro _ _ _ _ _ (after cu loc ([64%N] ++ dom ++ [46%N] ++ tld ++ rst))).
    { apply plus_class_intro; done. }
    eapply (seq_intro _ _ _ _ _ (after _ [64%N] (dom ++ [46%N] ++ tld ++ rst)));
      [by apply (chr_intro "@")|].
    eapply (seq_intro _ _ _ _ _ (after _ dom ([46%N] ++ tld ++ rst))).
    { apply plus_class_intro; done. }
    eapply (seq_intro _ _ _ _ _ (after _ [46%N] (tld ++ rst))); [by apply (chr_intro ".")|].
    eapply (seq_intro _ _ _ _ _ (after _ tld rst)); [by apply at_least_class_intro|].
    done.
Qed.

Lemma email_span text i j gs :
  i ≤ length text →
  matches_span EMAIL_PATTERN text i j gs ↔
  gs = ∅ ∧ ∃ e, email_address e ∧ drop i text = e ++ drop j text ∧ j = i + length e
                ∧ word_boundary text i = true ∧ word_boundary text j = true.
Proof.
  intros Hi. unfold matches_span. rewrite email_pattern_word. cbn [rest cursor_at]. split.
  - intros (e & He & E & Ecu & -> & B1 & B2). split; [done|]. exists e.
    apply (f_equal pos) in Ecu. rewrite after_pos in Ecu. cbn [pos] in Ecu.
    by split_and!.
  - intros (-> & e & He & E & -> & B1 & B2). exists e. split_and!; try done.
    by rewrite cursor_at_after.
Qed.

Lemma email_at_span text i :
  email_at text i ↔ i ≤ length text ∧ ∃ j gs, matches_span EMAIL_PATTERN text i j gs.
Proof.
  split.
  - intros (e & rst & He & E & B1 & B2).
    assert (Hne : e ≠ []).
    { destruct He as (loc & dom & tld & -> & Hl & _). by destruct loc. }
    assert (Hi : i ≤ length text).
    { destruct (decide (i ≤ length text)); [done|]. rewrite drop_ge in E by lia.
      symmetry in E. by apply app_eq_nil in E as [? _]. }
    split; [done|]. exists (i + length e), ∅. apply email_span; [done|]. split; [done|].
    exists e. split_and!; try done.
    rewrite <- drop_drop, E. by rewrite drop_app_length.
  - intros (Hi & j & gs & (-> & e & He & E & -> & B1 & B2)%email_span); [|done].
    by exists e, (drop (i + length e) text).
Qed.

(** X7.  [extract_email] returns the first address of the text: a part of
    the text made of a local part, an at sign, a domain, a point and at
    least two letters (or vertical bars), that stands between two word
    boundaries, and before which no such address starts; it returns [None]
    exactly when no address stands anywhere. *)
Theorem extract_email_first_address (text : str) :
  (∀ e, extract_email text = Some e →
     ∃ pre post, text = pre ++ e ++ post ∧ email_address e
       ∧ word_boundary text (length pre) = true
       ∧ word_boundary text (length pre + length e) = true
       ∧ ∀ i, i < length pre → ¬ email_at text i)
  ∧ (extract_email text = None ↔ ∀ i, ¬ email_at text i).
Proof.
  unfold extract_email. destruct (search EMAIL_PATTERN text) as [m|] eqn:E.
  - pose proof E as E'. apply search_Some in E as (Hs & Hse & He & M & Hleft).
    assert (Hi : m_start m ≤ length text) by lia.
    apply email_span in M as (_ & e & Hem & Ed & Hj & B1 & B2); [|done].
    assert (Hg : group m 0 = e).
    { unfold group, group0. rewrite Hs, Hj. by apply substr_prefix in Ed. }
    rewrite Hg. split.
    + intros ? [= <-]. exists (take (m_start m) text), (drop (m_end m) text).
      rewrite length_take, Nat.min_l by done. split_and!; try done.
      * by rewrite <- Ed, take_drop.
      * by rewrite <- Hj.
      * intros i Hlt (_ & j & gs & Mi)%email_at_span. by apply (Hleft i j gs).
    + split; [done|]. intros Hno. exfalso. apply (Hno (m_start m)).
      exists e, (drop (m_end m) text). split_and!; try done. by rewrite <- Hj.
  - split; [done|]. split; [|done]. intros _ i (Hi & j & gs & M)%email_at_span.
    by apply (search_None _ _ E i j gs Hi).
Qed.

End EmailFacts.

(** ** Replacing leaves no occurrence behind *)
Section ReplaceFacts.
Context `{UD : unicode_db}.

Lemma is_prefix_spec (p s : str) : is_prefix p s = true ↔ ∃ r, s = p ++ r.
Proof.
  revert s. induction p as [|a p IH]; intros s.
  - split; [by exists s|done].
  - destruct s as [|b s]; cbn [is_prefix].
    + split; [done|]. by intros (r & ?).
    + rewrite andb_true_iff, IH, N.eqb_eq. split.
      * intros (-> & r & ->). by exists r.
      * intros (r & [= -> ->]). split; [done|by exists r].
Qed.

Lemma replace_go_skip old new s k :
  replace_go old new s k = replace_go old new (drop k s) 0.
Proof.
  revert k. induction s as [|c t IH]; intros [|k]; try done. cbn [replace_go drop]. apply IH.
Qed.

Lemma replace_go_cons old new c t :
  old ≠ [] →
  replace_go old new (c :: t) 0
  = if is_prefix old (c :: t)
    then new ++ replace_go old new (drop (length old) (c :: t)) 0
    else c :: replace_go old new t 0.
Proof.
  intros Hne. cbn [replace_go]. destruct (is_prefix old (c :: t)); [|done].
  rewrite replace_go_skip. destruct old as [|a old']; [done|]. cbn [length].
  by replace (S (length old') - 1) with (length old') by lia.
Qed.

Section Mask.
Variables (old new : str) (h l x : char).
Hypothesis old_ne : old ≠ [].
Hypothesis new_head : head new = Some h.
Hypothesis new_last : last new = Some l.
Hypothesis h_out : h ∉ old.
Hypothesis l_out : l ∉ old.
Hypothesis x_in : x ∈ old.
Hypothesis x_out : x ∉ new.

(** What the result begins with, up to its first replacement, the text
    begins with too. *)
Lemma replace_go_prefix s w :
  w `prefix_of` replace_go old new s 0 → h ∉ w → w `prefix_of` s.
Proof.
  revert w. induction s as [|c t IH]; intros w.
  - intros [r E] _. cbn in E. symmetry in E. by apply app_eq_nil in E as [-> _].
  - rewrite replace_go_cons by done. destruct (is_prefix old (c :: t)).
    + destruct new as [|h' new']; [done|]. injection new_head as ->.
      intros [r E] Hw. destruct w as [|a w]; [by exists (c :: t)|].
      injection E as <- _. exfalso. apply Hw. by left.
    + intros [r E] Hw. destruct w as [|a w]; [by exists (c :: t)|].
      injection E as <- E. destruct (IH w) as [r' ->]; [by exists r| |by exists r'].
      intros ?. apply Hw. by right.
Qed.

Lemma replace_go_no_occurrence n : ∀ s, length s ≤ n →
  ¬ occurs_in old (replace_go old new s 0).
Proof.
  induction n as [|n IH]; intros s Hn (a & b & E).
  { destruct s; [|simpl in Hn; lia]. cbn in E. symmetry in E.
    apply app_eq_nil in E as [_ [? _]%app_eq_nil]. done. }
  destruct s as [|c t].
  { cbn in E. symmetry in E. apply app_eq_nil in E as [_ [? _]%app_eq_nil]. done. }
  rewrite replace_go_cons in E by done. destruct (is_prefix old (c :: t)) eqn:Hp.
  - assert (Hd : length (drop (length old) (c :: t)) ≤ n).
    { rewrite length_drop. destruct old; [done|]. simpl in *. lia. }
    apply app_eq_inv in E as [(k & Enew & E)|(k & -> & E)].
    + apply app_eq_inv in E as [(k' & Eold & E)|(k' & -> & E)].
      * destruct k as [|y k].
        { apply (IH _ Hd). exists [], b. rewrite E. cbn. rewrite Eold. by rewrite app_nil_l. }
        apply l_out. rewrite Eold. apply elem_of_app. left.
        pose proof new_last as Hl. rewrite Enew, last_app in Hl.
        destruct (proj2 (last_is_Some (y :: k)) ltac:(done)) as [z Hz].
        rewrite Hz in Hl. injection Hl as <-. by apply last_Some_elem_of.
      * apply x_out. rewrite Enew. rewrite !elem_of_app. right. by left.
    + apply (IH _ Hd). by exists k, b.
  - destruct a as [|a0 a].
    + assert (Hpre : old `prefix_of` c :: t).
      { apply replace_go_prefix; [|done]. rewrite replace_go_cons, Hp by done.
        exists b. by rewrite E. }
      destruct Hpre as [r Hr]. assert (is_prefix old (c :: t) = true); [|congruence].
      apply is_prefix_spec. by exists r.
    + injection E as _ E. apply (IH t); [simpl in Hn; lia|]. by exists a, b.
Qed.

End Mask.

End ReplaceFacts.

(** ** The address is masked *)
Section MaskFacts.
Context `{UD : unicode_db} `{PL : python_lib}.
Import re.

Lemma class_address_char items c :
  in_set false items c = true → forallb plain_item items = true → address_char c.
Proof.
  unfold in_set. cbn [xorb]. intros Hc Hitems. apply existsb_exists in Hc as (i & Hi & Hc).
  rewrite forallb_forall in Hitems. specialize (Hitems i Hi).
  assert (Hsmall : ∀ x, (32 < x)%N → (x < 127)%N → is_ascii x = true ∧ is_space x = false).
  { intros x H1 H2. unfold is_space, is_ascii, in_range.
    assert (x < 128)%N as ->%N.ltb_lt by lia. split; [done|].
    apply orb_false_iff. split; apply andb_false_iff; right; apply N.leb_gt; lia. }
  unfold address_char.
  destruct i as [a|lo hi| |]; try done; cbn [in_item plain_item] in Hc, Hitems;
    apply andb_true_iff in Hitems as [[[H1%N.ltb_lt H2%N.ltb_lt]%andb_true_iff
                                        H3%negb_true_iff]%andb_true_iff H4%negb_true_iff].
  - apply N.eqb_eq in Hc as <-. apply N.eqb_neq in H3, H4.
    destruct (Hsmall a H1 H2). by split_and!.
  - unfold in_range in *. apply andb_true_iff in Hc as [L1%N.leb_le L2%N.leb_le].
    destruct (Hsmall c) as [? ?]; [lia..|]. split_and!; [done|done| |].
    + intros ->. apply andb_false_iff in H3 as [?%N.leb_gt|?%N.leb_gt]; lia.
    + intros ->. apply andb_false_iff in H4 as [?%N.leb_gt|?%N.leb_gt]; lia.
Qed.

Lemma email_address_chars e :
  email_address e → e ≠ [] ∧ 64%N ∈ e ∧ Forall address_char e.
Proof.
  intros (loc & dom & tld & -> & Hl & Fl & Hd & Fd & Ht & Ft). split_and!.
  - by destruct loc.
  - rewrite !elem_of_app. right. left. by left.
  - rewrite !Forall_app. split_and!.
    + eapply Forall_impl; [exact Fl|]. intros c Hc. eapply class_address_char; [exact Hc|reflexivity].
    + apply Forall_singleton. unfold address_char. by vm_compute.
    + eapply Forall_impl; [exact Fd|]. intros c Hc. eapply class_address_char; [exact Hc|reflexivity].
    + apply Forall_singleton. unfold address_char. by vm_compute.
    + eapply Forall_impl; [exact Ft|]. intros c Hc. eapply class_address_char; [exact Hc|reflexivity].
Qed.

(** After the address is replaced by its mask, it occurs nowhere. *)
Lemma email_masked e s :
  email_address e → ¬ occurs_in e (str_replace e (py "<email masked>") s).
Proof.
  intros (Hne & Hat & Hch)%email_address_chars.
  rewrite Forall_forall in Hch. unfold str_replace. destruct e as [|c e]; [done|].
  apply (replace_go_no_occurrence (c :: e) (py "<email masked>") 60%N 62%N 64%N)
    with (n := length s); try done.
  - intros H. by destruct (Hch _ H) as (_ & _ & ? & _).
  - intros H. by destruct (Hch _ H) as (_ & _ & _ & ?).
  - intros H%list_elem_of_In. vm_compute in H.
    repeat (destruct H as [H|H]; [discriminate H|]). done.
Qed.

Lemma occurs_in_inside e s a b : occurs_in e s → occurs_in e (a ++ s ++ b).
Proof. intros (x & y & ->). exists (a ++ x), (y ++ b). by rewrite <- !app_assoc. Qed.

Lemma occurs_in_substr e s i j : occurs_in e (substr s i j) → occurs_in e s.
Proof.
  intros H. rewrite <- (take_drop j s), <- (take_drop i (take j s)).
  rewrite <- app_assoc. by apply occurs_in_inside.
Qed.

Lemma occurs_in_strip e s : occurs_in e (str_strip s) → occurs_in e s.
Proof.
  intros H. destruct (str_strip_split s) as (ws1 & ws2 & E & _). rewrite E.
  by apply occurs_in_inside.
Qed.

Lemma occurs_in_group e m n : e ≠ [] → occurs_in e (group m n) → occurs_in e (m_string m).
Proof.
  intros Hne. unfold group, group0. destruct n as [|n]; [apply occurs_in_substr|].
  destruct (m_groups m !! S n) as [[a b]|]; [apply occurs_in_substr|].
  intros (x & y & E). symmetry in E. by apply app_eq_nil in E as [_ [? _]%app_eq_nil].
Qed.

Lemma extract_email_address text e : extract_email text = Some e → email_address e.
Proof.
  unfold extract_email. destruct (search EMAIL_PATTERN text) as [m|] eqn:E; [|done].
  apply search_Some in E as (Hs & Hse & He & M & _). intros [= <-].
  apply email_span in M as (_ & e & Hem & Ed & Hj & _); [|lia].
  unfold group, group0. rewrite Hs, Hj. apply substr_prefix in Ed. by rewrite Ed.
Qed.

(** The text [extract_experience_text] works on has no occurrence of the
    address left. *)
Lemma mask_contacts_email e phone text :
  email_address e → ¬ occurs_in e (mask_contacts (Some e) phone text).
Proof.
  intros He. pose proof (email_address_chars e He) as (Hne & _).
  unfold mask_contacts. cbn [default]. destruct e as [|c e]; [done|]. cbn [truthy andb].
  destruct (truthy (default [] phone)); by apply email_masked.
Qed.

Lemma extract_experience_text_masked text e w :
  extract_email text = Some e → extract_experience_text text = Some w → ¬ occurs_in e w.
Proof.
  intros He Hw Ho. unfold extract_experience_text in Hw. rewrite He in Hw.
  apply extract_email_address in He. pose proof (email_address_chars e He) as (Hne & _).
  destruct (search EXPERIENCE_TEXT_PATTERN _) as [m|] eqn:E; [|done].
  assert (Hw' : str_strip (group m 2) = w) by congruence. rewrite <- Hw' in Ho.
  apply search_Some in E as (Hs & _).
  apply occurs_in_strip, occurs_in_group in Ho; [|done]. rewrite Hs in Ho.
  by apply (mask_contacts_email e (extract_phone text) text He).
Qed.

(** What is written without white space and in ASCII occurs in a cleaned
    text only if it occurred in the text. *)
Lemma collapse_prefix e : ∀ s,
  Forall address_char e → e `prefix_of` collapse false s → e `prefix_of` s.
Proof.
  induction e as [|c e IH]; intros s He; [by exists s|].
  apply Forall_cons in He as [Hc He]. destruct s as [|x s]; cbn [collapse].
  - by intros [r ?].
  - destruct (is_ascii x) eqn:Hx.
    + intros [r [= <- E]]. destruct (IH s He) as [r' ->]; [by exists r|by exists r'].
    + intros [r [= <- _]]. by destruct Hc as (_ & Hs & _).
Qed.

Lemma occurs_in_collapse e : ∀ s b,
  e ≠ [] → Forall address_char e → occurs_in e (collapse b s) → occurs_in e s.
Proof.
  intros s b Hne He. revert b.
  assert (Hcons : ∀ x s, occurs_in e s → occurs_in e (x :: s)).
  { intros x s' (a & r & ->). by exists (x :: a), r. }
  induction s as [|x s IH]; intros b; cbn [collapse].
  - intros (a & r & E). symmetry in E. by apply app_eq_nil in E as [_ [? _]%app_eq_nil].
  - destruct (is_ascii x) eqn:Hx.
    + intros (a & r & E). destruct a as [|a0 a].
      * destruct (collapse_prefix e (x :: s) He) as [r' ->]; [|by exists [], r'].
        cbn [collapse]. rewrite Hx. exists r. by rewrite E.
      * injection E as _ E. apply Hcons, (IH false). by exists a, r.
    + destruct b.
      * intros H. by apply Hcons, (IH true).
      * intros (a & r & E). destruct a as [|a0 a].
        -- destruct e as [|c e]; [done|]. injection E as <- _.
           apply Forall_cons in He as [(_ & Hs & _) _]. done.
        -- injection E as _ E. apply Hcons, (IH true). by exists a, r.
Qed.

Lemma occurs_in_newlines e s :
  Forall address_char e →
  occurs_in e (map (λ c, if (c =? NL)%N then SPACE else c) s) → occurs_in e s.
Proof.
  intros He (a & r & E). change (map ?f s) with (f <$> s) in E.
  apply fmap_app_inv in E as (a' & k & -> & Ek & ->).
  symmetry in Ek. apply fmap_app_inv in Ek as (e' & r' & Ee & -> & ->).
  exists a', r'. do 2 f_equal. subst e.
  clear -He. induction e' as [|c e' IH]; [done|]. rewrite fmap_cons in *.
  apply Forall_cons in He as [Hc He]. f_equal; [|by apply IH].
  destruct (N.eqb_spec c NL); [|done]. by destruct Hc as (_ & Hs & _).
Qed.

Lemma occurs_in_cleaned e x :
  e ≠ [] → Forall address_char e →
  occurs_in e (or_str (remove_unrecognized_characters x) []) →
  ∃ s, x = Some s ∧ occurs_in e s.
Proof.
  intros Hne He Ho.
  assert (Hnil : ¬ occurs_in e []).
  { intros (a & r & E). symmetry in E. by apply app_eq_nil in E as [_ [? _]%app_eq_nil]. }
  destruct x as [s|]; [|done]. exists s. split; [done|].
  rewrite remove_unrecognized_characters_spec in Ho. destruct (truthy s); [|done].
  unfold or_str in Ho. destruct (truthy (str_strip _)); [|done].
  apply occurs_in_strip, occurs_in_newlines in Ho; [|done].
  by apply occurs_in_collapse in Ho.
Qed.

(** X8.  The mask holds for the address: in every assembled record the
    field work_experience has no occurrence of the address that the field
    email holds. *)
Theorem work_experience_hides_email (text : str) (json_skills json_designations : option (list pyobj))
    (record : pyobj) (e : str) :
  check_titles_and_extract_info text json_skills json_designations = Return record →
  extract_email text = Some e →
  field "email" record = Some (PyStr e)
  ∧ ∃ w, field "work_experience" record = Some (PyStr w) ∧ ¬ occurs_in e w.
Proof.
  intros Hrec He. pose proof (extract_email_address _ _ He) as Hem.
  pose proof (email_address_chars e Hem) as (Hne & _ & Hch).
  revert Hrec. unfold check_titles_and_extract_info.
  destruct (extract_name text json_designations) as [[firstName lastName]|?]; [|done].
  cbn [mbind result_bind].
  destruct (extract_summary_text text) as [summary|?]; [|done].
  destruct (extract_experience_duration text) as [amount duration].
  destruct (check_and_collect_skills text json_skills) as [skills|?]; [|done].
  cbn [mbind result_bind].
  destruct (check_and_collect_designation_ids text json_designations)
    as [[designations title]|?]; [|done].
  cbn [mbind result_bind].
  destruct (sorted_set skills) as [ss|?]; [|done].
  intros <-%Return_inj. rewrite He.
  match goal with |- context [PyDict ((_, ?n) :: (_, ?em) :: (_, ?p) :: (_, ?s) :: (_, ?d)
      :: (_, PyList [PyDict ((_, ?t) :: (_, ?a) :: (_, ?du) :: [(_, ?su)])]) :: [(_, ?w)])] =>
    destruct (record_fields n em p s d t a du su w) as (_ & Hemail & _ & _ & _ & Hwork & _)
  end.
  cbn zeta in Hemail, Hwork. rewrite Hemail, Hwork. split.
  - unfold or_str. by destruct e.
  - eexists. split; [done|]. intros Ho.
    apply occurs_in_cleaned in Ho as (w & Hw & Ho); [|done..].
    by apply (extract_experience_text_masked text e w).
Qed.

End MaskFacts.

(** X8, witness: a text that names the address twice, once in the
    experience section. *)
Lemma work_experience_hides_email_witness :
  ∃ record,
    @check_titles_and_extract_info ascii_only
      (py "bob@site.org" ++ [NL] ++ py "EXPERIENCE" ++ [NL] ++ py "Acme, write to bob@site.org"
         ++ [NL] ++ py "SKILLS" ++ [NL])
      (Some [entry "title" "React"]) (Some [entry "designation" "Engineer"]) = Return record
    ∧ field "email" record = Some (PyStr (py "bob@site.org"))
    ∧ ∃ w, field "work_experience" record = Some (PyStr w)
           ∧ ¬ occurs_in (py "bob@site.org") w.
Proof.
  eexists. split; [vm_compute; reflexivity|].
  apply (@work_experience_hides_email ascii_only
           (py "bob@site.org" ++ [NL] ++ py "EXPERIENCE" ++ [NL] ++ py "Acme, write to bob@site.org"
              ++ [NL] ++ py "SKILLS" ++ [NL])
           (Some [entry "title" "React"]) (Some [entry "designation" "Engineer"]));
    vm_compute; reflexivity.
Defined.

(** ** The name *)

Section NameFacts.
Context `{UD : unicode_db} `{PL : python_lib}.
Import re.

Lemma matches_group_free ic r : ∀ cu gs cu' gs',
  group_free r = true → matches ic r cu gs cu' gs' → gs' = gs.
Proof.
  induction r; cbn [group_free matches]; intros cu gs cu' gs' Hf; try done;
    try (by intros (? & ? & ? & ? & ? & ->));
    try (by intros (? & ? & ->)).
  - by intros [_ ->].
  - apply andb_true_iff in Hf as [H1 H2]. intros (cu1 & gs1 & M1 & M2).
    apply IHr1 in M1 as ->; [|done]. by apply IHr2 in M2.
  - apply andb_true_iff in Hf as [H1 H2]. intros [M|M]; eauto.
  - intros (k & _ & _ & H). revert cu gs H.
    induction k as [|k IHk]; intros cu gs H.
    + by destruct H as [_ ->].
    + destruct H as (cu1 & gs1 & M1 & _ & M2). apply IHr in M1 as ->; [|done]. eauto.
Qed.

Lemma letters_class c :
  in_set false [range "A" "Z"; range "a" "z"] c = is_ascii_letter c.
Proof.
  unfold in_set, is_ascii_letter, is_ascii_upper, is_ascii_lower.
  cbn [existsb in_item range xorb]. by rewrite orb_false_r.
Qed.

Lemma letters_inv cu gs cu' gs' :
  matches false letters cu gs cu' gs' →
  ∃ w, letters_only w ∧ rest cu = w ++ rest cu' ∧ gs' = gs.
Proof.
  intros (w & Hne & Hw & E & ->)%plus_class_inv. exists w. split_and!; try done.
  split; [done|]. eapply Forall_impl; [exact Hw|]. intros c Hc. by rewrite <- letters_class.
Qed.

Lemma rounds_words n : ∀ cu gs cu' gs',
  rounds (matches false (SEQ (chr " ") letters)) n cu gs cu' gs' →
  ∃ ws, Forall letters_only ws ∧ rest cu = flat_map (λ w, SPACE :: w) ws ++ rest cu' ∧ gs' = gs.
Proof.
  induction n as [|n IH]; intros cu gs cu' gs'.
  - intros [-> ->]. by exists [].
  - intros (cu1 & gs1 & (cu2 & gs2 & [E1 ->]%chr_inv & (w & Hw & E2 & ->)%letters_inv) & _
            & (ws & Hws & E3 & ->)%IH).
    exists (w :: ws). split_and!; [by constructor| |done].
    cbn [flat_map]. rewrite E1, E2, E3. by rewrite <- app_assoc.
Qed.

Lemma name_tail_inv cu gs cu' gs' :
  matches false (seq [letters; star (seq [chr " "; letters])]) cu gs cu' gs' →
  ∃ first others, letters_only first ∧ Forall letters_only others
                  ∧ rest cu = name_words first others ++ rest cu' ∧ gs' = gs.
Proof.
  cbn [seq]. intros (cu1 & gs1 & (w & Hw & E1 & ->)%letters_inv & n & _ & _
                     & (ws & Hws & E2 & ->)%rounds_words).
  exists w, ws. split_and!; try done. unfold name_words. rewrite E1, E2. by rewrite <- app_assoc.
Qed.

(** The word a pattern reads between two offsets of a text. *)
Lemma matches_between ic r text i gs cu' gs' w :
  i ≤ length text → matches ic r (cursor_at text i) gs cu' gs' →
  rest (cursor_at text i) = w ++ rest cu' →
  ∃ j, cu' = cursor_at text j ∧ j ≤ length text ∧ pos cu' = j ∧ substr text i j = w.
Proof.
  intros Hi M E. destruct (matches_cursor_at _ _ _ _ _ _ _ Hi M) as (j & -> & Hj & Hd).
  exists j. split_and!; [done|lia|done|]. cbn [rest cursor_at] in E. rewrite E in Hd.
  by apply app_inv_tail in Hd.
Qed.

Lemma matches_on ic r text i gs cu' gs' :
  i ≤ length text → matches ic r (cursor_at text i) gs cu' gs' →
  ∃ j, cu' = cursor_at text j ∧ j ≤ length text.
Proof.
  intros Hi M. destruct (matches_cursor_at _ _ _ _ _ _ _ Hi M) as (j & -> & Hj & _).
  exists j. split; [done|lia].
Qed.

(** The two groups of [NAME_PATTERN]: a word of letters, and words of
    letters with a space between them. *)
Lemma name_pattern_groups text m :
  search NAME_PATTERN text = Some m →
  ∃ w1 first others,
    group m 1 = w1 ∧ letters_only w1
    ∧ group m 2 = name_words first others ∧ letters_only first ∧ Forall letters_only others.
Proof.
  intros (Hs & Hse & He & M & _)%search_Some.
  assert (Hi : m_start m ≤ length text) by lia.
  unfold matches_span, NAME_PATTERN in M. cbn [p_regex p_ignorecase seq] in M.
  destruct M as (c0 & g0 & M0 & c1 & g1 & M1 & c2 & g2 & M2 & c3 & g3 & M3 & c4 & g4 & M4
                 & c5 & g5 & (g5' & M5 & ->) & c6 & g6 & M6 & c7 & g7 & (g7' & M7 & ->) & M8).
  destruct M0 as (_ & -> & ->).
  destruct (matches_on _ _ _ _ _ _ _ Hi M1) as (j1 & -> & H1).
  apply matches_group_free in M1 as ->; [|done].
  destruct (matches_on _ _ _ _ _ _ _ H1 M2) as (j2 & -> & H2).
  apply matches_group_free in M2 as ->; [|done].
  destruct (matches_on _ _ _ _ _ _ _ H2 M3) as (j3 & -> & H3).
  apply matches_group_free in M3 as ->; [|done].
  destruct (matches_on _ _ _ _ _ _ _ H3 M4) as (j4 & -> & H4).
  apply matches_group_free in M4 as ->; [|done].
  pose proof M5 as M5'. apply letters_inv in M5' as (w1 & Hw1 & E5 & ->).
  destruct (matches_between _ _ _ _ _ _ _ _ H4 M5 E5) as (j5 & -> & H5 & _ & S5).
  destruct (matches_on _ _ _ _ _ _ _ H5 M6) as (j6 & -> & H6).
  apply matches_group_free in M6 as ->; [|done].
  pose proof M7 as M7'. apply name_tail_inv in M7' as (first & others & Hf & Ho & E7 & ->).
  destruct (matches_between _ _ _ _ _ _ _ _ H6 M7 E7) as (j7 & -> & H7 & _ & S7).
  apply matches_group_free in M8 as Hg; [|done].
  exists w1, first, others. cbn [pos cursor_at] in Hg. split_and!; try done.
  - unfold group. rewrite Hg, lookup_insert_ne, lookup_insert_eq by done. by rewrite Hs.
  - unfold group. rewrite Hg, lookup_insert_eq. by rewrite Hs.
Qed.

Lemma letter_not_space c : is_ascii_letter c = true → is_space c = false.
Proof.
  unfold is_ascii_letter, is_ascii_upper, is_ascii_lower, is_space, is_ascii, in_range.
  intros [[H1%N.leb_le H2%N.leb_le]%andb_true_iff|[H1%N.leb_le H2%N.leb_le]%andb_true_iff]%orb_true_iff;
    (assert (c < 128)%N as ->%N.ltb_lt by lia);
    apply orb_false_iff; split; apply andb_false_iff; right; apply N.leb_gt; lia.
Qed.

Lemma letters_only_strip w : letters_only w → str_strip w = w.
Proof.
  intros [Hne Hw]. apply str_strip_fixed.
  - destruct w as [|c w]; [done|]. apply Forall_cons in Hw as [Hc _]. by apply letter_not_space.
  - destruct (last w) as [c|] eqn:El; [|done]. apply last_Some_elem_of in El.
    rewrite Forall_forall in Hw. by apply letter_not_space, Hw.
Qed.

Lemma letters_only_app a b : letters_only a → letters_only b → letters_only (a ++ b).
Proof. intros [Ha Fa] [Hb Fb]. split; [by destruct a|by apply Forall_app]. Qed.

Lemma name_words_chars first others :
  letters_only first → Forall letters_only others →
  Forall (λ c, is_ascii_letter c = true ∨ c = SPACE) (name_words first others)
  ∧ (∃ c, head (name_words first others) = Some c ∧ is_ascii_letter c = true)
  ∧ (∃ c, last (name_words first others) = Some c ∧ is_ascii_letter c = true)
  ∧ (others = [] ∨ 2 + length first ≤ length (name_words first others)).
Proof.
  intros [Hne Hf] Ho. unfold name_words.
  assert (Hlast : ∀ w, letters_only w → ∃ c, last w = Some c ∧ is_ascii_letter c = true).
  { intros w [Hw Fw]. destruct (proj2 (last_is_Some w) Hw) as [c Hc]. exists c. split; [done|].
    rewrite Forall_forall in Fw. by apply Fw, last_Some_elem_of. }
  split_and!.
  - apply Forall_app. split; [eapply Forall_impl; [exact Hf|]; auto|].
    induction Ho as [|w ws [_ Hw] _ IH]; [constructor|]. cbn [flat_map].
    constructor; [by right|]. apply Forall_app. split; [|done].
    eapply Forall_impl; [exact Hw|]; auto.
  - destruct first as [|c first]; [done|]. exists c. split; [done|].
    by apply Forall_cons in Hf as [? _].
  - destruct Ho as [|w ws Hw Ho]; [rewrite app_nil_r; by apply Hlast|].
    assert (Hfl : ∃ c, last (flat_map (λ w, SPACE :: w) (w :: ws)) = Some c
                       ∧ is_ascii_letter c = true).
    { clear -Hw Ho Hlast. revert w Hw. induction Ho as [|w' ws Hw' _ IH]; intros w Hw.
      - cbn [flat_map]. rewrite app_nil_r. destruct (Hlast w Hw) as (c & Hc & Hl).
        exists c. split; [|done]. destruct w; [by destruct Hw|]. done.
      - destruct (IH w' Hw') as (c & Hc & Hl). exists c. split; [|done].
        change (flat_map _ (w :: w' :: ws))
          with ((SPACE :: w) ++ flat_map (λ w, SPACE :: w) (w' :: ws)).
        by rewrite last_app, Hc. }
    destruct Hfl as (c & Hc & Hl). exists c. split; [|done]. by rewrite last_app, Hc.
  - destruct Ho as [|w ws [Hw _] _]; [by left|]. right. cbn [flat_map].
    rewrite !length_app. destruct w; [done|]. simpl. lia.
Qed.

Lemma name_words_strip first others :
  letters_only first → Forall letters_only others →
  str_strip (name_words first others) = name_words first others
  ∧ bool_decide (NL ∈ name_words first others) = false
  ∧ truthy (name_words first others) = true.
Proof.
  intros Hf Ho. destruct (name_words_chars first others Hf Ho) as (Hch & (c & Hc & Hl) & (d & Hd & Hl') & _).
  split_and!.
  - apply str_strip_fixed; [rewrite Hc|rewrite Hd]; by apply letter_not_space.
  - apply bool_decide_eq_false. intros Hin. rewrite Forall_forall in Hch.
    destruct (Hch _ Hin) as [H|H]; [|done]. by vm_compute in H.
  - destruct (name_words first others); [done|done].
Qed.

(** The three ways [extract_name] ends. *)
Lemma extract_name_cases (text : str) (json_data : option (list pyobj)) (fn ln : str) :
  extract_name text json_data = Return (fn, ln) →
  (fn = [] ∧ ln = [])
  ∨ (letters_only fn ∧ 2 ≤ length fn ∧ ln = [])
  ∨ (letters_only fn ∧ 2 < length fn < 50 ∧ 2 < length ln
     ∧ ∃ first others, ln = name_words first others ∧ letters_only first
                       ∧ Forall letters_only others).
Proof.
  unfold extract_name.
  destruct (check_and_collect_designation_ids text json_data) as [[designations t]|?]; [|done].
  cbn [mbind result_bind].
  destruct (search NAME_PATTERN _) as [m|] eqn:E; [|intros [= <- <-]; by left].
  apply name_pattern_groups in E as (w1 & first & others & -> & Hw1 & -> & Hf & Ho).
  destruct (name_words_strip first others Hf Ho) as (-> & -> & ->).
  rewrite (letters_only_strip w1 Hw1).
  assert (truthy w1 = true) as -> by (destruct Hw1 as [? _]; by destruct w1).
  cbn [andb].
  destruct (name_words_chars first others Hf Ho) as (_ & _ & _ & Hlen).
  destruct (2 <? length w1) eqn:L1; destruct (length w1 <? 50) eqn:L2;
    destruct (2 <? length (name_words first others)) eqn:L3; cbn [andb];
    try (intros [= <- <-]; right; right; apply Nat.ltb_lt in L1, L2, L3;
         split_and!; [done|lia|lia|lia|by exists first, others]).
  all: destruct (length (name_words first others) <=? 2) eqn:L4;
    try (intros [= <- <-]; by left).
  all: intros [= <- <-]; right; left; apply Nat.leb_le in L4;
    (destruct Hlen as [-> | Hlen]; [|destruct Hf as [Hf _]; destruct first; [done|cbn [length] in Hlen; lia]]);
    unfold name_words in *; cbn [flat_map] in *; rewrite app_nil_r in *;
    (split_and!; [by apply letters_only_app| |done]);
    rewrite length_app; destruct Hw1 as [? _], Hf as [? _]; destruct w1, first; try done; simpl; lia.
Qed.

(** X9.  [extract_name] returns nothing but ASCII letters, and spaces
    between the words of a surname: either both names are empty, or the
    first name has at least two letters and the surname is empty, or the
    first name has three to forty-nine letters and the surname, of more
    than two characters, is made of words of letters with one space between
    them; in particular it holds no newline. *)
Theorem extract_name_shape (text : str) (json_data : option (list pyobj)) (fn ln : str) :
  extract_name text json_data = Return (fn, ln) →
  (fn = [] ∧ ln = [])
  ∨ (letters_only fn ∧ 2 ≤ length fn ∧ ln = [])
  ∨ (letters_only fn ∧ 2 < length fn < 50 ∧ 2 < length ln
     ∧ ∃ first others, ln = name_words first others ∧ letters_only first
                       ∧ Forall letters_only others).
Proof. apply extract_name_cases. Qed.

End NameFacts.

(** X9, witness: a heading with a bar and a surname of three words. *)
Lemma extract_name_shape_witness :
  @extract_name ascii_only (py "Resume | Ana Maria de Souza" ++ [NL] ++ py "Engineer")
    (Some [entry "designation" "Engineer"]) = Return (py "Ana", py "Maria de Souza")
  ∧ ((py "Ana" = [] ∧ py "Maria de Souza" = [])
     ∨ (letters_only (py "Ana") ∧ 2 ≤ length (py "Ana") ∧ py "Maria de Souza" = [])
     ∨ (letters_only (py "Ana") ∧ 2 < length (py "Ana") < 50 ∧ 2 < length (py "Maria de Souza")
        ∧ ∃ first others, py "Maria de Souza" = name_words first others ∧ letters_only first
                          ∧ Forall letters_only others)).
Proof.
  split; [vm_compute; reflexivity|].
  apply (@extract_name_shape ascii_only
           (py "Resume | Ana Maria de Souza" ++ [NL] ++ py "Engineer")
           (Some [entry "designation" "Engineer"]));
    vm_compute; reflexivity.
Defined.

(** ** The name of an upload *)

Section UploadName.

Lemma str_lstrip_chars_split chars s :
  ∃ a, s = a ++ str_lstrip_chars chars s ∧ Forall (λ c, c ∈ chars) a
       ∧ match head (str_lstrip_chars chars s) with Some c => c ∉ chars | None => True end.
Proof.
  induction s as [|c t (a & E & Ha & Hh)]; [by exists []|]. cbn [str_lstrip_chars].
  case_bool_decide as Hc.
  - exists (c :: a). split_and!; [by rewrite E at 1|by constructor|done].
  - exists []. by split_and!.
Qed.

Lemma str_lstrip_chars_fixed chars s :
  match head s with Some c => c ∉ chars | None => True end → str_lstrip_chars chars s = s.
Proof. destruct s as [|c t]; [done|]. simpl. intros H. by rewrite bool_decide_eq_false_2. Qed.

(** What [strip(chars)] returns is what is between the characters of
    [chars] at the two ends, and neither begins nor ends with one. *)
Lemma str_strip_chars_split chars s :
  ∃ a b, s = a ++ str_strip_chars chars s ++ b
    ∧ Forall (λ c, c ∈ chars) a ∧ Forall (λ c, c ∈ chars) b
    ∧ match head (str_strip_chars chars s) with Some c => c ∉ chars | None => True end
    ∧ match last (str_strip_chars chars s) with Some c => c ∉ chars | None => True end.
Proof.
  unfold str_strip_chars. destruct (str_lstrip_chars_split chars s) as (a & E1 & Ha & Hh).
  set (t := str_lstrip_chars chars s) in *.
  destruct (str_lstrip_chars_split chars (rev t)) as (b & E2 & Hb & Hl).
  set (u := str_lstrip_chars chars (rev t)) in *.
  assert (Et : t = rev u ++ rev b) by (by rewrite <- rev_app_distr, <- E2, rev_involutive).
  exists a, (rev b). split_and!.
  - by rewrite <- Et.
  - done.
  - by apply Forall_rev.
  - destruct (rev u) as [|c r] eqn:Er; [done|]. rewrite Et in Hh. by simpl in Hh.
  - rewrite <- head_reverse. unfold reverse. by rewrite <- rev_alt, rev_involutive.
Qed.

Lemma str_strip_chars_fixed chars s :
  match head s with Some c => c ∉ chars | None => True end →
  match last s with Some c => c ∉ chars | None => True end →
  str_strip_chars chars s = s.
Proof.
  intros Hh Hl. unfold str_strip_chars. rewrite (str_lstrip_chars_fixed chars s) by done.
  rewrite str_lstrip_chars_fixed; [apply rev_involutive|].
  rewrite <- (rev_involutive s) in Hl. rewrite rev_alt in Hl. fold (reverse (rev s)) in Hl.
  by rewrite last_reverse in Hl.
Qed.

Lemma str_strip_chars_ends chars a s b :
  Forall (λ c, c ∈ chars) a → Forall (λ c, c ∈ chars) b →
  str_strip_chars chars (a ++ s ++ b) = str_strip_chars chars s.
Proof.
  intros Ha Hb. unfold str_strip_chars.
  assert (Hl : ∀ x y, Forall (λ c, c ∈ chars) x →
                      str_lstrip_chars chars (x ++ y) = str_lstrip_chars chars y).
  { intros x y Hx. induction Hx as [|c x Hc _ IH]; [done|]. cbn [app str_lstrip_chars].
    by rewrite bool_decide_eq_true_2. }
  rewrite Hl by done.
  destruct (str_lstrip_chars_split chars s) as (a' & E1 & Ha' & Hh).
  destruct (str_lstrip_chars chars s) as [|c t] eqn:Es.
  - (* everything goes *)
    rewrite app_nil_r in E1. subst s.
    assert (Hall : ∀ x, Forall (λ c, c ∈ chars) x → str_lstrip_chars chars x = []).
    { intros x Hx. rewrite <- (app_nil_r x). by rewrite Hl. }
    rewrite (Hall (a' ++ b)) by (by apply Forall_app). done.
  - assert (E : str_lstrip_chars chars (s ++ b) = (c :: t) ++ b).
    { rewrite E1 at 1. rewrite <- app_assoc, Hl by done.
      cbn [app str_lstrip_chars]. by rewrite bool_decide_eq_false_2. }
    rewrite E. rewrite rev_app_distr. rewrite Hl by (by apply Forall_rev). done.
Qed.

(** X10.  The name under which an upload is filed is the file name without
    the characters ".", "p", "d" and "f" at its two ends, not the file name
    without its extension: the file name is the result between two runs of
    these characters, the result neither begins nor ends with one of them,
    and it is the only part of the file name of which this can be said; so
    for a file [stem ++ ".pdf"] it is the stem exactly when the stem neither
    begins nor ends with one of the four characters.  A missing or empty
    file name gives "no_file". *)
Theorem upload_file_name_stem :
  (∀ f, f ≠ [] →
     ∃ a b, f = a ++ upload_file_name (Some f) ++ b
            ∧ Forall (λ c, c ∈ py ".pdf") a ∧ Forall (λ c, c ∈ py ".pdf") b
            ∧ match head (upload_file_name (Some f)) with
              | Some c => c ∉ py ".pdf"
              | None => True
              end
            ∧ match last (upload_file_name (Some f)) with
              | Some c => c ∉ py ".pdf"
              | None => True
              end)
  ∧ (∀ f a r b,
       f ≠ [] → f = a ++ r ++ b →
       Forall (λ c, c ∈ py ".pdf") a → Forall (λ c, c ∈ py ".pdf") b →
       match head r with Some c => c ∉ py ".pdf" | None => True end →
       match last r with Some c => c ∉ py ".pdf" | None => True end →
       upload_file_name (Some f) = r)
  ∧ (∀ stem,
       upload_file_name (Some (stem ++ py ".pdf")) = stem ↔
       match head stem with Some c => c ∉ py ".pdf" | None => True end
       ∧ match last stem with Some c => c ∉ py ".pdf" | None => True end)
  ∧ upload_file_name None = py "no_file"
  ∧ upload_file_name (Some []) = py "no_file".
Proof.
  split_and!; [| | |done|done].
  - intros f Hf. unfold upload_file_name. destruct f as [|c f]; [done|]. cbn [truthy].
    destruct (str_strip_chars_split (py ".pdf") (c :: f)) as (a & b & E & Ha & Hb & Hh & Hl).
    by exists a, b.
  - intros f a r b Hf -> Ha Hb Hh Hl. unfold upload_file_name.
    assert (truthy (a ++ r ++ b) = true) as -> by (by destruct (a ++ r ++ b)).
    rewrite (str_strip_chars_ends (py ".pdf") a r b Ha Hb).
    by apply str_strip_chars_fixed.
  - intros stem. unfold upload_file_name.
    assert (truthy (stem ++ py ".pdf") = true) as -> by (by destruct stem).
    rewrite <- (app_nil_l (stem ++ py ".pdf")).
    rewrite (str_strip_chars_ends (py ".pdf") [] stem (py ".pdf")); [|done|].
    2: { rewrite Forall_forall. by intros c Hc. }
    split.
    + intros E. destruct (str_strip_chars_split (py ".pdf") stem) as (_ & _ & _ & _ & _ & Hh & Hl).
      by rewrite E in Hh, Hl.
    + intros [Hh Hl]. by apply str_strip_chars_fixed.
Qed.

End UploadName.

(** X10, closed runs: "draft.pdf" is filed as "raft", "cv-2024.pdf" as
    "cv-2024". *)
Lemma upload_file_name_examples :
  upload_file_name (Some (py "draft.pdf")) = py "raft"
  ∧ upload_file_name (Some (py "cv-2024.pdf")) = py "cv-2024"
  ∧ upload_file_name (Some []) = py "no_file".
Proof. split_and!; vm_compute; reflexivity. Qed.

(** ** Substitution of the runs of a class *)
Section ClassRuns.
Context `{UD : unicode_db}.
Import re.
Variables (q : char → bool) (r1 : regex) (repl : str).
Hypothesis r1_class : ∀ cu gs k, run false r1 cu gs k = one q cu gs k.

Lemma match_at_class_run cu :
  match_at (Pattern (plus r1) false) false cu
  = if decide (1 ≤ span_length q (rest cu))
    then Some (pos cu + span_length q (rest cu), ∅) else None.
Proof.
  unfold match_at, plus. cbn [p_regex p_ignorecase run andb].
  assert (E : ∀ k f cnt c gs, repeat_loop (run false r1) true 1 None k f cnt c gs
                              = repeat_loop (one q) true 1 None k f cnt c gs).
  { intros k f. induction f as [|f IH]; intros cnt c gs; cbn [repeat_loop]; [done|].
    rewrite r1_class. cbn [below]. unfold one. destruct (rest c) as [|x t]; [done|].
    destruct (q x); [|done]. case_decide; [|done]. by rewrite IH. }
  rewrite E. by rewrite (greedy_class_loop q 1 _ (λ _ _, eq_refl)).
Qed.

Lemma scan_class_run subject : ∀ s i pv,
  scan (Pattern (plus r1) false) subject false i pv s
  = (λ '(a, b), Match subject a b ∅) <$> first_class_run q i s.
Proof.
  induction s as [|c t IH]; intros i pv; cbn [scan first_class_run].
  - rewrite match_at_class_run. cbn [rest span_length]. by rewrite decide_False by lia.
  - rewrite match_at_class_run. cbn [rest span_length pos]. destruct (q c).
    + rewrite decide_True by lia. cbn. do 2 f_equal. lia.
    + rewrite decide_False by lia. apply IH.
Qed.

Lemma span_length_le s : span_length q s ≤ length s.
Proof. induction s as [|x t IH]; simpl; [lia|]. destruct (q x); simpl; lia. Qed.

Lemma first_class_run_None i s : first_class_run q i s = None → Forall (λ c, q c = false) s.
Proof.
  revert i. induction s as [|c t IH]; intros i; [constructor|]. cbn [first_class_run].
  destruct (q c) eqn:A; [done|]. intros H. constructor; [done|by eapply IH].
Qed.

Lemma first_class_run_Some i s a b :
  first_class_run q i s = Some (a, b) →
  ∃ pre run post,
    s = pre ++ run ++ post
    ∧ Forall (λ c, q c = false) pre
    ∧ run ≠ [] ∧ Forall (λ c, q c = true) run
    ∧ match head post with Some c => q c = false | None => True end
    ∧ a = i + length pre ∧ b = a + length run.
Proof.
  revert i. induction s as [|c t IH]; intros i; [done|]. cbn [first_class_run].
  destruct (q c) eqn:A.
  - intros [= <- <-]. destruct (span_length_split q t) as [H1 H2].
    exists [], (c :: take (span_length q t) t), (drop (span_length q t) t).
    split_and!; try done.
    + by rewrite app_nil_l, <- app_comm_cons, take_drop.
    + by constructor.
    + cbn [length]. rewrite length_take. pose proof (span_length_le t). lia.
  - intros (pre & run & post & -> & Hpre & Hne & Hrun & Hpost & -> & ->)%IH.
    exists (c :: pre), run, post. split_and!; try done; [by constructor|simpl; lia].
Qed.

Lemma collapse_class_outside pre r :
  Forall (λ c, q c = false) pre →
  collapse_class q repl false (pre ++ r) = pre ++ collapse_class q repl false r.
Proof. induction 1 as [|c pre Hc _ IH]; [done|]. cbn. by rewrite Hc, IH. Qed.

Lemma collapse_class_none s b :
  Forall (λ c, q c = false) s → collapse_class q repl b s = s.
Proof.
  intros H. revert b. induction H as [|c s Hc _ IH]; intros b; [done|]. cbn. by rewrite Hc, IH.
Qed.

Lemma collapse_class_in_run run post :
  Forall (λ c, q c = true) run →
  match head post with Some c => q c = false | None => True end →
  collapse_class q repl true (run ++ post) = collapse_class q repl false post.
Proof.
  intros Hrun Hpost. induction Hrun as [|c run Hc _ IH].
  - destruct post as [|c post]; [done|]. simpl in *. by rewrite Hpost.
  - cbn. by rewrite Hc.
Qed.

Lemma collapse_class_run run post :
  run ≠ [] → Forall (λ c, q c = true) run →
  match head post with Some c => q c = false | None => True end →
  collapse_class q repl false (run ++ post) = repl ++ collapse_class q repl false post.
Proof.
  intros Hne Hrun Hpost. destruct Hrun as [|c run Hc Hrun]; [done|].
  cbn. rewrite Hc. f_equal. by apply collapse_class_in_run.
Qed.

Lemma sub_class_from (s : str) : ∀ n i fuel,
  length s - i ≤ n → i ≤ length s → n < fuel →
  sub_build repl s i (finditer_from fuel (Pattern (plus r1) false) s false i)
  = collapse_class q repl false (drop i s).
Proof.
  induction n as [|n IH]; intros i [|f] Hn Hi Hf; try lia;
    cbn [finditer_from]; unfold scan_from; rewrite scan_class_run;
    destruct (first_class_run q i (drop i s)) as [[a b]|] eqn:E;
    cbn [fmap option_fmap option_map sub_build].
  - apply first_class_run_Some in E as (pre & run & post & E & _ & Hne & _).
    apply (f_equal length) in E. rewrite length_drop, !length_app in E.
    destruct run; [done|]. simpl in E. lia.
  - apply first_class_run_None in E. by rewrite collapse_class_none.
  - apply first_class_run_Some in E as (pre & run & post & E & Hpre & Hne & Hrun & Hpost & -> & ->).
    cbn [m_start m_end].
    assert (Hlen : length (drop i s) = length pre + length run + length post)
      by (by rewrite E, !length_app, Nat.add_assoc).
    rewrite length_drop in Hlen.
    assert (Hr : 0 < length run) by (destruct run; [done|simpl; lia]).
    replace (i + length pre + length run =? i + length pre) with false
      by (symmetry; apply Nat.eqb_neq; lia).
    rewrite IH by lia.
    assert (Hsub : substr s i (i + length pre) = pre) by (by eapply substr_prefix).
    assert (Hpost' : drop (i + length pre + length run) s = post).
    { rewrite <- Nat.add_assoc, <- drop_drop, E, app_assoc, <- length_app.
      by rewrite drop_app_length. }
    rewrite Hsub, Hpost', E, collapse_class_outside, collapse_class_run by done. done.
  - apply first_class_run_None in E. by rewrite collapse_class_none.
Qed.

(** [re.sub] with a pattern [C+], for a class [C], puts the replacement in
    the place of every maximal run of characters of the class. *)
Lemma sub_class_runs s :
  sub (Pattern (plus r1) false) repl s = collapse_class q repl false s.
Proof.
  unfold sub, finditer. rewrite <- (drop_0 s) at 3. apply (sub_class_from s (length s)); lia.
Qed.

End ClassRuns.

(** ** The lines of a PDF *)
Section Lines.
Context `{UD : unicode_db}.

Lemma blank_strip s : truthy (str_strip s) = false ↔ blank s.
Proof.
  destruct (str_strip_split s) as (ws1 & ws2 & E & H1 & H2 & Hh & _). split.
  - intros H. destruct (str_strip s); [|done]. rewrite E. unfold blank.
    by rewrite app_nil_l, Forall_app.
  - intros H. pose proof (str_strip_Forall _ s H) as Hs.
    destruct (str_strip s) as [|c t]; [done|]. simpl in Hh.
    apply Forall_cons in Hs as [Hc _]. congruence.
Qed.

Lemma solid_span s : ∀ c, head s = Some c → is_space c = false →
  ∃ w r, s = w ++ r ∧ solid w
         ∧ match head r with Some c => is_space c = true | None => True end.
Proof.
  induction s as [|x t IH]; intros c; [done|]. intros [= ->] Hc.
  destruct t as [|d t'].
  - exists [c], []. split_and!; [done| |done]. split; [done|by repeat constructor].
  - destruct (is_space d) eqn:Hd.
    + exists [c], (d :: t'). split_and!; [done| |done]. split; [done|by repeat constructor].
    + destruct (IH d eq_refl Hd) as (w & r & E & [Hne Hw] & Hr).
      exists (c :: w), r. split_and!; [by rewrite E| |done].
      split; [done|by constructor].
Qed.

Lemma gaps_decomp : ∀ n s, length s ≤ n →
  match head s with Some c => is_space c = true | None => True end →
  ∃ (rest : list (str * str)) trail,
    s = flat_map (λ gw, gw.1 ++ gw.2) rest ++ trail ∧ blank trail
    ∧ Forall (λ gw, gw.1 ≠ [] ∧ blank gw.1 ∧ solid gw.2) rest.
Proof.
  induction n as [|n IH]; intros s Hn Hh.
  - destruct s; [|simpl in Hn; lia]. exists [], []. split_and!; [done|constructor|constructor].
  - destruct s as [|x t]; [exists [], []; split_and!; [done|constructor|constructor]|].
    destruct (str_lstrip_split (x :: t)) as (ws & E & Hws & Hl).
    assert (Hne : ws ≠ []).
    { intros ->. rewrite app_nil_l in E. rewrite <- E in Hl. simpl in Hh, Hl. congruence. }
    destruct (str_lstrip (x :: t)) as [|c s'] eqn:El.
    + exists [], ws. split_and!; [by rewrite E, app_nil_r|done|constructor].
    + simpl in Hl. destruct (solid_span (c :: s') c eq_refl Hl) as (w & r & E' & Hw & Hr).
      assert (Hlen : length r ≤ n).
      { apply (f_equal length) in E, E'. rewrite length_app in E, E'. simpl in Hn.
        destruct Hw as [? _]. destruct ws, w; try done. simpl in *. lia. }
      destruct (IH r Hlen Hr) as (rest & trail & Er & Htr & Hrest).
      exists ((ws, w) :: rest), trail. split_and!; [|done|by constructor].
      cbn [flat_map fst snd]. rewrite E, E', Er. by rewrite <- !app_assoc.
Qed.

Lemma line_decomp s : ¬ blank s →
  ∃ lead first (rest : list (str * str)) trail,
    s = lead ++ first ++ flat_map (λ gw, gw.1 ++ gw.2) rest ++ trail
    ∧ blank lead ∧ blank trail ∧ solid first
    ∧ Forall (λ gw, gw.1 ≠ [] ∧ blank gw.1 ∧ solid gw.2) rest.
Proof.
  intros Hnb. destruct (str_lstrip_split s) as (lead & E & Hlead & Hl).
  destruct (str_lstrip s) as [|c s'] eqn:El.
  { destruct Hnb. rewrite E, app_nil_r. done. }
  simpl in Hl. destruct (solid_span (c :: s') c eq_refl Hl) as (first & r & E' & Hf & Hr).
  destruct (gaps_decomp (length r) r (le_n _) Hr) as (rest & trail & Er & Htr & Hrest).
  exists lead, first, rest, trail. split_and!; try done. by rewrite E, E', Er.
Qed.

Lemma collapse_space_blank (ws post : str) :
  ws ≠ [] → blank ws →
  match head post with Some c => is_space c = false | None => True end →
  collapse_class is_space [SPACE] false (ws ++ post)
  = SPACE :: collapse_class is_space [SPACE] false post.
Proof. intros Hne Hb Hp. by rewrite collapse_class_run. Qed.

Lemma solid_head (w r : str) : solid w →
  match head (w ++ r) with Some c => is_space c = false | None => True end.
Proof. intros [Hne Hw]. destruct Hw as [|c w Hc _]; [done|]. done. Qed.

Lemma collapse_gaps (rest : list (str * str)) trail :
  Forall (λ gw, gw.1 ≠ [] ∧ blank gw.1 ∧ solid gw.2) rest → blank trail →
  collapse_class is_space [SPACE] false (flat_map (λ gw, gw.1 ++ gw.2) rest ++ trail)
  = flat_map (λ gw, SPACE :: gw.2) rest ++ match trail with [] => [] | _ => [SPACE] end.
Proof.
  intros Hrest Htr. induction Hrest as [|[g w] rest (Hne & Hg & Hw) _ IH].
  - cbn [flat_map app]. destruct trail as [|c t]; [done|].
    rewrite <- (app_nil_r (c :: t)). by rewrite collapse_space_blank.
  - cbn [flat_map fst snd] in *. rewrite <- !app_assoc.
    rewrite collapse_space_blank by (done || by apply solid_head).
    rewrite collapse_class_outside by apply Hw. by rewrite IH.
Qed.

Lemma str_lstrip_blank (ws s : str) : blank ws → str_lstrip (ws ++ s) = str_lstrip s.
Proof. induction 1 as [|c ws Hc _ IH]; [done|]. cbn. by rewrite Hc. Qed.

Lemma str_rstrip_blank (ws s : str) : blank ws → str_rstrip (s ++ ws) = str_rstrip s.
Proof.
  intros H. unfold str_rstrip. rewrite rev_app_distr, str_lstrip_blank; [done|].
  unfold blank in *. rewrite Forall_forall in *. intros c Hc. apply H.
  by apply list_elem_of_In, in_rev, list_elem_of_In.
Qed.

Lemma squeezed_last first (rest : list (str * str)) :
  solid first → Forall (λ gw, gw.1 ≠ [] ∧ blank gw.1 ∧ solid gw.2) rest →
  match last (first ++ flat_map (λ gw, SPACE :: gw.2) rest) with
  | Some c => is_space c = false
  | None => True
  end.
Proof.
  intros Hf Hrest. revert first Hf.
  induction Hrest as [|[g w] rest (_ & _ & Hw) _ IH]; intros first Hf.
  - cbn [flat_map]. rewrite app_nil_r. destruct (last first) as [c|] eqn:E; [|done].
    apply last_Some_elem_of in E. destruct Hf as [_ Hf]. rewrite Forall_forall in Hf. by apply Hf.
  - cbn [flat_map snd]. specialize (IH w Hw).
    change (first ++ (SPACE :: w) ++ flat_map (λ gw, SPACE :: gw.2) rest)
      with (first ++ [SPACE] ++ (w ++ flat_map (λ gw, SPACE :: gw.2) rest)).
    rewrite (app_assoc first), (last_app (first ++ [SPACE])).
    destruct (last (w ++ flat_map (λ gw, SPACE :: gw.2) rest)) eqn:E; [done|].
    apply last_None in E. destruct Hw as [Hne _]. by destruct w.
Qed.

(** What the comprehension makes of a line that is not blank. *)
Lemma normalised_line_squeezed line :
  ¬ blank line → squeezed line (str_strip (re.sub WHITESPACE_RUN [SPACE] line)).
Proof.
  intros (lead & first & rest & trail & E & Hlead & Htr & Hf & Hrest)%line_decomp.
  exists lead, first, rest, trail. split_and!; try done.
  unfold WHITESPACE_RUN. rewrite (sub_class_runs is_space space [SPACE] (λ _ _ _, eq_refl)).
  set (body := first ++ flat_map (λ gw, SPACE :: gw.2) rest).
  assert (Hc : collapse_class is_space [SPACE] false line
               = match lead with [] => [] | _ => [SPACE] end ++ body
                 ++ match trail with [] => [] | _ => [SPACE] end).
  { rewrite E. destruct lead as [|l0 lead].
    - rewrite !app_nil_l. rewrite collapse_class_outside by apply Hf.
      rewrite collapse_gaps by done. unfold body. by rewrite <- app_assoc.
    - rewrite collapse_space_blank by (done || by apply solid_head).
      rewrite collapse_class_outside by apply Hf.
      rewrite collapse_gaps by done. unfold body. by rewrite <- app_assoc. }
  rewrite Hc. unfold str_strip.
  rewrite str_lstrip_blank by (destruct lead; by repeat constructor).
  rewrite str_lstrip_fixed by (unfold body; rewrite <- app_assoc; by apply solid_head).
  rewrite str_rstrip_blank by (destruct trail; by repeat constructor).
  apply str_rstrip_fixed. by apply squeezed_last.
Qed.

Lemma normalised_lines_squeezed text :
  Forall2 squeezed (filter (λ l, ¬ blank l) (str_split NL text)) (normalised_lines text).
Proof.
  unfold normalised_lines. induction (str_split NL text) as [|line lines IH]; [constructor|].
  rewrite !filter_cons. destruct (truthy (str_strip line)) eqn:Ht.
  - assert (Hnb : ¬ blank line) by (rewrite <- blank_strip; congruence).
    rewrite decide_True by done. rewrite decide_True by done. cbn [map].
    constructor; [by apply normalised_line_squeezed|done].
  - apply blank_strip in Ht as Hb.
    rewrite decide_False by (intros Hn; by apply Hn). rewrite decide_False by congruence. done.
Qed.

(** X11.  The lines [extract_text_line_by_line] returns are those of the
    text of the first converter, or of the second when the first gave
    nothing but white space: the blank lines are left out and every other
    line comes without the white space at its ends and with a single space
    for every stretch of white space inside it.  [None] is returned exactly
    when a converter that was asked raised. *)
Theorem extract_text_line_by_line_squeezed (pdfminer unstructured : result str) :
  match extract_text_line_by_line pdfminer unstructured with
  | Some lines =>
      ∃ text, (pdfminer = Return text ∧ ¬ blank text
               ∨ (∃ text0, pdfminer = Return text0 ∧ blank text0) ∧ unstructured = Return text)
              ∧ Forall2 squeezed (filter (λ l, ¬ blank l) (str_split NL text)) lines
  | None =>
      (∃ e, pdfminer = Raise e)
      ∨ (∃ text0 e, pdfminer = Return text0 ∧ blank text0 ∧ unstructured = Raise e)
  end.
Proof.
  unfold extract_text_line_by_line. destruct pdfminer as [text0|e]; [|left; by exists e].
  destruct (truthy (str_strip text0)) eqn:Ht.
  - exists text0. split; [|apply normalised_lines_squeezed].
    left. split; [done|]. rewrite <- blank_strip. congruence.
  - apply blank_strip in Ht. destruct unstructured as [text|e].
    + exists text. split; [|apply normalised_lines_squeezed]. right. split; [by exists text0|done].
    + right. by exists text0, e.
Qed.

End Lines.

(** ** The text file *)
Section TextFile.
Context `{UD : unicode_db}.

Lemma str_split_nonempty sep s : str_split sep s ≠ [].
Proof.
  destruct s as [|c t]; [done|]. cbn [str_split].
  destruct (str_split sep t); [done|]. by destruct (c =? sep)%N.
Qed.

Lemma str_split_line l rest :
  NL ∉ l → str_split NL (l ++ NL :: rest) = l :: str_split NL rest.
Proof.
  induction l as [|c l IH]; intros Hl.
  - cbn [app str_split]. pose proof (str_split_nonempty NL rest).
    destruct (str_split NL rest); [done|]. by rewrite N.eqb_refl.
  - rewrite not_elem_of_cons in Hl. destruct Hl as [Hc Hl].
    cbn [app str_split]. rewrite (IH Hl).
    destruct (N.eqb_spec c NL) as [->|_]; done.
Qed.

Lemma clean_no_newline l : clean l → NL ∉ l.
Proof.
  unfold clean. rewrite Forall_forall. intros H Hin. by destruct (H _ Hin) as [_ ?].
Qed.

Lemma written_line_clean line l :
  written_line line = Some l → clean l ∧ str_strip l = l.
Proof.
  unfold written_line. intros E. split.
  - pose proof (remove_unrecognized_characters_clean (Some (str_replace [61607%N] [] line))) as H.
    rewrite E in H. unfold or_str in H. destruct l; [constructor|done].
  - rewrite remove_unrecognized_characters_spec in E.
    destruct (truthy _); [|done]. injection E as <-. apply str_strip_idemp.
Qed.

Lemma written_line_None line :
  written_line line = None ↔ Forall (λ c, c = 61607%N) line.
Proof.
  unfold written_line. rewrite remove_unrecognized_characters_spec, str_replace_remove.
  induction line as [|c line IH]; [by split; [constructor|]|].
  rewrite filter_cons. destruct (decide (c ≠ 61607%N)) as [Hc|Hc].
  - cbn [truthy]. split; [done|]. by intros [? _]%Forall_cons.
  - apply dec_stable in Hc. rewrite IH. split; [by constructor|by intros [_ ?]%Forall_cons].
Qed.

Lemma written_text_split text :
  str_split NL (written_text text) = omap written_line text ++ [[]].
Proof.
  unfold written_text. induction text as [|line text IH]; [done|].
  cbn [flat_map]. change (omap written_line (line :: text))
    with (match written_line line with
          | Some l => l :: omap written_line text
          | None => omap written_line text
          end).
  destruct (written_line line) as [l|] eqn:E; [|by rewrite app_nil_l].
  rewrite <- app_assoc. cbn [app]. rewrite str_split_line, IH; [done|].
  by apply clean_no_newline, (written_line_clean line).
Qed.

Lemma squeezed_chars first (rest : list (str * str)) :
  solid first → Forall (λ gw, gw.1 ≠ [] ∧ blank gw.1 ∧ solid gw.2) rest →
  Forall (λ c, c ≠ NL) (first ++ flat_map (λ gw, SPACE :: gw.2) rest).
Proof.
  assert (Hs : ∀ w, solid w → Forall (λ c, c ≠ NL) w).
  { intros w [_ Hw]. eapply Forall_impl; [apply Hw|]. intros c Hc ->.
    unfold is_space in Hc. by vm_compute in Hc. }
  intros Hf Hrest. apply Forall_app. split; [by apply Hs|].
  induction Hrest as [|[g w] rest (_ & _ & Hw) _ IH]; [constructor|].
  cbn [flat_map snd]. constructor; [done|]. apply Forall_app. split; [by apply Hs|done].
Qed.

(** A squeezed line of ASCII characters is written as it is. *)
Lemma written_line_squeezed line out :
  squeezed line out → Forall (λ c, is_ascii c = true) out → written_line out = Some out.
Proof.
  intros (lead & first & rest & trail & _ & -> & _ & _ & Hf & Hrest) Ha.
  set (out := first ++ _) in *.
  unfold written_line. rewrite str_replace_remove.
  assert (E : filter (λ x, x ≠ 61607%N) out = out).
  { clear -Ha. induction Ha as [|c l Hc _ IH]; [done|].
    rewrite filter_cons, decide_True, IH; [done|]. intros ->. by vm_compute in Hc. }
  rewrite E, remove_unrecognized_characters_spec.
  assert (truthy out = true) as ->.
  { unfold out. destruct Hf as [Hne _]. by destruct first. }
  unfold collapse_non_ascii. rewrite collapse_all_ascii by done.
  assert (map (λ c, if (c =? NL)%N then SPACE else c) out = out) as ->.
  { pose proof (squeezed_chars first rest Hf Hrest) as Hc. fold out in Hc.
    clear -Hc. induction Hc as [|c l Hc _ IH]; [done|]. cbn [map]. rewrite IH.
    by destruct (N.eqb_spec c NL). }
  f_equal. apply str_strip_fixed; [by apply solid_head|by apply squeezed_last].
Qed.

(** X12.  The text file [extract_text] writes has one line, ended by a
    newline, for every element that is not made of the bullet U+F0A7 alone,
    in the order of the elements; every line is ASCII without a newline of
    its own and without white space at its ends (it may be empty, for an
    element of non-ASCII characters only); and a squeezed line of ASCII
    characters, as [extract_text_line_by_line] gives them, is written
    unchanged. *)
Theorem written_text_lines (text : list str) :
  str_split NL (written_text text) = omap written_line text ++ [[]]
  ∧ Forall (λ l, clean l ∧ str_strip l = l) (omap written_line text)
  ∧ (∀ line, written_line line = None ↔ Forall (λ c, c = 61607%N) line)
  ∧ (∀ line out, squeezed line out → Forall (λ c, is_ascii c = true) out →
       written_line out = Some out).
Proof.
  split_and!.
  - apply written_text_split.
  - rewrite Forall_forall. intros l (line & _ & E)%list_elem_of_omap.
    by apply (written_line_clean line).
  - apply written_line_None.
  - apply written_line_squeezed.
Qed.

End TextFile.

(** X11 and X12, closed runs: a text with a form feed, a tabulator and a
    carriage return, and elements with a bullet and with a non-ASCII letter. *)
Lemma pdf_lines_example :
  @extract_text_line_by_line ascii_only
    (Return (py "  John   Smith " ++ [NL; NL; 12%N] ++ py "Engineer" ++ [9%N] ++ py " at  Acme" ++ [13%N; NL]))
    (Raise TypeError)
  = Some [py "John Smith"; py "Engineer at Acme"]
  ∧ @written_text ascii_only [py "John Smith"; [61607%N]; [233%N]; [61607%N; 32%N; 65%N]]
    = py "John Smith" ++ [NL] ++ [NL] ++ py "A" ++ [NL].
Proof. split; vm_compute; reflexivity. Qed.

(** ** The fields of a record *)
Section RecordFields.
Context `{UD : unicode_db} `{PL : python_lib}.

(** The parts a record is assembled from, and where they are stored. *)
Lemma record_parts text json_skills json_designations record :
  check_titles_and_extract_info text json_skills json_designations = Return record →
  ∃ firstName lastName summary skills designations title ss experience,
    extract_name text json_designations = Return (firstName, lastName)
    ∧ extract_summary_text text = Return summary
    ∧ check_and_collect_skills text json_skills = Return skills
    ∧ check_and_collect_designation_ids text json_designations = Return (designations, title)
    ∧ sorted_set skills = Return ss
    ∧ field "name" record
      = Some (PyStr (or_str (Some (str_title (str_replace [NL] [SPACE]
                       (str_strip (firstName ++ [SPACE] ++ lastName))))) []))
    ∧ field "email" record = Some (PyStr (or_str (extract_email text) []))
    ∧ field "phone" record = Some (PyStr (or_str (extract_phone text) []))
    ∧ field "skills" record = Some (PyList (map PyStr ss))
    ∧ field "designation" record = Some (PyList (map PyStr designations))
    ∧ field "work_experience" record
      = Some (PyStr (or_str (remove_unrecognized_characters (extract_experience_text text)) []))
    ∧ field "experience" record = Some (PyList [experience])
    ∧ field "title" experience = Some (PyStr (or_str (Some title) []))
    ∧ field "amount_of_experience" experience
      = Some (PyNum (or_zero (extract_experience_duration text).1))
    ∧ field "duration_string" experience
      = Some (PyStr (or_str (remove_unrecognized_characters
                               (Some (extract_experience_duration text).2)) []))
    ∧ field "summary" experience
      = Some (PyStr (or_str (remove_unrecognized_characters summary) [])).
Proof.
  unfold check_titles_and_extract_info.
  destruct (extract_name text json_designations) as [[firstName lastName]|?] eqn:E1; [|done].
  cbn [mbind result_bind].
  destruct (extract_summary_text text) as [summary|?] eqn:E2; [|done].
  destruct (extract_experience_duration text) as [amount duration].
  destruct (check_and_collect_skills text json_skills) as [skills|?] eqn:E3; [|done].
  cbn [mbind result_bind].
  destruct (check_and_collect_designation_ids text json_designations)
    as [[designations title]|?] eqn:E4; [|done].
  cbn [mbind result_bind].
  destruct (sorted_set skills) as [ss|?] eqn:E5; [|done].
  intros <-%Return_inj.
  match goal with |- context [PyDict ((_, ?n) :: (_, ?em) :: (_, ?p) :: (_, ?s) :: (_, ?d)
      :: (_, PyList [PyDict ((_, ?t) :: (_, ?a) :: (_, ?du) :: [(_, ?su)])]) :: [(_, ?w)])] =>
    destruct (record_fields n em p s d t a du su w)
      as (Hn & Hem & Hp & Hs & Hd & Hw & ex & Hex & Ht & Ha & Hdu & Hsu)
  end.
  exists firstName, lastName, summary, skills, designations, title, ss, ex.
  cbn zeta in *. cbn [fst snd]. split_and!; done.
Qed.

Lemma letter_ascii c : is_ascii_letter c = true → is_ascii c = true.
Proof.
  unfold is_ascii_letter, is_ascii_upper, is_ascii_lower, in_range, is_ascii.
  rewrite orb_true_iff, !andb_true_iff, !N.leb_le, N.ltb_lt. lia.
Qed.

Lemma title_go_letters w rest :
  Forall (λ c, is_ascii_letter c = true) w →
  title_go true (w ++ rest) = map ascii_lower w ++ title_go true rest.
Proof.
  induction 1 as [|c w Hc _ IH]; [done|]. cbn [app title_go map].
  unfold char_lower, char_cased. rewrite (letter_ascii c Hc), Hc. cbn [app].
  by rewrite IH.
Qed.

Lemma title_go_word w rest :
  letters_only w → title_go false (w ++ rest) = cap w ++ title_go true rest.
Proof.
  intros [Hne Hw]. destruct Hw as [|c w Hc Hw]; [done|]. cbn [app title_go cap].
  unfold char_title, char_cased. rewrite (letter_ascii c Hc), Hc. cbn [app].
  by rewrite title_go_letters.
Qed.

Lemma title_go_words (others : list str) :
  Forall letters_only others →
  title_go true (flat_map (λ w, SPACE :: w) others) = flat_map (λ w, SPACE :: w) (map cap others).
Proof.
  induction 1 as [|w others Hw _ IH]; [done|]. cbn [flat_map map app title_go].
  change (char_lower SPACE) with [SPACE]. change (char_cased SPACE) with false. cbn [app].
  f_equal. rewrite (title_go_word w _ Hw). by rewrite IH.
Qed.

Lemma str_title_words first others :
  letters_only first → Forall letters_only others →
  str_title (name_words first others) = name_words (cap first) (map cap others).
Proof.
  intros Hf Ho. unfold str_title, name_words.
  rewrite (title_go_word first _ Hf). by rewrite title_go_words.
Qed.

Lemma in_range_spec lo hi c : in_range lo hi c = true ↔ (lo ≤ c ≤ hi)%N.
Proof. unfold in_range. rewrite andb_true_iff, !N.leb_le. done. Qed.

Lemma ascii_upper_letter c : is_ascii_letter c = true → is_ascii_upper (ascii_upper c) = true.
Proof.
  unfold is_ascii_letter, ascii_upper, is_ascii_upper, is_ascii_lower.
  rewrite orb_true_iff. destruct (in_range 97 122 c) eqn:L.
  - intros _. apply in_range_spec in L. apply in_range_spec. lia.
  - by intros [H|H].
Qed.

Lemma ascii_lower_letter c : is_ascii_letter c = true → is_ascii_lower (ascii_lower c) = true.
Proof.
  unfold is_ascii_letter, ascii_lower, is_ascii_upper, is_ascii_lower.
  rewrite orb_true_iff. destruct (in_range 65 90 c) eqn:U.
  - intros _. apply in_range_spec in U. apply in_range_spec. lia.
  - by intros [H|H].
Qed.

Lemma cap_capitalised w : letters_only w → capitalised (cap w).
Proof.
  intros [Hne Hw]. destruct Hw as [|c w Hc Hw]; [done|].
  exists (ascii_upper c), (map ascii_lower w). split_and!; [done|by apply ascii_upper_letter|].
  apply Forall_fmap. eapply Forall_impl; [apply Hw|]. intros x. apply ascii_lower_letter.
Qed.

Lemma letters_no_newline w : Forall (λ c, is_ascii_letter c = true) w → str_replace [NL] [SPACE] w = w.
Proof.
  intros Hw. rewrite str_replace_map. induction Hw as [|c w Hc _ IH]; [done|].
  cbn [map]. rewrite IH. destruct (N.eqb_spec c NL) as [->|]; [by vm_compute in Hc|done].
Qed.

Lemma name_words_no_newline first others :
  letters_only first → Forall letters_only others →
  str_replace [NL] [SPACE] (name_words first others) = name_words first others.
Proof.
  intros Hf Ho. rewrite str_replace_map. unfold name_words. rewrite map_app. f_equal.
  - rewrite <- str_replace_map. apply letters_no_newline, Hf.
  - induction Ho as [|w others Hw _ IH]; [done|]. cbn [flat_map map app].
    rewrite map_app, IH. f_equal. f_equal. rewrite <- str_replace_map. apply letters_no_newline, Hw.
Qed.

(** X13.  The name of a record is empty or in capitals: words of ASCII
    letters with one space between them, each with an upper-case first
    letter and lower-case letters after it, whatever the case of the name in
    the text. *)
Theorem record_name_capitalised (text : str) (json_skills json_designations : option (list pyobj))
    (record : pyobj) :
  check_titles_and_extract_info text json_skills json_designations = Return record →
  ∃ name, field "name" record = Some (PyStr name)
          ∧ (name = []
             ∨ ∃ first others, name = name_words first others
                               ∧ capitalised first ∧ Forall capitalised others).
Proof.
  intros (fn & ln & ? & ? & ? & ? & ? & ? & Hname & _ & _ & _ & _ & Hfield & _)%record_parts.
  eexists. split; [exact Hfield|].
  assert (Hor : ∀ s, or_str (Some s) [] = s) by (intros [|? ?]; done). rewrite Hor.
  apply extract_name_cases in Hname
    as [[-> ->] | [(Hfn & _ & ->) | (Hfn & _ & _ & first & others & -> & Hf & Ho)]].
  - left. vm_compute. reflexivity.
  - right. exists (cap fn), []. split_and!; [|by apply cap_capitalised|constructor].
    assert (Hs : str_strip (fn ++ [SPACE] ++ []) = fn).
    { unfold str_strip. rewrite app_nil_r.
      assert (Hh : match head fn with Some c => is_space c = false | None => True end).
      { destruct Hfn as [Hne Hw]. destruct Hw as [|c w Hc _]; [done|]. by apply letter_not_space. }
      rewrite (str_lstrip_fixed (fn ++ [SPACE]))
        by (destruct Hfn as [? _]; destruct fn; [done|exact Hh]).
      rewrite (str_rstrip_blank [SPACE] fn) by (by repeat constructor).
      rewrite <- (str_lstrip_fixed fn Hh) at 1. apply (letters_only_strip fn Hfn). }
    rewrite Hs, letters_no_newline by apply Hfn.
    rewrite <- (app_nil_r fn) at 1. change (fn ++ []) with (name_words fn []).
    by rewrite str_title_words.
  - right. exists (cap fn), (map cap (first :: others)).
    change (fn ++ [SPACE] ++ name_words first others) with (name_words fn (first :: others)).
    assert (Hall : Forall letters_only (first :: others)) by (by constructor).
    destruct (name_words_strip fn (first :: others) Hfn Hall) as (-> & _ & _).
    rewrite name_words_no_newline, str_title_words by done.
    split_and!; [done|by apply cap_capitalised|].
    apply Forall_fmap. eapply Forall_impl; [apply Hall|]. intros w. apply cap_capitalised.
Qed.

End RecordFields.

(** X13, witness: a name in mixed case. *)
Lemma record_name_capitalised_witness :
  ∃ record,
    @check_titles_and_extract_info ascii_only
      (py "jOHN mcDONALD smith" ++ [NL] ++ py "Engineer, 2 years of React")
      (Some [entry "title" "React"]) (Some [entry "designation" "Engineer"]) = Return record
    ∧ ∃ name, field "name" record = Some (PyStr name)
              ∧ (name = []
                 ∨ ∃ first others, name = name_words first others
                                   ∧ capitalised first ∧ Forall capitalised others).
Proof.
  eexists. split; [vm_compute; reflexivity|].
  apply (@record_name_capitalised ascii_only
           (py "jOHN mcDONALD smith" ++ [NL] ++ py "Engineer, 2 years of React")
           (Some [entry "title" "React"]) (Some [entry "designation" "Engineer"]));
    vm_compute; reflexivity.
Defined.

(** ** From the elements to the record file *)
Section Pipeline.
Context `{UD : unicode_db} `{PL : python_lib}.
Variable net : nat → str → http_reply.

Lemma collapse_Forall (P : char → Prop) b s :
  P SPACE → Forall P s → Forall P (collapse b s).
Proof.
  intros Hsp Hs. revert b. induction Hs as [|c s Hc _ IH]; intros b; [constructor|].
  cbn [collapse]. destruct (is_ascii c); [by constructor|].
  destruct b; [done|by constructor].
Qed.

(** A line is written without a backslash when the element had none. *)
Lemma written_line_plain line l :
  BACKSLASH ∉ line → written_line line = Some l → Forall plain_char l.
Proof.
  intros Hb E. destruct (written_line_clean line l E) as [Hcl _].
  assert (Hq : Forall (λ c, c ≠ BACKSLASH) l).
  { unfold written_line in E. rewrite remove_unrecognized_characters_spec in E.
    destruct (truthy _); [|done]. injection E as <-.
    apply str_strip_Forall, Forall_fmap, Forall_forall. intros c Hc. cbn.
    destruct (N.eqb_spec c NL); [done|].
    assert (Hall : Forall (λ c, c ≠ BACKSLASH)
                     (collapse_non_ascii (str_replace [61607%N] [] line))).
    { apply collapse_Forall; [done|]. rewrite str_replace_remove.
      apply Forall_forall. intros y [_ Hy]%list_elem_of_filter. by intros ->. }
    rewrite Forall_forall in Hall. by apply Hall. }
  unfold clean in Hcl. rewrite Forall_forall in *. intros c Hc.
  destruct (Hcl c Hc) as [Ha _]. specialize (Hq c Hc).
  unfold plain_char. unfold is_ascii in Ha. apply N.ltb_lt in Ha. lia.
Qed.

Lemma written_text_plain text :
  Forall (λ line, BACKSLASH ∉ line) text → Forall plain_char (read_text (written_text text)).
Proof.
  intros Ht. assert (Hnl : plain_char NL) by (unfold plain_char, NL, BACKSLASH; lia).
  unfold read_text. do 2 (apply str_replace_Forall; [by constructor|]).
  unfold written_text. induction Ht as [|line text Hl _ IH]; [constructor|].
  cbn [flat_map]. apply Forall_app. split; [|done].
  destruct (written_line line) as [l|] eqn:E; [|constructor].
  apply Forall_app. split; [by apply (written_line_plain line)|by constructor].
Qed.

(** The first part of record assembly: with both lists in order and a
    summary that decodes, a record of the right shape is returned. *)
Lemma assembled_record text skills designations :
  skills ≠ [] → well_formed (py "title") skills →
  well_formed (py "designation") designations →
  (∃ summary, extract_summary_text text = Return summary) →
  ∃ record,
    check_titles_and_extract_info text (Some skills) (Some designations) = Return record
    ∧ record_shape record.
Proof.
  intros Hne Hs Hd (summary & Esum). unfold check_titles_and_extract_info.
  destruct (extract_name_returns text designations Hd) as ([firstName lastName] & ->).
  cbn [mbind result_bind]. rewrite Esum. cbn [mbind result_bind].
  pose proof (amount_nonneg text) as Ha.
  destruct (extract_experience_duration text) as [amount duration]. cbn [fst] in Ha.
  rewrite (check_and_collect_skills_well_formed _ _ Hne Hs). cbn [mbind result_bind].
  rewrite (check_and_collect_designation_ids_well_formed _ _ Hd). cbn [mbind result_bind].
  unfold sorted_set. cbn [mbind result_bind].
  eexists. split; [reflexivity|]. unfold record_shape.
  eexists _, _, _, _, _, _, _, _, _, _. split; [reflexivity|done].
Qed.

Lemma well_formed_dicts key items :
  well_formed key items → Forall (λ item, ∃ kv, item = PyDict kv) items.
Proof.
  intros H. eapply Forall_impl; [exact H|]. intros item [t Ht]. unfold title_of in Ht.
  destruct item; try done. by eexists.
Qed.

Lemma get_all_default_length key dflt items vs :
  get_all_default key dflt items = Return vs → length vs = length items.
Proof.
  revert vs. induction items as [|item items IH]; intros vs; [by intros [= <-]|].
  cbn [get_all_default mbind result_bind].
  destruct (dict_get_default key dflt item) as [v|]; [|done]. cbn [mbind result_bind].
  destruct (get_all_default key dflt items) as [vs'|]; [|done]. cbn [mbind result_bind].
  intros [= <-]. cbn [length]. by rewrite (IH vs').
Qed.

Lemma text_path_not_cache file_name (path : string) :
  (path = "skills-collection.json" ∨ path = "designations-collection.json")%string →
  text_path file_name ≠ py path.
Proof. intros [-> | ->] H; apply (f_equal head) in H; by vm_compute in H. Qed.

(** X14.  When both lists arrive, the skill list not empty and every entry
    with its title, and no element holds a backslash, [extract_text] ends
    with the path of the text file, and the record file holds the record
    of the text file as it reads back, a record of the right shape; the two
    fetches leave the text file as it was written. *)
Theorem extract_text_writes_record (attempts : nat) (file_name : str) (text : list str)
    (w w1 w2 : world) (skills designations : list pyobj) :
  save_url_as_json_async net URL_TO_FETCH_SKILL (py "skills-collection.json")
    (World (<[text_path file_name := written_text text]> (files w)) (requests w))
  = (Return (Some skills), w1) →
  save_url_as_json_async net URL_TO_FETCH_DESIGNATION (py "designations-collection.json") w1
  = (Return (Some designations), w2) →
  skills ≠ [] → well_formed (py "title") skills →
  designations ≠ [] → well_formed (py "designation") designations →
  Forall (λ line, BACKSLASH ∉ line) text →
  ∃ record,
    check_titles_and_extract_info (read_text (written_text text))
      (Some skills) (Some designations) = Return record
    ∧ record_shape record
    ∧ files w2 !! text_path file_name = Some (written_text text)
    ∧ extract_text net (S attempts) file_name text w
      = Done (Return (text_path file_name))
             (World (<[record_path (text_path file_name) := json_dump_record record]> (files w2))
                    (requests w2)).
Proof.
  intros Hs Hd Hne Hwf Hne' Hwf' Hplain.
  set (w0 := World _ _) in Hs.
  assert (Hfile : files w2 !! text_path file_name = Some (written_text text)).
  { pose proof (save_url_as_json_async_other net URL_TO_FETCH_DESIGNATION _ w1
                  (text_path file_name)
                  (text_path_not_cache _ "designations-collection.json" ltac:(by right))) as H2.
    pose proof (save_url_as_json_async_other net URL_TO_FETCH_SKILL _ w0
                  (text_path file_name)
                  (text_path_not_cache _ "skills-collection.json" ltac:(by left))) as H1.
    rewrite Hd in H2. rewrite Hs in H1. cbn [snd] in H1, H2. rewrite H2, H1.
    unfold w0. cbn [files]. by rewrite lookup_insert_eq. }
  destruct (assembled_record (read_text (written_text text)) skills designations
              Hne Hwf Hwf') as (record & Hrec & Hshape).
  { by apply extract_summary_text_plain, written_text_plain. }
  exists record. split_and!; [done|done|done|].
  unfold extract_text. fold w0. rewrite Hs.
  destruct skills as [|item items]; [done|].
  rewrite (get_all_well_formed _ _ Hwf).
  destruct (titles (py "title") (item :: items)) as [|t ts] eqn:Et.
  { apply Forall_cons in Hwf as [[t Ht] _]. unfold titles in Et.
    cbn [omap list_omap] in Et. by rewrite Ht in Et. }
  cbn [fmap list_fmap]. cbn [acquire_designations]. rewrite Hd.
  destruct (get_all_default_dicts (py "designation") (PyStr []) designations
              (well_formed_dicts _ _ Hwf')) as [vs Hvs].
  rewrite Hvs. pose proof (get_all_default_length _ _ _ _ Hvs) as Hlen.
  destruct vs as [|v vs]; [by destruct designations|].
  rewrite Hfile. cbn [from_option id]. by rewrite Hrec.
Qed.

End Pipeline.

(** X14, witness: both lists are served. *)
Lemma extract_text_writes_record_witness :
  ∃ record,
    @check_titles_and_extract_info ascii_only (read_text (@written_text ascii_only cv_lines))
      (Some [entry "title" "React"; entry "title" "Node"])
      (Some [entry "designation" "Engineer"]) = Return record
    ∧ record_shape record
    ∧ files cv_both_fetched !! text_path (py "cv") = Some (@written_text ascii_only cv_lines)
    ∧ @extract_text ascii_only toy_lib net_up 1 (py "cv") cv_lines (World ∅ 0)
      = Done (Return (text_path (py "cv")))
             (World (<[record_path (text_path (py "cv")) := @json_dump_record toy_lib record]>
                       (files cv_both_fetched))
                    (requests cv_both_fetched)).
Proof.
  apply (@extract_text_writes_record ascii_only toy_lib net_up 0 (py "cv") cv_lines (World ∅ 0)
           cv_skills_fetched cv_both_fetched
           [entry "title" "React"; entry "title" "Node"] [entry "designation" "Engineer"]).
  - vm_compute. reflexivity.
  - vm_compute. reflexivity.
  - discriminate.
  - repeat constructor; by eexists.
  - discriminate.
  - repeat constructor; by eexists.
  - apply (bool_decide_unpack _). vm_compute. exact I.
Defined.

(** ** The phone number in the long fields *)
Section PhoneMask.
Context `{UD : unicode_db} `{PL : python_lib}.

(** A number without sign and country code is returned as its ten digits. *)
Lemma extract_phone_short text p :
  extract_phone text = Some p → length p ≤ 10 →
  length p = 10 ∧ Forall (λ c, is_digit c = true) p.
Proof.
  intros (pre & sign & code & sep & ten & post & _ & Hspan & _ & ->)%extract_phone_shape.
  destruct Hspan as (_ & _ & _ & _ & Hten & Ften). cbn zeta.
  destruct (decide (_ = [])); [done|].
  rewrite !length_app. cbn [length]. lia.
Qed.

Lemma occurs_in_nil p : p ≠ [] → ¬ occurs_in p [].
Proof. intros Hne (a & b & E). symmetry in E. by apply app_eq_nil in E as [_ [? _]%app_eq_nil]. Qed.

Lemma occurs_in_cons p c s : occurs_in p s → occurs_in p (c :: s).
Proof. intros (a & b & ->). by exists (c :: a), b. Qed.

Lemma occurs_in_drop p k s : occurs_in p (drop k s) → occurs_in p s.
Proof.
  intros (a & b & E). exists (take k s ++ a), b.
  by rewrite <- app_assoc, <- E, take_drop.
Qed.

(** What the result of a replacement begins with, before the first
    character put in, the text begins with. *)
Lemma replace_go_prefix_head (old new : str) (h : char) :
  old ≠ [] → head new = Some h →
  ∀ s w, w `prefix_of` replace_go old new s 0 → h ∉ w → w `prefix_of` s.
Proof.
  intros Hold Hh s. induction s as [|c t IH]; intros w.
  - intros [r E] _. cbn in E. symmetry in E. by apply app_eq_nil in E as [-> _].
  - rewrite replace_go_cons by done. destruct (is_prefix old (c :: t)).
    + destruct new as [|h' new']; [done|]. injection Hh as ->.
      intros [r E] Hw. destruct w as [|a w]; [by exists (c :: t)|].
      injection E as <- _. exfalso. apply Hw. by left.
    + intros [r E] Hw. destruct w as [|a w]; [by exists (c :: t)|].
      injection E as <- E. destruct (IH w) as [r' ->]; [by exists r| |by exists r'].
      intros ?. apply Hw. by right.
Qed.

(** A replacement brings in no occurrence of a string that shares no
    character with what is put in. *)
Lemma replace_go_keeps_absent (old new p : str) (h : char) :
  old ≠ [] → head new = Some h → p ≠ [] → Forall (λ c, c ∉ p) new →
  ∀ n s, length s ≤ n → occurs_in p (replace_go old new s 0) → occurs_in p s.
Proof.
  intros Hold Hh Hp Hnew. assert (Hhp : h ∉ p).
  { destruct new as [|h' new']; [done|]. injection Hh as ->. by apply Forall_cons in Hnew as [? _]. }
  induction n as [|n IH]; intros s Hn.
  { destruct s; [|simpl in Hn; lia]. done. }
  destruct s as [|c t]; [done|]. rewrite replace_go_cons by done.
  destruct (is_prefix old (c :: t)) eqn:Hpre.
  - assert (Hd : length (drop (length old) (c :: t)) ≤ n).
    { rewrite length_drop. destruct old; [done|]. simpl in *. lia. }
    intros (a & b & E). apply (occurs_in_drop p (length old)). apply (IH _ Hd).
    apply app_eq_inv in E as [(k & Enew & E)|(k & -> & E)].
    + destruct k as [|y k].
      * rewrite app_nil_l in E. exists [], b. by rewrite E.
      * destruct p as [|y' p']; [done|]. injection E as -> _.
        rewrite Enew, Forall_app, Forall_cons in Hnew. destruct Hnew as (_ & Hy & _).
        exfalso. apply Hy. by left.
    + exists k, b. by rewrite E.
  - intros (a & b & E). destruct a as [|a0 a].
    + apply (replace_go_prefix_head old new h Hold Hh (c :: t) p) in Hhp as [r ->].
      * by exists [], r.
      * rewrite replace_go_cons, Hpre by done. exists b. by rewrite E.
    + injection E as _ E. apply occurs_in_cons, (IH t); [simpl in Hn; lia|]. by exists a, b.
Qed.

Lemma digit_not_in (new : str) p :
  Forall (λ c, is_digit c = true) p → Forall (λ c, is_digit c = false) new →
  Forall (λ c, c ∉ p) new.
Proof.
  intros Hp Hn. eapply Forall_impl; [exact Hn|]. intros c Hc Hin.
  rewrite Forall_forall in Hp. specialize (Hp c Hin). congruence.
Qed.

(** The text [extract_experience_text] works on has no occurrence of a
    number of ten digits left. *)
Lemma mask_contacts_phone email p text :
  p ≠ [] → Forall (λ c, is_digit c = true) p →
  ¬ occurs_in p (mask_contacts email (Some p) text).
Proof.
  intros Hne Hp.
  assert (Hph : ∀ s, ¬ occurs_in p (str_replace p (py "<phone no. masked>") s)).
  { intros s. unfold str_replace. destruct p as [|d p']; [done|].
    apply Forall_cons in Hp as Hd. destruct Hd as [Hd _].
    assert (Hout : ∀ c, is_digit c = false → c ∉ d :: p').
    { intros c Hc Hin. rewrite Forall_forall in Hp. specialize (Hp c Hin). congruence. }
    apply (replace_go_no_occurrence (d :: p') (py "<phone no. masked>") 60%N 62%N d)
      with (n := length s); try done.
    - by apply Hout.
    - by apply Hout.
    - by left.
    - intros Hin. assert (Hf : Forall (λ c, is_digit c = false) (py "<phone no. masked>"))
        by (repeat constructor).
      rewrite Forall_forall in Hf. specialize (Hf d Hin). congruence. }
  unfold mask_contacts. set (e := default [] email). change (default [] (Some p)) with p.
  assert (truthy p = true) as -> by (by destruct p). rewrite andb_true_r.
  destruct (truthy e) eqn:He; [|apply Hph].
  intros Ho. apply (Hph text). unfold str_replace in Ho at 1.
  destruct e as [|e0 e']; [done|].
  apply (replace_go_keeps_absent (e0 :: e') (py "<email masked>") p 60%N)
    with (n := length (str_replace p (py "<phone no. masked>") text)) in Ho; try done.
  apply digit_not_in; [done|]. repeat constructor.
Qed.

Lemma extract_experience_text_phone text p w :
  extract_phone text = Some p → length p ≤ 10 →
  extract_experience_text text = Some w → ¬ occurs_in p w.
Proof.
  intros Hp Hlen Hw Ho. destruct (extract_phone_short text p Hp Hlen) as [Hl Hd].
  assert (Hne : p ≠ []) by (by destruct p).
  unfold extract_experience_text in Hw. rewrite Hp in Hw.
  destruct (re.search EXPERIENCE_TEXT_PATTERN _) as [m|] eqn:E; [|done].
  assert (Hw' : str_strip (group m 2) = w) by congruence. rewrite <- Hw' in Ho.
  apply search_Some in E as (Hs & _).
  apply occurs_in_strip, occurs_in_group in Ho; [|done]. rewrite Hs in Ho.
  by apply (mask_contacts_phone (extract_email text) p text).
Qed.

Lemma digit_address_char c : is_digit c = true → is_ascii c = true → address_char c.
Proof.
  unfold is_digit, address_char, is_space. intros Hd Ha. rewrite Ha in *.
  apply in_range_spec in Hd. split_and!; [done| |lia|lia].
  apply orb_false_iff. split; apply not_true_iff_false; rewrite in_range_spec; lia.
Qed.

(** X15.  A phone number without sign and country code does not reach the
    field work_experience: in every assembled record whose text gives a
    number of at most ten characters, the field phone is that number and
    work_experience has no occurrence of it. *)
Theorem work_experience_hides_phone (text : str) (json_skills json_designations : option (list pyobj))
    (record : pyobj) (p : str) :
  check_titles_and_extract_info text json_skills json_designations = Return record →
  extract_phone text = Some p → length p ≤ 10 →
  field "phone" record = Some (PyStr p)
  ∧ ∃ w, field "work_experience" record = Some (PyStr w) ∧ ¬ occurs_in p w.
Proof.
  intros (? & ? & ? & ? & ? & ? & ? & ? & _ & _ & _ & _ & _ & _ & _ & Hphone & _ & _ & Hwork & _)%record_parts
    Hp Hlen.
  destruct (extract_phone_short text p Hp Hlen) as [Hl Hd].
  assert (Hne : p ≠ []) by (by destruct p).
  rewrite Hp in Hphone. split.
  { rewrite Hphone. unfold or_str. by destruct p. }
  eexists. split; [exact Hwork|]. intros Ho.
  destruct (decide (Forall (λ c, is_ascii c = true) p)) as [Ha|Hna].
  - apply occurs_in_cleaned in Ho as (w & Hw & Ho); [|done|].
    + by apply (extract_experience_text_phone text p w).
    + rewrite Forall_forall in *. intros c Hc. apply digit_address_char; auto.
  - pose proof (remove_unrecognized_characters_clean (extract_experience_text text)) as Hcl.
    destruct Ho as (a & b & E). rewrite E in Hcl. apply Hna.
    unfold clean in Hcl. rewrite !Forall_app in Hcl. destruct Hcl as (_ & Hcl & _).
    eapply Forall_impl; [exact Hcl|]. by intros c [? _].
Qed.

End PhoneMask.

(** X15, witness: a number of ten digits, named again in the experience
    section. *)
Lemma work_experience_hides_phone_witness :
  ∃ record,
    @check_titles_and_extract_info ascii_only
      (py "9876543210" ++ [NL] ++ py "EXPERIENCE" ++ [NL] ++ py "Acme, call 9876543210"
         ++ [NL] ++ py "SKILLS" ++ [NL])
      (Some [entry "title" "React"]) (Some [entry "designation" "Engineer"]) = Return record
    ∧ field "phone" record = Some (PyStr (py "9876543210"))
    ∧ ∃ w, field "work_experience" record = Some (PyStr w)
           ∧ ¬ occurs_in (py "9876543210") w.
Proof.
  eexists. split; [vm_compute; reflexivity|].
  apply (@work_experience_hides_phone ascii_only
           (py "9876543210" ++ [NL] ++ py "EXPERIENCE" ++ [NL] ++ py "Acme, call 9876543210"
              ++ [NL] ++ py "SKILLS" ++ [NL])
           (Some [entry "title" "React"]) (Some [entry "designation" "Engineer"])).
  - vm_compute. reflexivity.
  - vm_compute. reflexivity.
  - vm_compute. lia.
Defined.

(** X15, the bound is needed: a number with a country code is returned
    with a space after the code, and when the text spells it otherwise it
    is not masked; here it is stored as "+91 9876543210" and
    work_experience still reads "Acme, call +91-9876543210". *)
Lemma phone_with_country_code_stays :
  ∃ record,
    @check_titles_and_extract_info ascii_only
      (py "+91-9876543210" ++ [NL] ++ py "EXPERIENCE" ++ [NL] ++ py "Acme, call +91-9876543210"
         ++ [NL] ++ py "SKILLS" ++ [NL])
      (Some [entry "title" "React"]) (Some [entry "designation" "Engineer"]) = Return record
    ∧ field "phone" record = Some (PyStr (py "+91 9876543210"))
    ∧ field "work_experience" record = Some (PyStr (py "Acme, call +91-9876543210")).
Proof. eexists. split_and!; vm_compute; reflexivity. Qed.

(** ** The contacts in the summary *)
Section SummaryMask.
Context `{UD : unicode_db} `{PL : python_lib}.

(** The bytes of a character that is not ASCII are not ASCII either. *)
Lemma utf8_encode_char_high c bytes :
  utf8_encode_char c = Some bytes →
  if is_ascii c then bytes = [c]
  else ∃ b0 bs, bytes = b0 :: bs ∧ Forall (λ b, is_ascii b = false) bytes.
Proof.
  unfold utf8_encode_char, is_ascii.
  assert (Hhigh : ∀ k (x : N), (128 ≤ k)%N → ((k + x <? 128) = false)%N)
    by (intros; apply N.ltb_ge; lia).
  destruct (N.ltb_spec c 128); [by intros [= <-]|].
  destruct (c <? 2048)%N.
  { intros [= <-]. eexists _, _. split; [done|]. repeat constructor; by apply Hhigh. }
  destruct (c <? 65536)%N.
  { destruct (in_range 55296 57343 c); [done|].
    intros [= <-]. eexists _, _. split; [done|]. repeat constructor; by apply Hhigh. }
  destruct (c <? 1114112)%N; [|done].
  intros [= <-]. eexists _, _. split; [done|]. repeat constructor; by apply Hhigh.
Qed.

Lemma utf8_encode_prefix e : ∀ s bytes,
  Forall (λ c, is_ascii c = true) e → utf8_encode s = Some bytes →
  e `prefix_of` bytes → e `prefix_of` s.
Proof.
  induction e as [|x e IH]; intros s bytes He; [by exists s|].
  apply Forall_cons in He as [Hx He]. destruct s as [|c s]; cbn [utf8_encode].
  - intros [= <-] [r E]. done.
  - destruct (utf8_encode_char c) as [b|] eqn:Eb; [|done].
    destruct (utf8_encode s) as [bs|] eqn:Ebs; [|done]. intros [= <-] [r E].
    apply utf8_encode_char_high in Eb. destruct (is_ascii c) eqn:Hc.
    + subst b. injection E as <- E. destruct (IH s bs He Ebs) as [r' ->]; [by exists r|].
      by exists r'.
    + destruct Eb as (b0 & b' & -> & Hb). injection E as -> _.
      apply Forall_cons in Hb as [Hb _]. congruence.
Qed.

Lemma utf8_encode_occurs e : ∀ s bytes,
  e ≠ [] → Forall (λ c, is_ascii c = true) e → utf8_encode s = Some bytes →
  occurs_in e bytes → occurs_in e s.
Proof.
  intros s bytes Hne He. revert bytes. induction s as [|c s IH]; intros bytes; cbn [utf8_encode].
  - intros [= <-]. by intros ?%occurs_in_nil.
  - destruct (utf8_encode_char c) as [b|] eqn:Eb; [|done].
    destruct (utf8_encode s) as [bs|] eqn:Ebs; [|done]. intros [= <-] (a & r & E).
    destruct a as [|a0 a].
    + destruct (utf8_encode_prefix e (c :: s) (b ++ bs) He) as [r' ->].
      * cbn [utf8_encode]. by rewrite Eb, Ebs.
      * exists r. by rewrite E.
      * by exists [], r'.
    + apply occurs_in_cons. apply (IH bs eq_refl).
      apply app_eq_inv in E as [(k & Eb' & E)|(k & Ea & E)].
      * apply utf8_encode_char_high in Eb. destruct (is_ascii c).
        { subst b. destruct k.
          - exists [], r. by rewrite E.
          - apply (f_equal length) in Eb'. rewrite length_app in Eb'. simpl in Eb'. lia. }
        destruct Eb as (b0 & b' & _ & Eb). destruct k as [|y k].
        { exists [], r. by rewrite E. }
        destruct e as [|x e]; [done|]. injection E as -> _.
        rewrite Eb' in Eb. apply Forall_app in Eb as [_ Eb]. apply Forall_cons in Eb as [Hy _].
        apply Forall_cons in He as [Hx _]. congruence.
      * exists k, r. by rewrite E.
Qed.

(** A replacement does nothing when a character of what it looks for is
    not in the text. *)
Lemma str_replace_absent (old new s : str) x :
  x ∈ old → x ∉ s → str_replace old new s = s.
Proof.
  intros Hx Hs. unfold str_replace. destruct old as [|o old']; [by apply elem_of_nil in Hx|].
  induction s as [|c t IH]; [done|]. rewrite replace_go_cons by done.
  destruct (is_prefix (o :: old') (c :: t)) eqn:Hp.
  - apply is_prefix_spec in Hp as [r Hr]. exfalso. apply Hs. rewrite Hr.
    apply elem_of_app. by left.
  - rewrite IH; [done|]. intros ?. apply Hs. by right.
Qed.

(** What is written in ASCII and without white space is in the stored
    summary only if it is in the masked text. *)
Lemma summary_from_masked text summary e :
  Forall plain_char text → e ≠ [] → Forall address_char e →
  extract_summary_text text = Return summary →
  occurs_in e (or_str (remove_unrecognized_characters summary) []) →
  occurs_in e
    (mask_contacts (extract_email text) (extract_phone text)
       (foldl (λ text link, str_replace link (py "<link masked>") text) text
          (map (λ i, group i 0) (re.finditer LINK_PATTERN text)))).
Proof.
  intros Ht Hne He. unfold extract_summary_text.
  set (masked := mask_contacts _ _ _).
  assert (Hm : Forall plain_char masked).
  { pose proof placeholders_plain as Hplace.
    apply mask_contacts_Forall; auto. apply foldl_replace_Forall; auto. }
  destruct (re.search SUMMARY_PATTERN (str_strip masked)) as [m|] eqn:E.
  2:{ intros [= <-] Ho. by apply occurs_in_nil in Ho. }
  apply search_Some in E as (Hs & _).
  assert (Hsum : Forall plain_char (str_strip (group m 2))).
  { apply str_strip_Forall, group_Forall. rewrite Hs. by apply str_strip_Forall. }
  destruct (truthy (str_strip (group m 2))).
  2:{ intros [= <-] Ho. by apply occurs_in_nil in Ho. }
  destruct (utf8_encode_plain _ Hsum) as (bytes & Eb & Hb).
  unfold unicode_escape_decode. rewrite Eb, unicode_escape_go_plain by done.
  cbn [mbind result_bind]. destruct (truthy bytes).
  2:{ intros [= <-] Ho. by apply occurs_in_nil in Ho. }
  assert (Hback : BACKSLASH ∉ bytes).
  { intros Hin. rewrite Forall_forall in Hb. by apply (Hb _ Hin). }
  rewrite (str_replace_absent (QUOTE :: BACKSLASH :: [QUOTE]) [] bytes BACKSLASH)
    by first [done | by right; left].
  rewrite (str_replace_absent (BACKSLASH :: QUOTE :: [QUOTE]) [] bytes BACKSLASH)
    by first [done | by left].
  intros [= <-] Ho. apply occurs_in_cleaned in Ho as (s & [= <-] & Ho); [|done|done].
  apply (utf8_encode_occurs e (str_strip (group m 2)) bytes) in Ho; [|done| |done].
  - apply occurs_in_strip, occurs_in_group in Ho; [|done]. rewrite Hs in Ho.
    by apply occurs_in_strip in Ho.
  - eapply Forall_impl; [exact He|]. by intros c [? _].
Qed.

(** X16.  For a text without a backslash, neither the e-mail address nor a
    phone number without sign and country code reaches the summary of the
    record: the field summary has no occurrence of the address the record
    stores under email, and none of a number of at most ten characters it
    stores under phone. *)
Theorem summary_hides_contacts (text : str) (json_skills json_designations : option (list pyobj))
    (record : pyobj) :
  check_titles_and_extract_info text json_skills json_designations = Return record →
  Forall plain_char text →
  ∃ experience summary,
    field "experience" record = Some (PyList [experience])
    ∧ field "summary" experience = Some (PyStr summary)
    ∧ (∀ e, extract_email text = Some e → ¬ occurs_in e summary)
    ∧ (∀ p, extract_phone text = Some p → length p ≤ 10 → ¬ occurs_in p summary).
Proof.
  intros (? & ? & summary & ? & ? & ? & ? & ex & _ & Hsum & _ & _ & _ & _ & _ & _ & _ & _ & _
          & Hex & _ & _ & _ & Hfield)%record_parts Ht.
  exists ex. eexists. split_and!; [exact Hex|exact Hfield|..].
  - intros e He Ho. pose proof (extract_email_address _ _ He) as Hem.
    pose proof (email_address_chars e Hem) as (Hne & _ & Hch).
    apply (summary_from_masked text summary e Ht Hne Hch Hsum) in Ho.
    rewrite He in Ho. by apply (mask_contacts_email e) in Ho.
  - intros p Hp Hlen Ho. destruct (extract_phone_short text p Hp Hlen) as [Hl Hd].
    assert (Hne : p ≠ []) by (by destruct p).
    destruct (decide (Forall (λ c, is_ascii c = true) p)) as [Ha|Hna].
    + assert (Hch : Forall address_char p).
      { rewrite Forall_forall in *. intros c Hc. apply digit_address_char; auto. }
      apply (summary_from_masked text summary p Ht Hne Hch Hsum) in Ho.
      rewrite Hp in Ho. by apply (mask_contacts_phone _ p) in Ho.
    + pose proof (remove_unrecognized_characters_clean summary) as Hcl.
      destruct Ho as (a & b & E). rewrite E in Hcl. apply Hna.
      unfold clean in Hcl. rewrite !Forall_app in Hcl. destruct Hcl as (_ & Hcl & _).
      eapply Forall_impl; [exact Hcl|]. by intros c [? _].
Qed.

End SummaryMask.

(** ASCII text without a backslash is plain. *)
Lemma plain_of_ascii (s : str) :
  Forall (λ c, is_ascii c = true ∧ c ≠ BACKSLASH) s → Forall plain_char s.
Proof.
  intros H. eapply Forall_impl; [exact H|]. intros c [Ha Hb]. unfold plain_char, is_ascii in *.
  apply N.ltb_lt in Ha. lia.
Qed.

(** X16, witness: the address and the number are named again in the
    summary. *)
Lemma summary_hides_contacts_witness :
  ∃ record,
    @check_titles_and_extract_info ascii_only
      (py "bob@site.org 9876543210" ++ [NL] ++ py "Summary" ++ [NL]
         ++ py "write to bob@site.org or call 9876543210" ++ [NL] ++ py "Skills" ++ [NL])
      (Some [entry "title" "React"]) (Some [entry "designation" "Engineer"]) = Return record
    ∧ ∃ experience summary,
        field "experience" record = Some (PyList [experience])
        ∧ field "summary" experience = Some (PyStr summary)
        ∧ (∀ e, @extract_email ascii_only
                  (py "bob@site.org 9876543210" ++ [NL] ++ py "Summary" ++ [NL]
                     ++ py "write to bob@site.org or call 9876543210" ++ [NL]
                     ++ py "Skills" ++ [NL]) = Some e → ¬ occurs_in e summary)
        ∧ (∀ p, @extract_phone ascii_only
                  (py "bob@site.org 9876543210" ++ [NL] ++ py "Summary" ++ [NL]
                     ++ py "write to bob@site.org or call 9876543210" ++ [NL]
                     ++ py "Skills" ++ [NL]) = Some p → length p ≤ 10 → ¬ occurs_in p summary).
Proof.
  eexists. split; [vm_compute; reflexivity|].
  apply (@summary_hides_contacts ascii_only
           (py "bob@site.org 9876543210" ++ [NL] ++ py "Summary" ++ [NL]
              ++ py "write to bob@site.org or call 9876543210" ++ [NL] ++ py "Skills" ++ [NL])
           (Some [entry "title" "React"]) (Some [entry "designation" "Engineer"])).
  - vm_compute. reflexivity.
  - apply plain_of_ascii, (bool_decide_unpack _). vm_compute. exact I.
Defined.

(** X16, the condition is needed: an escape in the text is decoded after
    the masking, and the address it spells is stored in the summary. *)
Lemma escaped_address_reaches_summary :
  ∃ record experience,
    @check_titles_and_extract_info ascii_only
      (py "bob@site.org" ++ [NL] ++ py "Summary" ++ [NL] ++ py "write to bob\x40site.org"
         ++ [NL] ++ py "Skills" ++ [NL])
      (Some [entry "title" "React"]) (Some [entry "designation" "Engineer"]) = Return record
    ∧ field "email" record = Some (PyStr (py "bob@site.org"))
    ∧ field "experience" record = Some (PyList [experience])
    ∧ field "summary" experience = Some (PyStr (py "write to bob@site.org")).
Proof. eexists _, _. split_and!; vm_compute; reflexivity. Qed.

(** ** The experience section *)
Section ExperienceSection.
Context `{UD : unicode_db}.
Import re.

Lemma reads_matches_inv r : ∀ cu gs cu' gs',
  wordy r = true → matches false r cu gs cu' gs' →
  ∃ w, reads r w ∧ rest cu = w ++ rest cu' ∧ gs' = gs.
Proof.
  induction r; intros cu gs cu' gs' Hw; try done; cbn [matches reads].
  - intros [-> ->]. by exists [].
  - intros (ch & t & E & Hc & -> & ->). apply N.eqb_eq in Hc as <-. by exists [c].
  - intros (ch & t & E & Hc & -> & ->). exists [ch]. split_and!; [|done|done].
    exists ch. split; [done|]. intros ->. by rewrite N.eqb_refl in Hc.
  - cbn [wordy] in Hw. apply andb_true_iff in Hw as [H1 H2].
    intros (cu1 & gs1 & M1 & M2).
    apply IHr1 in M1 as (w1 & R1 & E1 & ->); [|done].
    apply IHr2 in M2 as (w2 & R2 & E2 & ->); [|done].
    exists (w1 ++ w2). split_and!; [by exists w1, w2|by rewrite E1, E2, app_assoc|done].
Qed.

Lemma reads_matches_intro r : ∀ w cu gs post,
  reads r w → rest cu = w ++ post → matches false r cu gs (after cu w post) gs.
Proof.
  induction r; intros w cu gs post; try done; cbn [matches reads].
  - intros -> E. split; [|done]. simpl in E. by rewrite <- E, after_nil.
  - intros -> E. apply consume_intro; [done|]. apply N.eqb_refl.
  - intros (ch & -> & Hc) E. apply consume_intro; [done|].
    apply negb_true_iff. by apply N.eqb_neq.
  - intros (w1 & w2 & -> & R1 & R2) E. rewrite <- app_assoc in E.
    exists (after cu w1 (w2 ++ post)), gs. split; [by apply IHr1|].
    rewrite <- after_app. by apply IHr2.
Qed.

Lemma reads_no_newline r : ∀ w, wordy r = true → reads r w → NL ∉ w.
Proof.
  induction r; intros w Hw; try done; cbn [reads].
  - intros ->. apply not_elem_of_nil.
  - intros ->. cbn [wordy] in Hw. apply negb_true_iff, N.eqb_neq in Hw.
    rewrite elem_of_cons, elem_of_nil. intros [?|[]]. by subst.
  - intros (ch & -> & Hc). rewrite elem_of_cons, elem_of_nil. intros [?|[]]. by subst.
  - cbn [wordy] in Hw. apply andb_true_iff in Hw as [H1 H2].
    intros (w1 & w2 & -> & R1 & R2). rewrite elem_of_app. intros [?|?].
    + by apply (IHr1 w1).
    + by apply (IHr2 w2).
Qed.

Lemma alt_inv ic rs : ∀ cu gs cu' gs',
  rs ≠ [] → matches ic (alt rs) cu gs cu' gs' → ∃ r, r ∈ rs ∧ matches ic r cu gs cu' gs'.
Proof.
  induction rs as [|r rs IH]; intros cu gs cu' gs' Hne; [done|].
  destruct rs as [|r' rs].
  - intros M. exists r. split; [by left|done].
  - cbn [alt matches]. intros [M|M].
    + exists r. split; [by left|done].
    + destruct (IH cu gs cu' gs') as (r0 & Hin & M0); [done|done|].
      exists r0. split; [by right|done].
Qed.

Lemma alt_intro ic rs r cu gs cu' gs' :
  r ∈ rs → matches ic r cu gs cu' gs' → matches ic (alt rs) cu gs cu' gs'.
Proof.
  intros Hin M. induction rs as [|r0 rs IH]; [by apply elem_of_nil in Hin|].
  destruct rs as [|r' rs].
  - apply list_elem_of_singleton in Hin as ->. done.
  - cbn [alt matches]. apply elem_of_cons in Hin as [->|Hin]; [by left|right; by apply IH].
Qed.

Lemma headers_wordy r : r ∈ experience_headers → wordy r = true.
Proof.
  assert (H : forallb wordy experience_headers = true) by reflexivity.
  rewrite forallb_forall in H. intros Hin. by apply H, list_elem_of_In.
Qed.

Lemma terminators_wordy r :
  r ∈ experience_terminators → r = AT_END ∨ wordy r = true.
Proof.
  assert (H : forallb wordy_or_end experience_terminators = true) by reflexivity.
  rewrite forallb_forall in H. intros Hin%list_elem_of_In. specialize (H r Hin).
  destruct r; auto.
Qed.

Lemma experience_header_no_newline h : experience_header h → NL ∉ h.
Proof. intros (r & Hin & R). apply (reads_no_newline r h); [by apply headers_wordy|done]. Qed.

Lemma lookahead_intro cu gs :
  experience_end (rest cu) → ∃ cu1 gs1, matches false experience_lookahead cu gs cu1 gs1.
Proof.
  intros (post' & E & H). unfold experience_lookahead. cbn [seq].
  set (cu1 := after cu [NL] post').
  assert (M1 : matches false (LITERAL NL) cu gs cu1 gs).
  { apply consume_intro; [done|]. apply N.eqb_refl. }
  assert (Hend : AT_END ∈ experience_terminators).
  { apply (last_Some_elem_of experience_terminators). reflexivity. }
  destruct H as [->|[->|(r & t & Hin & R & [k Hk])]].
  - exists cu1, gs. exists cu1, gs. split; [done|]. by apply (alt_intro _ _ AT_END).
  - exists cu1, gs. exists cu1, gs. split; [done|]. by apply (alt_intro _ _ AT_END).
  - exists (after cu1 t k), gs. exists cu1, gs. split; [done|].
    apply (alt_intro _ _ r); [done|]. by apply reads_matches_intro.
Qed.

Lemma lookahead_inv cu gs cu1 gs1 :
  matches false experience_lookahead cu gs cu1 gs1 → experience_end (rest cu).
Proof.
  unfold experience_lookahead. cbn [seq].
  intros (cu2 & gs2 & (ch & t & E & Hc & -> & ->) & M). apply N.eqb_eq in Hc as <-.
  exists t. split; [done|].
  apply alt_inv in M as (r & Hin & M); [|done].
  destruct (terminators_wordy r Hin) as [->|Hw].
  - destruct M as (He & _). unfold at_end in He. cbn [rest] in He.
    destruct t as [|c [|c' t]]; [by left| |done]. apply N.eqb_eq in He as ->. right. by left.
  - apply reads_matches_inv in M as (w & R & Ew & _); [|done]. cbn [rest] in Ew.
    right. right. exists r, w. split_and!; [done|done|]. by exists (rest cu1).
Qed.

Lemma any_char c :
  in_set false [ichr "{"; ichr "L"; ichr "}"; ICat SPACE_; INotCat SPACE_] c = true.
Proof.
  unfold in_set. cbn [xorb existsb in_item in_category].
  destruct (is_space c); cbn [negb]; by rewrite ?orb_true_r.
Qed.

(** A lazy loop over any character stops at the first place where the
    rest of the pattern goes through. *)
Lemma lazy_loop_first q (k : cont) : ∀ fuel cnt cu gs m,
  (∀ c, q c = true) → length (rest cu) ≤ fuel →
  repeat_loop (one q) false 0 None k fuel cnt cu gs = Some m →
  ∃ w post, rest cu = w ++ post ∧ k (after cu w post) gs = Some m
    ∧ ∀ w' post', rest cu = w' ++ post' → length w' < length w →
        k (after cu w' post') gs = None.
Proof.
  intros fuel cnt cu gs m Hq. revert cnt cu.
  induction fuel as [|f IH]; intros cnt cu Hf; cbn [repeat_loop];
    rewrite decide_True by lia; destruct (k cu gs) as [m'|] eqn:Hk.
  1,3: intros [= <-]; exists [], (rest cu); rewrite after_nil;
       split_and!; [done|done|intros w' post' _ Hl; simpl in Hl; lia].
  - done.
  - cbn [below]. unfold one at 1. destruct cu as [i pv [|c t]]; cbn [rest] in *; [done|].
    rewrite Hq. cbn [pos]. rewrite decide_True by lia.
    intros H. apply IH in H as (w & post & E & Hm & Hmin); [|simpl in Hf; cbn [rest]; lia].
    cbn [rest] in E.
    exists (c :: w), post. split_and!.
    + by rewrite E.
    + rewrite <- (after_cons (Cursor i pv (c :: t))). cbn [pos]. by rewrite <- E.
    + intros w' post' E' Hl. destruct w' as [|c' w'].
      * simpl in E'. subst post'.
        by rewrite (after_nil (Cursor i pv (c :: t)) : after _ [] (c :: t) = _).
      * injection E' as <- E'. rewrite <- (after_cons (Cursor i pv (c :: t))). cbn [pos].
        rewrite <- E'. apply Hmin; [done|]. simpl in Hl. lia.
Qed.

(** Two headings that are followed by a newline at the same place are the
    same. *)
Lemma split_at_first (x : char) (a a' r r' : str) :
  x ∉ a → x ∉ a' → a ++ x :: r = a' ++ x :: r' → a = a' ∧ r = r'.
Proof.
  revert a'. induction a as [|c a IH]; intros [|c' a'] Ha Ha' E.
  - by injection E.
  - injection E as -> _. exfalso. apply Ha'. by left.
  - injection E as -> _. exfalso. apply Ha. by left.
  - injection E as -> E. destruct (IH a') as [-> ->]; try done.
    + intros ?. apply Ha. by right.
    + intros ?. apply Ha'. by right.
Qed.

(** A section at an offset gives a match of the pattern there. *)
Lemma section_matches s pre header body post :
  experience_section s pre header body post →
  ∃ j gs, matches_span EXPERIENCE_TEXT_PATTERN s (length pre) j gs.
Proof.
  intros (E & (r & Hin & R) & Hend).
  assert (Hi : length pre ≤ length s) by (rewrite E, length_app; lia).
  assert (Hd : drop (length pre) s = header ++ [NL] ++ body ++ post)
    by (by rewrite E, drop_app_length).
  set (cu := cursor_at s (length pre)).
  assert (Hr : rest cu = header ++ [NL] ++ body ++ post) by done.
  set (cu1 := after cu header ([NL] ++ body ++ post)).
  set (cu2 := after cu1 [NL] (body ++ post)).
  set (cu3 := after cu2 body post).
  assert (M : matches false (p_regex EXPERIENCE_TEXT_PATTERN) cu ∅ cu3
                (<[2 := (pos cu2, pos cu3)]> (<[1 := (pos cu, pos cu1)]> ∅))).
  { cbn [EXPERIENCE_TEXT_PATTERN p_regex seq]. exists cu1, (<[1 := (pos cu, pos cu1)]> ∅). split.
    { exists ∅. split; [|done]. apply (alt_intro _ _ r); [done|]. by apply reads_matches_intro. }
    exists cu2, (<[1 := (pos cu, pos cu1)]> ∅). split.
    { apply consume_intro; [done|]. apply N.eqb_refl. }
    exists cu3, (<[2 := (pos cu2, pos cu3)]> (<[1 := (pos cu, pos cu1)]> ∅)). split.
    { exists (<[1 := (pos cu, pos cu1)]> ∅). split; [|done].
      exists (length body). split_and!; [lia|done|].
      apply rounds_consume_intro; [|done]. apply Forall_forall. intros c _. apply any_char. }
    split; [|done]. by apply lookahead_intro. }
  destruct (matches_cursor_at _ _ _ _ _ _ _ Hi M) as (j & Ej & _).
  exists j. eexists. unfold matches_span. cbn [p_ignorecase]. rewrite <- Ej. exact M.
Qed.

Lemma experience_pattern_parts :
  p_regex EXPERIENCE_TEXT_PATTERN
  = SEQ (SUBPATTERN 1 (alt experience_headers))
        (SEQ (LITERAL NL)
             (SEQ (SUBPATTERN 2 (lazy_star (IN false [ichr "{"; ichr "L"; ichr "}";
                                                      ICat SPACE_; INotCat SPACE_])))
                  (ASSERT experience_lookahead))).
Proof. reflexivity. Qed.

Lemma run_body_lookahead items cu gs :
  run false (SEQ (SUBPATTERN 2 (lazy_star (IN false items))) (ASSERT experience_lookahead))
    cu gs accept
  = repeat_loop (one (in_set false items)) false 0 None
      (λ cu' gs',
         match run false experience_lookahead cu' (<[2 := (pos cu, pos cu')]> gs')
                 (λ c g, Some (pos c, g)) with
         | Some _ => Some (pos cu', <[2 := (pos cu, pos cu')]> gs')
         | None => None
         end)
      (length (rest cu)) 0 cu gs.
Proof. reflexivity. Qed.

(** The first way the matcher finds at an offset: the heading there, and
    the shortest body that is closed. *)
Lemma run_section s i e gs :
  i ≤ length s →
  run false (p_regex EXPERIENCE_TEXT_PATTERN) (cursor_at s i) ∅ accept = Some (e, gs) →
  ∃ header body post,
    drop i s = header ++ [NL] ++ body ++ post
    ∧ experience_header header ∧ experience_end post
    ∧ e = i + length header + 1 + length body
    ∧ gs !! 2 = Some (i + length header + 1, i + length header + 1 + length body)
    ∧ ∀ body' post', body ++ post = body' ++ post' → experience_end post' →
        length body ≤ length body'.
Proof.
  intros Hi. rewrite experience_pattern_parts. set (cu := cursor_at s i).
  intros (cu1 & gs1 & M1 & H)%run_seq_sound.
  destruct M1 as (gs0 & M1 & ->).
  apply alt_inv in M1 as (r & Hin & M1); [|done].
  pose proof (matches_after _ _ _ _ _ _ M1) as (h & Eh & Ecu1).
  apply reads_matches_inv in M1 as (h' & R & Eh' & ->); [|by apply headers_wordy].
  assert (h' = h) as -> by (rewrite Eh in Eh'; by apply app_inv_tail in Eh').
  apply run_seq_sound in H as (cu2 & gs2 & (ch & t & Et & Hc & Ecu2 & ->) & H).
  apply N.eqb_eq in Hc as <-.
  rewrite run_body_lookahead in H.
  apply lazy_loop_first in H as (body & post & Eb & Hk & Hmin); [|apply any_char|done].
  assert (Hp2 : pos cu2 = i + length h + 1).
  { rewrite Ecu2, Ecu1. cbn [pos]. rewrite after_pos. unfold cu. cbn [pos cursor_at]. lia. }
  assert (Et2 : t = body ++ post) by (by rewrite Ecu2 in Eb).
  exists h, body, post. split_and!.
  - change (drop i s) with (rest cu). by rewrite Eh, Et, Et2.
  - by exists r.
  - destruct (run false experience_lookahead (after cu2 body post) _ _) as [[e' g']|] eqn:El;
      [|done].
    apply run_sound in El as (cu' & gs' & Ml & _). by apply lookahead_inv in Ml.
  - destruct (run false experience_lookahead (after cu2 body post) _ _); [|done].
    injection Hk as He _. rewrite <- He. unfold after. cbn [pos]. lia.
  - destruct (run false experience_lookahead (after cu2 body post) _ _); [|done].
    injection Hk as _ Hg. rewrite <- Hg, lookup_insert_eq. unfold after. cbn [pos].
    do 2 f_equal; lia.
  - intros body' post' E' Hend. destruct (decide (length body ≤ length body')); [done|].
    exfalso. specialize (Hmin body' post'). rewrite Eb in Hmin.
    specialize (Hmin E' ltac:(lia)).
    destruct (lookahead_intro (after cu2 body' post')
                (<[2 := (pos cu2, pos (after cu2 body' post'))]> (<[1 := (pos cu, pos cu1)]> ∅))
                Hend) as (cu' & gs' & Ml).
    destruct (run false experience_lookahead (after cu2 body' post') _ _) eqn:El; [done|].
    by apply (run_complete _ _ _ _ _ El) in Ml.
Qed.

(** X17.  [extract_experience_text] returns the body of the first
    experience section of the masked text, stripped: the section starts at
    the first place where one of the opening headings is followed by a
    newline and a body that is closed, and its body is the shortest one that
    is closed, by a newline and a closing heading or by the end of the text;
    [None] is returned exactly when the masked text has no such section. *)
Theorem extract_experience_text_section (text : str) :
  match extract_experience_text text with
  | Some w =>
      ∃ pre header body post,
        experience_section (masked_text text) pre header body post
        ∧ w = str_strip body
        ∧ ∀ pre' header' body' post',
            experience_section (masked_text text) pre' header' body' post' →
            length pre < length pre'
            ∨ (pre' = pre ∧ header' = header ∧ length body ≤ length body')
  | None => ∀ pre header body post, ¬ experience_section (masked_text text) pre header body post
  end.
Proof.
  unfold extract_experience_text. fold (masked_text text). set (s := masked_text text).
  destruct (search EXPERIENCE_TEXT_PATTERN s) as [m|] eqn:E.
  - pose proof (search_match_at _ _ _ E) as Hrun.
    apply search_Some in E as (Hs & Hse & He & _ & Hleft).
    assert (Hi : m_start m ≤ length s) by lia.
    apply run_section in Hrun as (header & body & post & Hd & Hh & Hend & _ & Hg & Hmin);
      [|done].
    exists (take (m_start m) s), header, body, post. split_and!.
    + split_and!; [|done|done]. by rewrite <- Hd, take_drop.
    + unfold group. rewrite Hg, Hs. f_equal. apply (substr_prefix s _ body post).
      replace (m_start m + length header + 1) with (m_start m + (length header + 1)) by lia.
      rewrite <- drop_drop, Hd, app_assoc.
      replace (length header + 1) with (length (header ++ [NL])) by (rewrite length_app; simpl; lia).
      by rewrite drop_app_length.
    + intros pre' header' body' post' Hsec. rewrite length_take_le by done.
      destruct (Nat.lt_trichotomy (length pre') (m_start m)) as [Hlt|[Heq|Hgt]]; [|right|by left].
      * destruct (section_matches _ _ _ _ _ Hsec) as (j & gs & M). by destruct (Hleft _ j gs Hlt).
      * destruct Hsec as (Es & Hh' & Hend').
        assert (Hpre : pre' = take (m_start m) s).
        { rewrite <- Heq. rewrite Es at 1. by rewrite take_app_length. }
        assert (Hd' : drop (m_start m) s = header' ++ [NL] ++ body' ++ post').
        { rewrite <- Heq. rewrite Es at 1. by rewrite drop_app_length. }
        rewrite Hd in Hd'.
        apply split_at_first in Hd' as [-> Hb]; [|by apply experience_header_no_newline..].
        split_and!; [done|done|]. by apply (Hmin body' post').
  - intros pre header body post Hsec.
    destruct (section_matches _ _ _ _ _ Hsec) as (j & gs & M).
    apply (search_None _ _ E (length pre) j gs); [|done].
    destruct Hsec as (Es & _). rewrite Es, length_app. lia.
Qed.

End ExperienceSection.

(** X17, closed runs: the section opens at the first heading that stands on
    a line of its own, here "Projects", and ends before the first closing
    heading; a heading with text after it on its line opens nothing. *)
Lemma experience_section_examples :
  @extract_experience_text ascii_only
    (py "Projects" ++ [NL] ++ py "EXPERIENCE" ++ [NL] ++ py " Acme " ++ [NL] ++ py "Initech"
       ++ [NL] ++ py "Skills" ++ [NL] ++ py "React" ++ [NL] ++ py "Education" ++ [NL])
  = Some (py "EXPERIENCE" ++ [NL] ++ py " Acme " ++ [NL] ++ py "Initech")
  ∧ @extract_experience_text ascii_only (py "EXPERIENCE" ++ [NL] ++ py "Acme" ++ [NL])
    = Some (py "Acme")
  ∧ @extract_experience_text ascii_only (py "EXPERIENCE at Acme" ++ [NL] ++ py "Skills") = None.
Proof. split_and!; vm_compute; reflexivity. Qed.

(** ** The polling loop *)
Section Polling.
Context `{UD : unicode_db} `{PL : python_lib}.
Variable net : nat → str → http_reply.

(** A fetch that gives [None] has sent one request and touched no file. *)
Lemma save_url_as_json_async_None url output_file w w1 :
  save_url_as_json_async net url output_file w = (Return None, w1) →
  w1 = World (files w) (S (requests w)).
Proof.
  unfold save_url_as_json_async.
  destruct (net (requests w) url) as [status content|]; [|by intros [= <-]].
  destruct (negb (status =? 200)).
  { destruct (files w !! output_file) as [local|]; [|by intros [= <-]].
    unfold load_and_deduplicate. destruct (json_loads _) as [v|]; [|done].
    cbn [mbind result_bind]. by destruct (iterate v). }
  cbn zeta. case_decide.
  { unfold load_and_deduplicate. destruct (json_loads _) as [v|]; [|done].
    cbn [mbind result_bind]. by destruct (iterate v). }
  destruct (json_loads content) as [v|]; [|done]. by destruct (iterate v).
Qed.

(** X18.  The polling loop of [extract_text] ends with the first answer
    that is not [None]: when the first [n] fetches of the designations give
    [None] and the next one a list, the loop returns that list after
    [n + 1] requests, with the files this last fetch leaves, however many
    rounds more the model is allowed. *)
Theorem acquire_designations_first_answer (n more : nat) (w w' : world) (data : list pyobj) :
  (∀ i, i < n →
     (save_url_as_json_async net URL_TO_FETCH_DESIGNATION (py "designations-collection.json")
        (World (files w) (requests w + i))).1 = Return None) →
  save_url_as_json_async net URL_TO_FETCH_DESIGNATION (py "designations-collection.json")
    (World (files w) (requests w + n)) = (Return (Some data), w') →
  acquire_designations net (S n + more) w = Done (Return data) w'
  ∧ requests w' = requests w + n + 1.
Proof.
  revert w. induction n as [|n IH]; intros w Hnone Hlast.
  - rewrite Nat.add_0_r in Hlast. destruct w as [fs rq]. cbn [files requests] in *.
    cbn [acquire_designations Nat.add]. rewrite Hlast. split; [done|].
    pose proof Hlast as Hr. unfold save_url_as_json_async in Hr. cbn [requests files] in Hr.
    destruct (net rq _) as [status content|]; [|done].
    destruct (negb (status =? 200)).
    { destruct (fs !! _); [|done]. injection Hr as _ <-. cbn. lia. }
    cbn zeta in Hr. case_decide.
    { injection Hr as _ <-. cbn. lia. }
    destruct (json_loads content); injection Hr as _ <-; cbn; lia.
  - cbn [acquire_designations Nat.add].
    pose proof (Hnone 0 ltac:(lia)) as H0. rewrite Nat.add_0_r in H0.
    destruct w as [fs rq]. cbn [files requests] in *.
    destruct (save_url_as_json_async _ _ _ (World fs rq)) as [r w1] eqn:E. cbn [fst] in H0.
    subst r. apply save_url_as_json_async_None in E. cbn [files requests] in E. subst w1.
    destruct (IH (World fs (S rq))) as [H1 H2].
    + intros i Hi. cbn [files requests]. specialize (Hnone (S i) ltac:(lia)).
      by replace (S rq + i) with (rq + S i) by lia.
    + cbn [files requests]. by replace (S rq + n) with (rq + S n) by lia.
    + split; [done|]. cbn [requests] in H2. lia.
Qed.

End Polling.

(** X18, witness: two requests fail, the third is answered. *)
Lemma acquire_designations_first_answer_witness :
  ∃ w',
    @acquire_designations toy_lib net_late (3 + 4) (World ∅ 0)
    = Done (Return [entry "designation" "Engineer"]) w'
    ∧ requests w' = 0 + 2 + 1.
Proof.
  eexists.
  apply (@acquire_designations_first_answer toy_lib net_late 2 4 (World ∅ 0)).
  - intros i Hi. destruct i as [|[|i]]; [reflexivity|reflexivity|lia].
  - vm_compute. reflexivity.
Defined.

(** ** A response that is no JSON *)
Section BadResponse.
Context `{PL : python_lib}.
Variable net : nat → str → http_reply.

(** X19.  A response of status 200 is written to the cache file before it
    is parsed: when its body is no JSON, the fetch raises [JSONDecodeError]
    and leaves the body in the cache file, whatever the file held before;
    a later fetch that is answered with another status then raises the same
    error instead of falling back to a list. *)
Theorem bad_response_spoils_cache (url output_file : str) (w : world) (content : str) :
  net (requests w) url = Response 200 content →
  json_loads content = None →
  let w' := World (<[output_file := content]> (files w)) (S (requests w)) in
  save_url_as_json_async net url output_file w = (Raise JSONDecodeError, w')
  ∧ ∀ status content',
      net (requests w') url = Response status content' → status ≠ 200 →
      save_url_as_json_async net url output_file w'
      = (Raise JSONDecodeError, World (files w') (S (requests w'))).
Proof.
  intros Hnet Hjson w'. split.
  - unfold save_url_as_json_async. rewrite Hnet. cbn [Nat.eqb negb]. cbn zeta. cbn [files].
    rewrite lookup_insert_eq. cbn [fmap option_fmap option_map default].
    rewrite decide_True by done. unfold load_and_deduplicate. unfold id. by rewrite Hjson.
  - intros status content' Hnet' Hs. unfold save_url_as_json_async. rewrite Hnet'.
    apply Nat.eqb_neq in Hs. rewrite Hs. cbn [negb]. unfold w' at 1. cbn [files].
    rewrite lookup_insert_eq. unfold load_and_deduplicate. by rewrite Hjson.
Qed.

End BadResponse.

(** X19, witness: the cache held a list of skills; after the page it holds
    the page, and the fallback at status 500 raises. *)
Lemma bad_response_spoils_cache_witness :
  @save_url_as_json_async toy_lib net_garbled URL_TO_FETCH_SKILL (py "skills-collection.json")
    cached_skills
  = (Raise JSONDecodeError,
     World (<[py "skills-collection.json" := py "<html>"]> (files cached_skills)) 1)
  ∧ ∀ status content',
      net_garbled 1 URL_TO_FETCH_SKILL = Response status content' → status ≠ 200 →
      @save_url_as_json_async toy_lib net_garbled URL_TO_FETCH_SKILL
        (py "skills-collection.json")
        (World (<[py "skills-collection.json" := py "<html>"]> (files cached_skills)) 1)
      = (Raise JSONDecodeError,
         World (<[py "skills-collection.json" := py "<html>"]> (files cached_skills)) 2).
Proof.
  apply (@bad_response_spoils_cache toy_lib net_garbled URL_TO_FETCH_SKILL
           (py "skills-collection.json") cached_skills (py "<html>")); reflexivity.
Defined.

